(** * goevent: dispatch handles, countdown counters and error logs

    A shallow embedding of the Go package [goevent] (the dispatcher
    [GoEvent], the per-dispatch [DispatchHandle] and the adapter built
    by [registerSingleListener]) together with the properties its
    specification states about them.

    Conventions of the embedding.
    - A [*DispatchHandle] is an index into [heap], the store of every
      handle allocated so far; a fresh handle gets index [length heap].
    - [sync.WaitGroup] is its counter, an integer; [Add] panics when the
      counter would become negative (the documented behaviour), [Wait]
      is enabled when the counter is zero.
    - The channel [done] is a flag telling whether it has been closed;
      closing a closed channel panics.
    - A mutex protects every access to the logs and the table, so each
      access is one atomic update; the mutex fields are not represented.
    - The program is modelled twice. In the first model ([World],
      [exec]) a call of [Dispatch] is one step and goroutines sit in
      [pool] until the scheduler picks one ([OpGo]), which then runs to
      completion in one step: the executions in which no goroutine runs
      while [Dispatch] publishes. In the second model ([State], [step])
      a step is one operation on shared state (a read of the table, an
      [Add], a start of a goroutine, a call of [OnEvent], one append to
      one log, a [Done], a [Wait], a [close]), the scheduler may run any
      goroutine between any two operations of another, and every
      operation is written to a history; what the specification says
      about the order of operations is stated in this model.
    - A listener's [OnEvent] is a function of the event: it returns
      [None] for nil or [Some cause], the same error value for the same
      event; it does not call the dispatcher.
    - The calls of the dispatcher's interface come one after another,
      as from one goroutine; between any two of them the scheduler may
      run pending goroutines.
    - Go's [int] is taken to be 64 bits wide. *)

From Stdlib Require Import Ascii.
From stdpp Require Import gmap strings list fin_maps.

Open Scope Z_scope.

(** ** Go integers *)

Definition int_max : Z := 2 ^ 63 - 1.

(** Two's complement wrap-around of a 64-bit [int]. *)
Definition wrap_int (z : Z) : Z := (z + 2 ^ 63) mod 2 ^ 64 - 2 ^ 63.

(** ** Outcomes of a call or of a goroutine *)

Inductive Outcome (A : Type) : Type :=
| Ok (a : A)
| Blocked
| Panic (msg : string).
Arguments Ok {A} a.
Arguments Blocked {A}.
Arguments Panic {A} msg.

#[global] Instance Outcome_ret : MRet Outcome := fun A a => Ok a.
#[global] Instance Outcome_bind : MBind Outcome := fun A B k o =>
  match o with
  | Ok a => k a
  | Blocked => Blocked
  | Panic m => Panic m
  end.

(** ** Error values *)

(** A Go [error] value. Two errors with the same message need not be
    the same value ([errors.New] returns a new pointer at each call):
    [error_ref] tells the values apart, [error_msg] is what the method
    [Error] of the value returns. *)
Record error := { error_ref : nat; error_msg : string }.

(** ** Events and listeners *)

Record Event := { Name : string; Payload : list (string * string) }.

Record ListenerOptions := { Async : bool }.

Module Listener.
  (** A value behind the [Listener] interface. [TypeName] is what
      [fmt.Sprintf("%T", listener)] prints; [Options] is [Some] exactly
      when the value also implements [ListenerWithOptions]. *)
Record t := {
    TypeName : string;
    EventName : string;
    OnEvent : Event -> option error;
    Options : option ListenerOptions;
  }.
End Listener.

(** ** Error records, wait groups and dispatch handles *)

Record EventError := {
  EventName : string;
  ListenerType : string;
  Err : error;
}.

Module WaitGroup.
Definition t := Z.
Definition negative_counter : string := "sync: negative WaitGroup counter".
Definition Add (delta : Z) (c : t) : Outcome t :=
    if c + delta <? 0 then Panic negative_counter else Ok (c + delta).
Definition Done (c : t) : Outcome t := Add (-1) c.
Definition Wait (c : t) : Outcome unit :=
    if c =? 0 then Ok tt else Blocked.
End WaitGroup.

Module DispatchHandle.
Record t := {
    wg : WaitGroup.t;
    errors : list EventError;
    done : bool;
  }.

Definition set_wg (c : WaitGroup.t) (dh : t) : t :=
    {| wg := c; errors := errors dh; done := done dh |}.

Definition Wait (dh : t) : Outcome unit := WaitGroup.Wait (wg dh).

  (** [Done] returns the channel; a receive from it succeeds exactly
      when the channel is closed. *)
Definition Done (dh : t) : bool := done dh.

Definition GetErrors (dh : t) : list EventError := errors dh.

Definition recordError (err : EventError) (dh : t) : t :=
    {| wg := wg dh; errors := errors dh ++ [err]; done := done dh |}.

Definition markDone (dh : t) : Outcome t :=
    if done dh then Panic "close of closed channel"%string
    else Ok {| wg := wg dh; errors := errors dh; done := true |}.
End DispatchHandle.

(** ** The topic bus *)

(** Modelled from the spec: the topic bus is the imported package
    [EventBus], of which only the contract is known. [Subscribe] and
    [SubscribeAsync] add a handler to a topic, keeping registration
    order; [Publish] calls the inline handlers of the topic in that
    order on the calling goroutine and starts one goroutine for each
    asynchronous handler, all with the same arguments. The handler of a
    subscription is the closure [registerSingleListener] built for
    [sub_listener]: [asyncHandler] when [sub_async], [handler]
    otherwise. *)
Module Bus.
Record Subscription := {
    sub_topic : string;
    sub_async : bool;
    sub_listener : Listener.t;
  }.
Definition t := list Subscription.
Definition New : t := [].
Definition Subscribe (topic : string) (l : Listener.t) (b : t) : t :=
    b ++ [{| sub_topic := topic; sub_async := false; sub_listener := l |}].
Definition SubscribeAsync (topic : string) (l : Listener.t) (b : t) : t :=
    b ++ [{| sub_topic := topic; sub_async := true; sub_listener := l |}].
Definition on_topic (topic : string) (s : Subscription) : bool :=
    bool_decide (sub_topic s = topic).
Definition handlers (topic : string) (b : t) : list Subscription :=
    List.filter (on_topic topic) b.
End Bus.

(** ** The dispatcher *)

Module GoEvent.
Record t := {
    bus : Bus.t;
    wg : WaitGroup.t;
    errors : list EventError;
    asyncListeners : gmap string Z;
  }.

Definition New : t :=
    {| bus := Bus.New; wg := 0; errors := []; asyncListeners := ∅ |}.

Definition set_bus (b : Bus.t) (g : t) : t :=
    {| bus := b; wg := wg g; errors := errors g;
       asyncListeners := asyncListeners g |}.
Definition set_wg (c : WaitGroup.t) (g : t) : t :=
    {| bus := bus g; wg := c; errors := errors g;
       asyncListeners := asyncListeners g |}.
Definition set_asyncListeners (m : gmap string Z) (g : t) : t :=
    {| bus := bus g; wg := wg g; errors := errors g; asyncListeners := m |}.

  (** [ge.asyncListeners[name]]: a missing key reads as zero. *)
Definition asyncCount (name : string) (g : t) : Z :=
    default 0 (asyncListeners g !! name).

Definition Wait (g : t) : Outcome unit := WaitGroup.Wait (wg g).

Definition GetErrors (g : t) : list EventError := errors g.

Definition ClearErrors (g : t) : t :=
    {| bus := bus g; wg := wg g; errors := [];
       asyncListeners := asyncListeners g |}.

Definition recordError (err : EventError) (g : t) : t :=
    {| bus := bus g; wg := wg g; errors := errors g ++ [err];
       asyncListeners := asyncListeners g |}.
End GoEvent.

(** ** Program states *)

(** A value passed through [...interface{}]. *)
Inductive Arg :=
| ArgHandle (h : nat)
| ArgEvent (e : Event)
| ArgOther (v : string).

(** The type assertions of [args[0]] to a handle pointer and of
    [args[1]] to [Event]. *)
Definition as_handle (a : Arg) : option nat :=
  match a with ArgHandle h => Some h | _ => None end.
Definition as_event (a : Arg) : option Event :=
  match a with ArgEvent e => Some e | _ => None end.

(** A goroutine that has been started and has not run yet. *)
Inductive Task :=
| AsyncCall (l : Listener.t) (args : list Arg)
| Watcher (h : nat).

(** History kept for stating properties only: every call of a
    listener's [OnEvent], with the handle it was made for, and every
    [ClearErrors]. *)
Inductive TraceItem :=
| Invoked (h : nat) (l : Listener.t) (e : Event)
| Cleared.

Record World := {
  ge : GoEvent.t;
  heap : list DispatchHandle.t;
  pool : list Task;
  trace : list TraceItem;
}.

Definition New : World :=
  {| ge := GoEvent.New; heap := []; pool := []; trace := [] |}.

Definition with_ge (f : GoEvent.t -> GoEvent.t) (w : World) : World :=
  {| ge := f (ge w); heap := heap w; pool := pool w; trace := trace w |}.
Definition with_handle (h : nat) (f : DispatchHandle.t -> DispatchHandle.t)
    (w : World) : World :=
  {| ge := ge w; heap := alter f h (heap w); pool := pool w;
     trace := trace w |}.
Definition with_pool (f : list Task -> list Task) (w : World) : World :=
  {| ge := ge w; heap := heap w; pool := f (pool w); trace := trace w |}.
Definition with_trace (f : list TraceItem -> list TraceItem) (w : World)
    : World :=
  {| ge := ge w; heap := heap w; pool := pool w; trace := f (trace w) |}.
Definition alloc (dh : DispatchHandle.t) (w : World) : World :=
  {| ge := ge w; heap := heap w ++ [dh]; pool := pool w; trace := trace w |}.
Definition spawn (t : Task) (w : World) : World := with_pool (fun p => p ++ [t]) w.


(** ** Counter and log updates on a state *)

Definition nil_dereference : string :=
  "invalid memory address or nil pointer dereference".

(** [ge.wg.Add(delta)] and [handle.wg.Add(delta)]. *)
Definition ge_wg_Add (delta : Z) (w : World) : Outcome World :=
  c ← WaitGroup.Add delta (GoEvent.wg (ge w));
  Ok (with_ge (GoEvent.set_wg c) w).

Definition handle_wg_Add (h : nat) (delta : Z) (w : World) : Outcome World :=
  match heap w !! h with
  | Some dh =>
      c ← WaitGroup.Add delta (DispatchHandle.wg dh);
      Ok (with_handle h (DispatchHandle.set_wg c) w)
  | None => Panic nil_dereference
  end.

(** [ge.wg.Done()] and [handle.wg.Done()]. *)
Definition ge_wg_Done (w : World) : Outcome World := ge_wg_Add (-1) w.
Definition handle_wg_Done (h : nat) (w : World) : Outcome World :=
  handle_wg_Add h (-1) w.

(** [ge.recordError(err)] and [handle.recordError(err)]. *)
Definition ge_recordError (err : EventError) (w : World) : World :=
  with_ge (GoEvent.recordError err) w.
Definition handle_recordError (h : nat) (err : EventError) (w : World)
    : World :=
  with_handle h (DispatchHandle.recordError err) w.

(** ** registerSingleListener and the two closures it builds *)

(** The closure [handler] of [registerSingleListener], for [listener]. *)
Definition handler (listener : Listener.t) (args : list Arg) (w : World)
    : World :=
  match args with
  | a0 :: a1 :: _ =>
      match as_handle a0, as_event a1 with
      | Some handle, Some event =>
          let w := with_trace (fun t => t ++ [Invoked handle listener event]) w in
          match Listener.OnEvent listener event with
          | Some err =>
              let eventError :=
                {| EventName := Listener.EventName listener;
                   ListenerType := Listener.TypeName listener;
                   Err := err |} in
              ge_recordError eventError (handle_recordError handle eventError w)
          | None => w
          end
      | _, _ => w
      end
  | _ => w
  end.

(** The closure [asyncHandler]. Its two deferred calls run after
    [handler] returns, last deferred first: [ge.wg.Done()], then
    [handle.wg.Done()] when the first argument is a handle. A panic in
    a goroutine ends the program, so what a deferred call does after an
    earlier one has panicked is not observed. *)
Definition asyncHandler (listener : Listener.t) (args : list Arg) (w : World)
    : Outcome World :=
  let w := handler listener args w in
  w ← ge_wg_Done w;
  match args with
  | a0 :: _ =>
      match as_handle a0 with
      | Some handle => handle_wg_Done handle w
      | None => Ok w
      end
  | [] => Ok w
  end.

Definition isAsync (listener : Listener.t) : bool :=
  match Listener.Options listener with
  | Some o => Async o
  | None => false
  end.

Definition registerSingleListener (listener : Listener.t) (w : World)
    : World :=
  let eventName := Listener.EventName listener in
  if isAsync listener then
    let w :=
      with_ge (fun g =>
        GoEvent.set_asyncListeners
          (<[eventName := wrap_int (GoEvent.asyncCount eventName g + 1)]>
             (GoEvent.asyncListeners g)) g) w in
    with_ge (fun g =>
      GoEvent.set_bus (Bus.SubscribeAsync eventName listener (GoEvent.bus g)) g) w
  else
    with_ge (fun g =>
      GoEvent.set_bus (Bus.Subscribe eventName listener (GoEvent.bus g)) g) w.

Definition RegisterListener (listeners : list Listener.t) (w : World)
    : World :=
  fold_left (fun w listener => registerSingleListener listener w) listeners w.

(** ** Publish, Dispatch and the rest of the dispatcher's interface *)

(** Modelled from the spec: what the bus does with one subscription
    when its topic is published. An inline handler runs at once, on the
    publishing goroutine; an asynchronous handler gets a goroutine of
    its own, which in this model runs after [Dispatch] has returned
    (the model of single operations, below, lets it run at once). *)
Definition deliver (args : list Arg) (w : World) (s : Bus.Subscription)
    : World :=
  if Bus.sub_async s then spawn (AsyncCall (Bus.sub_listener s) args) w
  else handler (Bus.sub_listener s) args w.

(** Modelled from the spec: [Publish] goes through the handlers of the
    topic in registration order. *)
Definition Publish (topic : string) (args : list Arg) (w : World) : World :=
  fold_left (deliver args) (Bus.handlers topic (GoEvent.bus (ge w))) w.

(** The goroutine started at the end of [Dispatch]. *)
Definition watcher (h : nat) (w : World) : Outcome World :=
  match heap w !! h with
  | Some dh =>
      _ ← DispatchHandle.Wait dh;
      dh' ← DispatchHandle.markDone dh;
      Ok (with_handle h (fun _ => dh') w)
  | None => Panic nil_dereference
  end.

Definition Dispatch (event : Event) (w : World) : Outcome (nat * World) :=
  let eventName := Name event in
  let handle := length (heap w) in
  let w :=
    alloc {| DispatchHandle.wg := 0; DispatchHandle.errors := [];
             DispatchHandle.done := false |} w in
  let asyncCount := GoEvent.asyncCount eventName (ge w) in
  w ← (if 0 <? asyncCount
       then w ← ge_wg_Add asyncCount w; handle_wg_Add handle asyncCount w
       else Ok w);
  let w := Publish eventName [ArgHandle handle; ArgEvent event] w in
  let w := spawn (Watcher handle) w in
  Ok (handle, w).

Definition Wait (w : World) : Outcome unit := GoEvent.Wait (ge w).

Definition GetErrors (w : World) : list EventError := GoEvent.GetErrors (ge w).

Definition ClearErrors (w : World) : World :=
  with_trace (fun t => t ++ [Cleared]) (with_ge GoEvent.ClearErrors w).

(** The handle-level queries, through a handle index. *)
Definition handle_Wait (h : nat) (w : World) : Outcome unit :=
  match heap w !! h with
  | Some dh => DispatchHandle.Wait dh
  | None => Panic nil_dereference
  end.
Definition handle_Done (h : nat) (w : World) : bool :=
  default false (DispatchHandle.Done <$> heap w !! h).
Definition handle_GetErrors (h : nat) (w : World) : list EventError :=
  default [] (DispatchHandle.GetErrors <$> heap w !! h).
Definition handle_wg (h : nat) (w : World) : Z :=
  default 0 (DispatchHandle.wg <$> heap w !! h).

(** ** Executions *)

(** The scheduler runs goroutine number [i] of the pool, in this model
    from its start to its end. *)
Definition go (i : nat) (w : World) : Outcome World :=
  match pool w !! i with
  | Some (AsyncCall l args) => asyncHandler l args (with_pool (delete i) w)
  | Some (Watcher h) => watcher h (with_pool (delete i) w)
  | None => Blocked
  end.

(** The steps of an execution: a call of the dispatcher's interface by
    the program, or the run of a pending goroutine. [Wait] and
    [GetErrors] change no state and are not steps. *)
Inductive Op :=
| OpRegister (listeners : list Listener.t)
| OpDispatch (event : Event)
| OpClearErrors
| OpGo (i : nat).

Definition exec (op : Op) (w : World) : Outcome World :=
  match op with
  | OpRegister ls => Ok (RegisterListener ls w)
  | OpDispatch e => r ← Dispatch e w; Ok (snd r)
  | OpClearErrors => Ok (ClearErrors w)
  | OpGo i => go i w
  end.

Fixpoint run (ops : list Op) (w : World) : Outcome World :=
  match ops with
  | [] => Ok w
  | op :: rest => w' ← exec op w; run rest w'
  end.

(** States the program can be in: those an execution reaches from
    [New]. *)
Definition reachable (w : World) : Prop := ∃ ops, run ops New = Ok w.

(** ** A small scenario to try the definitions on *)

Definition testEvent (data : string) : Event :=
  {| Name := "test.event"; Payload := [("data"%string, data)] |}.
Definition testSyncListener : Listener.t :=
  {| Listener.TypeName := "*goevent.testSyncListener";
     Listener.EventName := "test.event";
     Listener.OnEvent := fun _ => None;
     Listener.Options := None |}.
Definition testAsyncListener : Listener.t :=
  {| Listener.TypeName := "*goevent.testAsyncListener";
     Listener.EventName := "test.event";
     Listener.OnEvent := fun _ => None;
     Listener.Options := Some {| Async := true |} |}.
Definition testErrorListener : Listener.t :=
  {| Listener.TypeName := "*goevent.testErrorListener";
     Listener.EventName := "test.event";
     Listener.OnEvent := fun _ =>
       Some {| error_ref := 1; error_msg := "test error" |};
     Listener.Options := None |}.
Definition testAsyncErrorListener : Listener.t :=
  {| Listener.TypeName := "*goevent.testAsyncErrorListener";
     Listener.EventName := "test.event";
     Listener.OnEvent := fun _ =>
       Some {| error_ref := 2; error_msg := "boom" |};
     Listener.Options := Some {| Async := true |} |}.

(** ** Reading the history *)

(** The record [handler] builds when [OnEvent] fails. *)
Definition failure (l : Listener.t) (e : Event) : option EventError :=
  (fun err => {| EventName := Listener.EventName l;
                 ListenerType := Listener.TypeName l;
                 Err := err |}) <$> Listener.OnEvent l e.

(** Failures of the calls made for handle [h], oldest first. *)
Definition failures_for (h : nat) (t : list TraceItem) : list EventError :=
  omap (fun it => match it with
                  | Invoked h' l e => if decide (h' = h) then failure l e else None
                  | Cleared => None
                  end) t.

(** Failures of all calls, oldest first. *)
Definition all_failures (t : list TraceItem) : list EventError :=
  omap (fun it => match it with
                  | Invoked _ l e => failure l e
                  | Cleared => None
                  end) t.

(** The part of the history after the most recent [ClearErrors]. *)
Definition since_clear (t : list TraceItem) : list TraceItem :=
  fold_left (fun acc it => match it with
                           | Invoked _ _ _ => acc ++ [it]
                           | Cleared => []
                           end) t [].

(** ** Counting goroutines *)

Fixpoint count_if {A} (p : A -> bool) (l : list A) : nat :=
  match l with
  | [] => 0%nat
  | x :: l' => ((if p x then 1 else 0) + count_if p l')%nat
  end.

Definition is_call (t : Task) : bool :=
  match t with AsyncCall _ _ => true | Watcher _ => false end.
Definition is_call_for (h : nat) (t : Task) : bool :=
  match t with
  | AsyncCall _ (a0 :: _) => bool_decide (as_handle a0 = Some h)
  | _ => false
  end.
Definition is_watcher (h : nat) (t : Task) : bool :=
  match t with Watcher h' => bool_decide (h' = h) | _ => false end.

(** A goroutine of the pool is well formed when it was started for an
    allocated handle, an asynchronous call with the two arguments
    [Dispatch] publishes. *)
Definition task_ok (n : nat) (t : Task) : Prop :=
  match t with
  | AsyncCall _ args => ∃ h e, args = [ArgHandle h; ArgEvent e] ∧ (h < n)%nat
  | Watcher h => (h < n)%nat
  end.

Definition item_ok (n : nat) (it : TraceItem) : Prop :=
  match it with
  | Invoked h _ _ => (h < n)%nat
  | Cleared => True
  end.

(** The number of subscriptions the bus holds fits a Go [int]. *)
Definition bus_fits (w : World) : Prop :=
  Z.of_nat (length (GoEvent.bus (ge w))) <= int_max.

(** The invariant of reachable states. *)
Record wf (w : World) : Prop := {
  wf_ge_wg :
    GoEvent.wg (ge w) = Z.of_nat (count_if is_call (pool w));
  wf_handle_wg : ∀ h dh, heap w !! h = Some dh →
    DispatchHandle.wg dh = Z.of_nat (count_if (is_call_for h) (pool w));
  wf_counts : ∀ name,
    GoEvent.asyncCount name (ge w) =
    Z.of_nat (count_if Bus.sub_async (Bus.handlers name (GoEvent.bus (ge w))));
  wf_done : ∀ h dh, heap w !! h = Some dh →
    (count_if (is_watcher h) (pool w)
     + (if DispatchHandle.done dh then 1 else 0) = 1)%nat;
  wf_tasks : Forall (task_ok (length (heap w))) (pool w);
  wf_trace : Forall (item_ok (length (heap w))) (trace w);
  wf_handle_errors : ∀ h dh, heap w !! h = Some dh →
    DispatchHandle.errors dh = failures_for h (trace w);
  wf_ge_errors :
    GoEvent.errors (ge w) = all_failures (since_clear (trace w));
}.

(** ** Appending several errors at once

    What a run of [recordError] calls amounts to; used to describe the
    effect of [handler] and of [Publish] in one equation. *)

Definition add_errors (fs : list EventError) (dh : DispatchHandle.t)
    : DispatchHandle.t :=
  {| DispatchHandle.wg := DispatchHandle.wg dh;
     DispatchHandle.errors := DispatchHandle.errors dh ++ fs;
     DispatchHandle.done := DispatchHandle.done dh |}.

Definition ge_add_errors (fs : list EventError) (g : GoEvent.t) : GoEvent.t :=
  {| GoEvent.bus := GoEvent.bus g; GoEvent.wg := GoEvent.wg g;
     GoEvent.errors := GoEvent.errors g ++ fs;
     GoEvent.asyncListeners := GoEvent.asyncListeners g |}.

(** The failures of the inline listeners among [subs], in order. *)
Definition sync_failures (e : Event) (subs : list Bus.Subscription)
    : list EventError :=
  omap (fun s => if Bus.sub_async s then None
                 else failure (Bus.sub_listener s) e) subs.

Definition is_sync (s : Bus.Subscription) : bool := negb (Bus.sub_async s).

(** The state [Publish] leaves when it is given a handle and an event. *)
Definition published (h : nat) (e : Event) (subs : list Bus.Subscription)
    (w : World) : World :=
  {| ge := ge_add_errors (sync_failures e subs) (ge w);
     heap := alter (add_errors (sync_failures e subs)) h (heap w);
     pool := pool w ++
       map (fun s => AsyncCall (Bus.sub_listener s) [ArgHandle h; ArgEvent e])
           (List.filter Bus.sub_async subs);
     trace := trace w ++
       map (fun s => Invoked h (Bus.sub_listener s) e)
           (List.filter is_sync subs) |}.

(** ** The states of a dispatch, written out *)

(** The amount [Dispatch] adds to the two counters for event [e]. *)
Definition added (e : Event) (w : World) : Z :=
  let asyncCount := GoEvent.asyncCount (Name e) (ge w) in
  if 0 <? asyncCount then asyncCount else 0.

(** The state in which [Dispatch] calls [Publish]: the handle is
    allocated and both counters have received their increment. *)
Definition prepared (e : Event) (w : World) : World :=
  {| ge := GoEvent.set_wg (GoEvent.wg (ge w) + added e w) (ge w);
     heap := heap w ++
       [{| DispatchHandle.wg := added e w; DispatchHandle.errors := [];
           DispatchHandle.done := false |}];
     pool := pool w;
     trace := trace w |}.

(** The state in which [Dispatch] returns. *)
Definition dispatched (e : Event) (w : World) : World :=
  spawn (Watcher (length (heap w)))
    (Publish (Name e) [ArgHandle (length (heap w)); ArgEvent e] (prepared e w)).

(** The state an asynchronous call leaves: the listener has run for
    handle [h], its failure is in both logs and both counters are one
    lower. *)
Definition completed (l : Listener.t) (h : nat) (e : Event) (w : World)
    : World :=
  {| ge := GoEvent.set_wg (GoEvent.wg (ge w) - 1)
             (ge_add_errors (option_list (failure l e)) (ge w));
     heap := alter (fun dh =>
                      DispatchHandle.set_wg (DispatchHandle.wg dh - 1)
                        (add_errors (option_list (failure l e)) dh))
               h (heap w);
     pool := pool w;
     trace := trace w ++ [Invoked h l e] |}.

(** The state the watcher of [h] leaves. *)
Definition closed (h : nat) (w : World) : World :=
  with_handle h (fun dh =>
    {| DispatchHandle.wg := DispatchHandle.wg dh;
       DispatchHandle.errors := DispatchHandle.errors dh;
       DispatchHandle.done := true |}) w.

(** ** States of the test scenario *)

(** One inline listener, one asynchronous failing listener and one
    inline failing listener, all on ["test.event"]. *)
Definition w_registered : World :=
  RegisterListener
    [testSyncListener; testAsyncErrorListener; testErrorListener] New.

(** The same dispatcher after dispatching one event: the asynchronous
    call and the watcher of handle [0] are pending. *)
Definition w_dispatched : World := dispatched (testEvent "x") w_registered.

(** The record the failing asynchronous listener produces. *)
Definition boom : EventError :=
  {| EventName := "test.event";
     ListenerType := "*goevent.testAsyncErrorListener";
     Err := {| error_ref := 2; error_msg := "boom" |} |}.

(** ** What a registration adds *)

(** The subscription [registerSingleListener] makes for a listener. *)
Definition subscription_of (l : Listener.t) : Bus.Subscription :=
  {| Bus.sub_topic := Listener.EventName l;
     Bus.sub_async := isAsync l;
     Bus.sub_listener := l |}.

(** An asynchronous listener of the event called [name]. *)
Definition async_on (name : string) (l : Listener.t) : bool :=
  isAsync l && bool_decide (Listener.EventName l = name).

(** ** Error logs as Go slices

    The two error logs are Go slices. Above, a log is the list of its
    elements; here it is a slice header pointing into a store of
    backing arrays, so that one can tell a copy from an alias. An array
    cell holds a pointer to an [EventError], [None] for nil. All slices
    of the package start at the first cell of their array. The
    capacity [append] gives to a new array is left to the runtime:
    [spare] is the room it adds beyond the element appended. *)
Module Slice.
Record t := { ptr : nat; len : nat; cap : nat }.

Abbreviation Array := (list (option EventError)).
Abbreviation Mem := (list (list (option EventError))).

Definition array (m : Mem) (s : t) : Array := default [] (m !! ptr s).

(** The elements [s[0]] to [s[len(s)-1]]. *)
Definition read (m : Mem) (s : t) : list (option EventError) :=
  take (len s) (array m s).

(** [make([]*EventError, n)]. *)
Definition make (n : nat) (m : Mem) : t * Mem :=
  ({| ptr := length m; len := n; cap := n |}, m ++ [replicate n None]).

(** [copy(dst, src)]. *)
Definition copy (dst src : t) (m : Mem) : Mem :=
  let n := Nat.min (len dst) (len src) in
  alter (fun a => take n (read m src) ++ drop n a) (ptr dst) m.

(** [s[i] = x]. *)
Definition store (s : t) (i : nat) (x : option EventError) (m : Mem)
    : Outcome Mem :=
  if decide (i < len s)%nat
  then Ok (alter (fun a => <[i := x]> a) (ptr s) m)
  else Panic "index out of range"%string.

(** [append(s, x)]: in place when the array has room, into a new array
    otherwise. *)
Definition append (spare : nat -> nat) (s : t) (x : EventError) (m : Mem)
    : t * Mem :=
  if decide (len s < cap s)%nat then
    ({| ptr := ptr s; len := S (len s); cap := cap s |},
     alter (fun a => <[len s := Some x]> a) (ptr s) m)
  else
    ({| ptr := length m; len := S (len s);
        cap := (S (len s) + spare (cap s))%nat |},
     m ++ [read m s ++ Some x :: replicate (spare (cap s)) None]).
End Slice.

(** The three functions on a log, as [GoEvent] and [DispatchHandle]
    both have them, on the slice [errors] in the store [m]. *)
Module ErrorLog.
Definition GetErrors (m : Slice.Mem) (errors : Slice.t)
    : Slice.t * Slice.Mem :=
  let '(errorsCopy, m) := Slice.make (Slice.len errors) m in
  (errorsCopy, Slice.copy errorsCopy errors m).

Definition recordError (spare : nat -> nat) (err : EventError)
    (m : Slice.Mem) (errors : Slice.t) : Slice.t * Slice.Mem :=
  Slice.append spare errors err m.

Definition ClearErrors (m : Slice.Mem) : Slice.t * Slice.Mem :=
  Slice.make 0 m.

(** Operations of a program on its logs: [logs] lists the slice of the
    dispatcher's log and those of the handles' logs. *)
Inductive Op :=
| Record (k : nat) (err : EventError)
| Clear (k : nat)
| Get (k : nat).

Definition exec (spare : nat -> nat) (op : Op)
    (st : Slice.Mem * list Slice.t) : Slice.Mem * list Slice.t :=
  let '(m, logs) := st in
  match op with
  | Record k err =>
      match logs !! k with
      | Some s => let '(s', m') := recordError spare err m s in
                  (m', <[k := s']> logs)
      | None => st
      end
  | Clear k =>
      match logs !! k with
      | Some _ => let '(s', m') := ClearErrors m in (m', <[k := s']> logs)
      | None => st
      end
  | Get k =>
      match logs !! k with
      | Some s => (snd (GetErrors m s), logs)
      | None => st
      end
  end.

Definition run (spare : nat -> nat) (ops : list Op)
    (st : Slice.Mem * list Slice.t) : Slice.Mem * list Slice.t :=
  fold_left (fun st op => exec spare op st) ops st.

(** The slice [s] in the store [m] holds the list [l], in an allocated
    array of the slice's capacity. *)
Definition represents (m : Slice.Mem) (s : Slice.t) (l : list EventError)
    : Prop :=
  (Slice.ptr s < length m)%nat ∧
  length (Slice.array m s) = Slice.cap s ∧
  (Slice.len s <= Slice.cap s)%nat ∧
  Slice.read m s = map Some l.
End ErrorLog.

(** A store with the dispatcher's log holding one error in an array of
    capacity two, and one handle's log holding the same error. *)
Definition mem_example : Slice.Mem := [[Some boom; None]; [Some boom]].
Definition logs_example : list Slice.t :=
  [{| Slice.ptr := 0; Slice.len := 1; Slice.cap := 2 |};
   {| Slice.ptr := 1; Slice.len := 1; Slice.cap := 1 |}].

(** What later operations on the logs keep true of a snapshot: its
    array still holds [content], and no log points to it. *)
Definition snapshot_kept (snap : Slice.t) (content : Slice.Array)
    (st : Slice.Mem * list Slice.t) : Prop :=
  fst st !! Slice.ptr snap = Some content ∧
  Forall (fun s => Slice.ptr s ≠ Slice.ptr snap ∧
                   (Slice.ptr s < length (fst st))%nat) (snd st).

(** ** The message of an error record *)

(** [EventError.Error]: [fmt.Sprintf("event '%s' listener '%s': %v",
    e.EventName, e.ListenerType, e.Err)]; [%v] prints the message of
    the cause. *)
Definition Error (e : EventError) : string :=
  String.append "event '"
    (String.append (EventName e)
       (String.append "' listener '"
          (String.append (ListenerType e)
             (String.append "': " (error_msg (Err e)))))).

(** The string holds no apostrophe. *)
Fixpoint no_quote (s : string) : bool :=
  match s with
  | EmptyString => true
  | String c s' => negb (Ascii.eqb c "'"%char) && no_quote s'
  end.

(** ** Listeners registered by an execution *)

(** The listeners an execution has registered, in registration order. *)
Fixpoint registered (ops : list Op) : list Listener.t :=
  match ops with
  | [] => []
  | OpRegister ls :: rest => ls ++ registered rest
  | _ :: rest => registered rest
  end.

(** An inline listener of the event called [name]. *)
Definition sync_on (name : string) (l : Listener.t) : bool :=
  negb (isAsync l) && bool_decide (Listener.EventName l = name).

(** ** Routing *)

(** A subscription sits on the topic its listener names; a goroutine
    and a recorded call pair a listener with an event of the name the
    listener names. *)
Definition sub_routed (s : Bus.Subscription) : Prop :=
  Bus.sub_topic s = Listener.EventName (Bus.sub_listener s).
Definition task_routed (t : Task) : Prop :=
  match t with
  | AsyncCall l args =>
      ∀ h e, args = [ArgHandle h; ArgEvent e] → Name e = Listener.EventName l
  | Watcher _ => True
  end.
Definition item_routed (it : TraceItem) : Prop :=
  match it with
  | Invoked _ l e => Name e = Listener.EventName l
  | Cleared => True
  end.
Definition routed (w : World) : Prop :=
  Forall sub_routed (GoEvent.bus (ge w)) ∧
  Forall task_routed (pool w) ∧
  Forall item_routed (trace w).

(** A handle whose signal has fired counts no outstanding call. *)
Definition fired_settled (w : World) : Prop :=
  ∀ h dh, heap w !! h = Some dh →
    DispatchHandle.done dh = true → DispatchHandle.wg dh = 0.

(** ** The logs of a program, as lists and as slices *)

(** What an operation does to the contents of the logs. *)
Definition log_exec (op : ErrorLog.Op)
    (ls : list (list (option EventError))) : list (list (option EventError)) :=
  match op with
  | ErrorLog.Record k err => alter (fun l => l ++ [Some err]) k ls
  | ErrorLog.Clear k => alter (fun _ => []) k ls
  | ErrorLog.Get _ => ls
  end.

(** No two logs share a backing array, and each log is a slice of an
    allocated array of its capacity. *)
Definition logs_ok (st : Slice.Mem * list Slice.t) : Prop :=
  NoDup (Slice.ptr <$> snd st) ∧
  Forall (fun s => (Slice.ptr s < length (fst st))%nat ∧
                   length (Slice.array (fst st) s) = Slice.cap s ∧
                   (Slice.len s <= Slice.cap s)%nat) (snd st).

Definition contents (st : Slice.Mem * list Slice.t)
    : list (list (option EventError)) :=
  Slice.read (fst st) <$> snd st.

(** ** More states of the test scenario *)

(** [w_dispatched] after the asynchronous call has run, and then after
    the watcher has run too. *)
Definition w_completed : World :=
  completed testAsyncErrorListener 0 (testEvent "x")
    (with_pool (delete 0%nat) w_dispatched).
Definition w_fired : World := closed 0 (with_pool (delete 0%nat) w_completed).

(** A slice of an allocated array of its capacity. *)
Definition slice_ok (m : Slice.Mem) (s : Slice.t) : Prop :=
  (Slice.ptr s < length m)%nat ∧
  length (Slice.array m s) = Slice.cap s ∧
  (Slice.len s <= Slice.cap s)%nat.

(** ** The dispatcher, one operation at a time

    Above, a call of [Dispatch] and the run of a goroutine are each one
    step. Here they are taken apart into the operations on shared
    state that the code performs one after another: a read of the
    table, an [Add], the delivery to one handler, a call of [OnEvent],
    a [recordError] (each under its own mutex), a [Done], a [Wait], a
    [close]. Between any two of them the scheduler may run any other
    goroutine, so a goroutine that publishing has started can run while
    [Dispatch] is still publishing, and the two appends of an adapter
    can be separated by appends of others. The program itself still
    makes its calls of the interface one after another. *)

(** Who performs an operation: the goroutine that calls the interface,
    or a goroutine that was started, by its number. *)
Inductive Actor :=
| Caller
| Started (i : nat).

(** Where a run of the closure [handler] is, for a handle and an event:
    before the call of [OnEvent], or, the call having failed, before
    [handle.recordError] or before [ge.recordError]. *)
Inductive HPc :=
| HCall
| HRecordHandle (eventError : EventError)
| HRecordGlobal (eventError : EventError).

(** Where a run of [asyncHandler] is: inside [handler], before the
    deferred [ge.wg.Done()], before the deferred [handle.wg.Done()], or
    over. *)
Inductive APc :=
| AHandler (p : HPc)
| AGeDone
| AHandleDone
| AExit.

(** Where the goroutine started at the end of [Dispatch] is: before
    [handle.wg.Wait()], before [handle.markDone()], or over. *)
Inductive WPc :=
| WWait
| WMarkDone
| WExit.

(** A goroutine that has been started. Goroutines keep their place in
    the list of goroutines when they are over. *)
Inductive Goroutine :=
| GoAsync (l : Listener.t) (h : nat) (e : Event) (pc : APc)
| GoWatcher (h : nat) (pc : WPc).

(** Where a call of [Dispatch] is: before the read of the table, before
    [ge.wg.Add], before [handle.wg.Add], before the call of [Publish]
    (which takes the handlers of the topic), or publishing, with the
    handlers still to be served and the inline handler that is running,
    if one is. *)
Inductive DPc :=
| DRead
| DAddGe (asyncCount : Z)
| DAddHandle (asyncCount : Z)
| DCallPublish (asyncCount : Z)
| DPublish (todo : list Bus.Subscription) (cur : option (Listener.t * HPc)).

Inductive Main :=
| Idle
| Dispatching (h : nat) (e : Event) (pc : DPc).

(** The operations performed, for the history of an execution. *)
Inductive Action :=
| ADispatch (h : nat) (e : Event)
| ARead (h : nat) (n : Z)
| AAddGe (h : nat) (n : Z)
| AAddHandle (h : nat) (n : Z)
| APublish (h : nat)
| ASpawn (h : nat) (i : nat) (l : Listener.t)
| ACall (a : Actor) (h : nat) (l : Listener.t) (e : Event)
| ARecordHandle (a : Actor) (h : nat) (eventError : EventError)
| ARecordGlobal (a : Actor) (h : nat) (eventError : EventError)
| ADoneGe (i : nat) (h : nat)
| ADoneHandle (i : nat) (h : nat)
| AClose (h : nat)
| AClear (removed : list EventError)
| AReturn (h : nat).

Record State := {
  s_ge : GoEvent.t;
  s_heap : list DispatchHandle.t;
  s_gs : list Goroutine;
  s_main : Main;
  s_hist : list Action;
}.

Definition Start : State :=
  {| s_ge := GoEvent.New; s_heap := []; s_gs := []; s_main := Idle;
     s_hist := [] |}.

Definition upd_ge (f : GoEvent.t -> GoEvent.t) (s : State) : State :=
  {| s_ge := f (s_ge s); s_heap := s_heap s; s_gs := s_gs s;
     s_main := s_main s; s_hist := s_hist s |}.
Definition upd_handle (h : nat) (f : DispatchHandle.t -> DispatchHandle.t)
    (s : State) : State :=
  {| s_ge := s_ge s; s_heap := alter f h (s_heap s); s_gs := s_gs s;
     s_main := s_main s; s_hist := s_hist s |}.
Definition set_go (i : nat) (g : Goroutine) (s : State) : State :=
  {| s_ge := s_ge s; s_heap := s_heap s; s_gs := <[i := g]> (s_gs s);
     s_main := s_main s; s_hist := s_hist s |}.
Definition start_go (g : Goroutine) (s : State) : State :=
  {| s_ge := s_ge s; s_heap := s_heap s; s_gs := s_gs s ++ [g];
     s_main := s_main s; s_hist := s_hist s |}.
Definition set_main (m : Main) (s : State) : State :=
  {| s_ge := s_ge s; s_heap := s_heap s; s_gs := s_gs s;
     s_main := m; s_hist := s_hist s |}.
Definition record (a : Action) (s : State) : State :=
  {| s_ge := s_ge s; s_heap := s_heap s; s_gs := s_gs s;
     s_main := s_main s; s_hist := s_hist s ++ [a] |}.

(** One operation of the closure [handler], run by [a] for listener
    [l], handle [h] and event [e]; [None] when [handler] returns. *)
Definition handler_step (a : Actor) (l : Listener.t) (h : nat) (e : Event)
    (p : HPc) (s : State) : State * option HPc :=
  match p with
  | HCall =>
      match Listener.OnEvent l e with
      | Some err =>
          let eventError :=
            {| EventName := Listener.EventName l;
               ListenerType := Listener.TypeName l;
               Err := err |} in
          (record (ACall a h l e) s, Some (HRecordHandle eventError))
      | None => (record (ACall a h l e) s, None)
      end
  | HRecordHandle eventError =>
      (record (ARecordHandle a h eventError)
         (upd_handle h (DispatchHandle.recordError eventError) s),
       Some (HRecordGlobal eventError))
  | HRecordGlobal eventError =>
      (record (ARecordGlobal a h eventError)
         (upd_ge (GoEvent.recordError eventError) s),
       None)
  end.

(** One operation of goroutine [i]. *)
Definition go_step (i : nat) (s : State) : Outcome State :=
  match s_gs s !! i with
  | Some (GoAsync l h e (AHandler p)) =>
      let '(s', q) := handler_step (Started i) l h e p s in
      Ok (set_go i (GoAsync l h e
                      (match q with Some p' => AHandler p' | None => AGeDone end))
            s')
  | Some (GoAsync l h e AGeDone) =>
      c ← WaitGroup.Done (GoEvent.wg (s_ge s));
      Ok (record (ADoneGe i h)
            (set_go i (GoAsync l h e AHandleDone)
               (upd_ge (GoEvent.set_wg c) s)))
  | Some (GoAsync l h e AHandleDone) =>
      match s_heap s !! h with
      | Some dh =>
          c ← WaitGroup.Done (DispatchHandle.wg dh);
          Ok (record (ADoneHandle i h)
                (set_go i (GoAsync l h e AExit)
                   (upd_handle h (DispatchHandle.set_wg c) s)))
      | None => Panic nil_dereference
      end
  | Some (GoAsync _ _ _ AExit) => Blocked
  | Some (GoWatcher h WWait) =>
      match s_heap s !! h with
      | Some dh =>
          _ ← DispatchHandle.Wait dh;
          Ok (set_go i (GoWatcher h WMarkDone) s)
      | None => Panic nil_dereference
      end
  | Some (GoWatcher h WMarkDone) =>
      match s_heap s !! h with
      | Some dh =>
          dh' ← DispatchHandle.markDone dh;
          Ok (record (AClose h)
                (set_go i (GoWatcher h WExit)
                   (upd_handle h (fun _ => dh') s)))
      | None => Panic nil_dereference
      end
  | Some (GoWatcher _ WExit) => Blocked
  | None => Blocked
  end.

(** One operation of the call of [Dispatch] in progress. Publishing
    serves the next handler of the topic: an asynchronous one gets its
    goroutine, an inline one is entered and makes its call of
    [OnEvent]; when no handler is left the watcher is started and
    [Dispatch] returns. *)
Definition caller_step (s : State) : Outcome State :=
  match s_main s with
  | Idle => Blocked
  | Dispatching h e DRead =>
      let asyncCount := GoEvent.asyncCount (Name e) (s_ge s) in
      Ok (record (ARead h asyncCount)
            (set_main
               (Dispatching h e
                  (if 0 <? asyncCount then DAddGe asyncCount
                   else DCallPublish asyncCount))
               s))
  | Dispatching h e (DAddGe asyncCount) =>
      c ← WaitGroup.Add asyncCount (GoEvent.wg (s_ge s));
      Ok (record (AAddGe h asyncCount)
            (set_main (Dispatching h e (DAddHandle asyncCount))
               (upd_ge (GoEvent.set_wg c) s)))
  | Dispatching h e (DAddHandle asyncCount) =>
      match s_heap s !! h with
      | Some dh =>
          c ← WaitGroup.Add asyncCount (DispatchHandle.wg dh);
          Ok (record (AAddHandle h asyncCount)
                (set_main (Dispatching h e (DCallPublish asyncCount))
                   (upd_handle h (DispatchHandle.set_wg c) s)))
      | None => Panic nil_dereference
      end
  | Dispatching h e (DCallPublish _) =>
      Ok (record (APublish h)
            (set_main
               (Dispatching h e
                  (DPublish (Bus.handlers (Name e) (GoEvent.bus (s_ge s)))
                     None))
               s))
  | Dispatching h e (DPublish todo (Some (l, p))) =>
      let '(s', q) := handler_step Caller l h e p s in
      Ok (set_main (Dispatching h e (DPublish todo (pair l <$> q))) s')
  | Dispatching h e (DPublish (sub :: todo) None) =>
      if Bus.sub_async sub then
        Ok (record (ASpawn h (length (s_gs s)) (Bus.sub_listener sub))
              (set_main (Dispatching h e (DPublish todo None))
                 (start_go (GoAsync (Bus.sub_listener sub) h e (AHandler HCall))
                    s)))
      else
        let '(s', q) := handler_step Caller (Bus.sub_listener sub) h e HCall s in
        Ok (set_main
              (Dispatching h e (DPublish todo (pair (Bus.sub_listener sub) <$> q)))
              s')
  | Dispatching h e (DPublish [] None) =>
      Ok (record (AReturn h)
            (set_main Idle (start_go (GoWatcher h WWait) s)))
  end.

(** The steps of an execution: a call of the interface by the program
    (possible when no call is in progress; [RegisterListener] touches
    the dispatcher only, [ClearErrors] is one assignment under the
    mutex, [Dispatch] begins by allocating its handle), one more
    operation of the call of [Dispatch] in progress, or one operation
    of a goroutine. *)
Inductive Step :=
| StRegister (listeners : list Listener.t)
| StClearErrors
| StDispatch (event : Event)
| StCaller
| StGo (i : nat).

Definition is_idle (s : State) : bool :=
  match s_main s with Idle => true | Dispatching _ _ _ => false end.

Definition register (listeners : list Listener.t) (g : GoEvent.t)
    : GoEvent.t :=
  ge (RegisterListener listeners
        {| ge := g; heap := []; pool := []; trace := [] |}).

Definition step (st : Step) (s : State) : Outcome State :=
  match st with
  | StRegister ls =>
      if is_idle s then Ok (upd_ge (register ls) s) else Blocked
  | StClearErrors =>
      if is_idle s
      then Ok (record (AClear (GoEvent.errors (s_ge s)))
                 (upd_ge GoEvent.ClearErrors s))
      else Blocked
  | StDispatch e =>
      if is_idle s
      then Ok {| s_ge := s_ge s;
                 s_heap := s_heap s ++
                   [{| DispatchHandle.wg := 0; DispatchHandle.errors := [];
                       DispatchHandle.done := false |}];
                 s_gs := s_gs s;
                 s_main := Dispatching (length (s_heap s)) e DRead;
                 s_hist := s_hist s ++ [ADispatch (length (s_heap s)) e] |}
      else Blocked
  | StCaller => caller_step s
  | StGo i => go_step i s
  end.

Fixpoint steps (sts : list Step) (s : State) : Outcome State :=
  match sts with
  | [] => Ok s
  | st :: rest => s' ← step st s; steps rest s'
  end.

(** The states of the program: those an execution reaches from
    [Start]. *)
Definition running (s : State) : Prop := ∃ sts, steps sts Start = Ok s.

Definition fits (s : State) : Prop :=
  Z.of_nat (length (GoEvent.bus (s_ge s))) <= int_max.

(** ** Counting the goroutines of a state *)

Definition go_handle (g : Goroutine) : nat :=
  match g with GoAsync _ h _ _ => h | GoWatcher h _ => h end.

(** An asynchronous call that has not yet made its [ge.wg.Done()]. *)
Definition ge_live (g : Goroutine) : bool :=
  match g with
  | GoAsync _ _ _ (AHandler _) | GoAsync _ _ _ AGeDone => true
  | _ => false
  end.

(** An asynchronous call of the dispatch of [h] that has not yet made
    its [handle.wg.Done()]. *)
Definition h_live (h : nat) (g : Goroutine) : bool :=
  match g with
  | GoAsync _ h' _ AExit => false
  | GoAsync _ h' _ _ => bool_decide (h' = h)
  | GoWatcher _ _ => false
  end.

(** The watcher of [h], as long as it has not closed the channel. *)
Definition watch_live (h : nat) (g : Goroutine) : bool :=
  match g with
  | GoWatcher h' WExit => false
  | GoWatcher h' _ => bool_decide (h' = h)
  | GoAsync _ _ _ _ => false
  end.

(** What the counters hold for goroutines that the call of [Dispatch]
    in progress has announced with [Add] and not started yet. *)
Definition announced (asyncCount : Z) : Z :=
  if 0 <? asyncCount then asyncCount else 0.
Definition credit_ge (m : Main) : Z :=
  match m with
  | Dispatching _ _ (DAddHandle n) => n
  | Dispatching _ _ (DCallPublish n) => announced n
  | Dispatching _ _ (DPublish todo _) => Z.of_nat (count_if Bus.sub_async todo)
  | _ => 0
  end.
Definition credit_h (h : nat) (m : Main) : Z :=
  match m with
  | Dispatching h' _ (DCallPublish n) => if decide (h' = h) then announced n else 0
  | Dispatching h' _ (DPublish todo _) =>
      if decide (h' = h) then Z.of_nat (count_if Bus.sub_async todo) else 0
  | _ => 0
  end.
Definition dispatching (h : nat) (m : Main) : bool :=
  match m with
  | Dispatching h' _ _ => bool_decide (h' = h)
  | Idle => false
  end.

(** What holds of the call of [Dispatch] in progress: its handle is
    allocated; before publishing no goroutine has been started for it
    and the count it read is the number of asynchronous handlers of the
    topic; an inline handler that is running has made its call. *)
Definition main_ok (s : State) : Prop :=
  match s_main s with
  | Idle => True
  | Dispatching h e pc =>
      (h < length (s_heap s))%nat ∧
      match pc with
      | DRead => Forall (fun g => go_handle g ≠ h) (s_gs s)
      | DAddGe n | DAddHandle n =>
          Forall (fun g => go_handle g ≠ h) (s_gs s) ∧ 0 < n ∧
          n = Z.of_nat (count_if Bus.sub_async
                          (Bus.handlers (Name e) (GoEvent.bus (s_ge s))))
      | DCallPublish n =>
          Forall (fun g => go_handle g ≠ h) (s_gs s) ∧
          n = Z.of_nat (count_if Bus.sub_async
                          (Bus.handlers (Name e) (GoEvent.bus (s_ge s))))
      | DPublish _ cur => ∀ l, cur ≠ Some (l, HCall)
      end
  end.

(** The invariant of the states of the program. *)
Record swf (s : State) : Prop := {
  swf_ge :
    GoEvent.wg (s_ge s) =
    Z.of_nat (count_if ge_live (s_gs s)) + credit_ge (s_main s);
  swf_handle : ∀ h dh, s_heap s !! h = Some dh →
    DispatchHandle.wg dh =
    Z.of_nat (count_if (h_live h) (s_gs s)) + credit_h h (s_main s);
  swf_counts : ∀ name,
    GoEvent.asyncCount name (s_ge s) =
    Z.of_nat (count_if Bus.sub_async (Bus.handlers name (GoEvent.bus (s_ge s))));
  swf_main : main_ok s;
  swf_gs : Forall (fun g => (go_handle g < length (s_heap s))%nat) (s_gs s);
  swf_done : ∀ h dh, s_heap s !! h = Some dh →
    (count_if (watch_live h) (s_gs s)
     + (if DispatchHandle.done dh then 1 else 0)
     + (if dispatching h (s_main s) then 1 else 0) = 1)%nat;
}.

(** ** The operations, as a relation

    [op s s']: the state [s'] comes from [s] by one operation. These
    are the operations [step] performs in the states of the program
    (lemma [step_op]). *)

(** What follows the call of [OnEvent] in [handler]. *)
Definition after_call (l : Listener.t) (e : Event) : option HPc :=
  HRecordHandle <$> failure l e.
Definition apc_of (q : option HPc) : APc :=
  match q with Some p => AHandler p | None => AGeDone end.
Definition closed_handle (dh : DispatchHandle.t) : DispatchHandle.t :=
  {| DispatchHandle.wg := DispatchHandle.wg dh;
     DispatchHandle.errors := DispatchHandle.errors dh;
     DispatchHandle.done := true |}.

Inductive op (s : State) : State → Prop :=
| op_register ls :
    s_main s = Idle →
    op s (upd_ge (register ls) s)
| op_clear :
    s_main s = Idle →
    op s (record (AClear (GoEvent.errors (s_ge s)))
            (upd_ge GoEvent.ClearErrors s))
| op_dispatch e :
    s_main s = Idle →
    op s {| s_ge := s_ge s;
            s_heap := s_heap s ++
              [{| DispatchHandle.wg := 0; DispatchHandle.errors := [];
                  DispatchHandle.done := false |}];
            s_gs := s_gs s;
            s_main := Dispatching (length (s_heap s)) e DRead;
            s_hist := s_hist s ++ [ADispatch (length (s_heap s)) e] |}
| op_read h e :
    s_main s = Dispatching h e DRead →
    op s (record (ARead h (GoEvent.asyncCount (Name e) (s_ge s)))
            (set_main
               (Dispatching h e
                  (if 0 <? GoEvent.asyncCount (Name e) (s_ge s)
                   then DAddGe (GoEvent.asyncCount (Name e) (s_ge s))
                   else DCallPublish (GoEvent.asyncCount (Name e) (s_ge s))))
               s))
| op_add_ge h e n :
    s_main s = Dispatching h e (DAddGe n) →
    op s (record (AAddGe h n)
            (set_main (Dispatching h e (DAddHandle n))
               (upd_ge (GoEvent.set_wg (GoEvent.wg (s_ge s) + n)) s)))
| op_add_handle h e n dh :
    s_main s = Dispatching h e (DAddHandle n) →
    s_heap s !! h = Some dh →
    op s (record (AAddHandle h n)
            (set_main (Dispatching h e (DCallPublish n))
               (upd_handle h
                  (DispatchHandle.set_wg (DispatchHandle.wg dh + n)) s)))
| op_publish h e n :
    s_main s = Dispatching h e (DCallPublish n) →
    op s (record (APublish h)
            (set_main
               (Dispatching h e
                  (DPublish (Bus.handlers (Name e) (GoEvent.bus (s_ge s)))
                     None))
               s))
| op_spawn h e sub todo :
    s_main s = Dispatching h e (DPublish (sub :: todo) None) →
    Bus.sub_async sub = true →
    op s (record (ASpawn h (length (s_gs s)) (Bus.sub_listener sub))
            (set_main (Dispatching h e (DPublish todo None))
               (start_go (GoAsync (Bus.sub_listener sub) h e (AHandler HCall))
                  s)))
| op_call_inline h e sub todo :
    s_main s = Dispatching h e (DPublish (sub :: todo) None) →
    Bus.sub_async sub = false →
    op s (set_main
            (Dispatching h e
               (DPublish todo
                  (pair (Bus.sub_listener sub) <$>
                   after_call (Bus.sub_listener sub) e)))
            (record (ACall Caller h (Bus.sub_listener sub) e) s))
| op_record_handle_inline h e todo l ee :
    s_main s = Dispatching h e (DPublish todo (Some (l, HRecordHandle ee))) →
    op s (set_main
            (Dispatching h e (DPublish todo (Some (l, HRecordGlobal ee))))
            (record (ARecordHandle Caller h ee)
               (upd_handle h (DispatchHandle.recordError ee) s)))
| op_record_global_inline h e todo l ee :
    s_main s = Dispatching h e (DPublish todo (Some (l, HRecordGlobal ee))) →
    op s (set_main (Dispatching h e (DPublish todo None))
            (record (ARecordGlobal Caller h ee)
               (upd_ge (GoEvent.recordError ee) s)))
| op_return h e :
    s_main s = Dispatching h e (DPublish [] None) →
    op s (record (AReturn h)
            (set_main Idle (start_go (GoWatcher h WWait) s)))
| op_call i l h e :
    s_gs s !! i = Some (GoAsync l h e (AHandler HCall)) →
    op s (set_go i (GoAsync l h e (apc_of (after_call l e)))
            (record (ACall (Started i) h l e) s))
| op_record_handle i l h e ee :
    s_gs s !! i = Some (GoAsync l h e (AHandler (HRecordHandle ee))) →
    op s (set_go i (GoAsync l h e (AHandler (HRecordGlobal ee)))
            (record (ARecordHandle (Started i) h ee)
               (upd_handle h (DispatchHandle.recordError ee) s)))
| op_record_global i l h e ee :
    s_gs s !! i = Some (GoAsync l h e (AHandler (HRecordGlobal ee))) →
    op s (set_go i (GoAsync l h e AGeDone)
            (record (ARecordGlobal (Started i) h ee)
               (upd_ge (GoEvent.recordError ee) s)))
| op_done_ge i l h e :
    s_gs s !! i = Some (GoAsync l h e AGeDone) →
    op s (record (ADoneGe i h)
            (set_go i (GoAsync l h e AHandleDone)
               (upd_ge (GoEvent.set_wg (GoEvent.wg (s_ge s) - 1)) s)))
| op_done_handle i l h e dh :
    s_gs s !! i = Some (GoAsync l h e AHandleDone) →
    s_heap s !! h = Some dh →
    op s (record (ADoneHandle i h)
            (set_go i (GoAsync l h e AExit)
               (upd_handle h
                  (DispatchHandle.set_wg (DispatchHandle.wg dh - 1)) s)))
| op_wait i h dh :
    s_gs s !! i = Some (GoWatcher h WWait) →
    s_heap s !! h = Some dh →
    DispatchHandle.wg dh = 0 →
    op s (set_go i (GoWatcher h WMarkDone) s)
| op_close i h dh :
    s_gs s !! i = Some (GoWatcher h WMarkDone) →
    s_heap s !! h = Some dh →
    DispatchHandle.done dh = false →
    op s (record (AClose h)
            (set_go i (GoWatcher h WExit)
               (upd_handle h (fun _ => closed_handle dh) s))).

(** ** Reading the history *)

(** The handle an operation was made for, and the goroutine that made
    it or was started by it. *)
Definition act_handle (a : Action) : option nat :=
  match a with
  | ADispatch h _ | ARead h _ | AAddGe h _ | AAddHandle h _ | APublish h
  | ASpawn h _ _ | ACall _ h _ _ | ARecordHandle _ h _ | ARecordGlobal _ h _
  | ADoneGe _ h | ADoneHandle _ h | AClose h | AReturn h => Some h
  | AClear _ => None
  end.
Definition actor_go (a : Actor) : option nat :=
  match a with Caller => None | Started i => Some i end.
Definition act_go (a : Action) : option nat :=
  match a with
  | ASpawn _ i _ | ADoneGe i _ | ADoneHandle i _ => Some i
  | ACall a _ _ _ | ARecordHandle a _ _ | ARecordGlobal a _ _ => actor_go a
  | _ => None
  end.

(** The history mentions only handles that are allocated and
    goroutines that have been started. *)
Definition hist_ok (s : State) : Prop :=
  Forall (fun a =>
            (∀ h, act_handle a = Some h → (h < length (s_heap s))%nat) ∧
            (∀ i, act_go a = Some i → (i < length (s_gs s))%nat))
         (s_hist s).

(** The operations of the call of [Dispatch] for handle [h] that come
    before its deliveries: the call itself, the read of the table, the
    two [Add]s and the call of [Publish]. *)
Definition is_prelude (h : nat) (a : Action) : bool :=
  match a with
  | ADispatch h' _ | ARead h' _ | AAddGe h' _ | AAddHandle h' _
  | APublish h' => bool_decide (h' = h)
  | _ => false
  end.
Definition prelude (h : nat) (hist : list Action) : list Action :=
  List.filter (is_prelude h) hist.

(** The deliveries of the dispatch of [h]: a goroutine started for an
    asynchronous handler, a call of [OnEvent]. *)
Definition is_delivery (h : nat) (a : Action) : bool :=
  match a with
  | ASpawn h' _ _ | ACall _ h' _ _ => bool_decide (h' = h)
  | _ => false
  end.

(** What [Dispatch] does to the counters for a count [n] it has read:
    with a positive count the global counter is raised, then the
    handle's; otherwise neither is touched. *)
Definition adds (h : nat) (n : Z) : list Action :=
  if 0 <? n then [AAddGe h n; AAddHandle h n] else [].

(** The prelude of the call in progress, by where the call is. *)
Definition prelude_at (h : nat) (e : Event) (pc : DPc) (hist : list Action)
    : Prop :=
  match pc with
  | DRead => prelude h hist = [ADispatch h e]
  | DAddGe n => prelude h hist = [ADispatch h e; ARead h n]
  | DAddHandle n => prelude h hist = [ADispatch h e; ARead h n; AAddGe h n]
  | DCallPublish n => prelude h hist = [ADispatch h e; ARead h n] ++ adds h n
  | DPublish _ _ =>
      ∃ n, prelude h hist =
           [ADispatch h e; ARead h n] ++ adds h n ++ [APublish h]
  end.

(** The invariant of the history for the beginning of a dispatch: the
    prelude of the call in progress is as far as the call is; a handle
    that has been published, or has a delivery, has its whole prelude
    in the history, and its deliveries after it. *)
Record prelude_ok (s : State) : Prop := {
  pre_main : ∀ h e pc, s_main s = Dispatching h e pc →
    prelude_at h e pc (s_hist s);
  pre_published : ∀ h, In (APublish h) (s_hist s) →
    ∃ e n, prelude h (s_hist s) =
           [ADispatch h e; ARead h n] ++ adds h n ++ [APublish h];
  pre_deliveries : ∀ h t1 a t2, s_hist s = t1 ++ a :: t2 →
    is_delivery h a = true → In (APublish h) t1;
  pre_go : ∀ i g, s_gs s !! i = Some g →
    In (APublish (go_handle g)) (s_hist s);
}.

(** The operations of goroutine [i]. *)
Definition by_go (i : nat) (a : Action) : bool :=
  match a with
  | ACall (Started j) _ _ _ | ARecordHandle (Started j) _ _
  | ARecordGlobal (Started j) _ _ | ADoneGe j _ | ADoneHandle j _ =>
      bool_decide (j = i)
  | _ => false
  end.
Definition thread (i : nat) (hist : list Action) : list Action :=
  List.filter (by_go i) hist.

(** The two appends of [handler] after a call that failed. *)
Definition records (a : Actor) (h : nat) (failed : option EventError)
    : list Action :=
  match failed with
  | Some ee => [ARecordHandle a h ee; ARecordGlobal a h ee]
  | None => []
  end.

(** What a run of [asyncHandler] for listener [l], handle [h] and
    event [e] on goroutine [i] has done when it is at [pc]: the call of
    [OnEvent]; if it failed, the append to the handle's log and then
    the append to the global log; then [ge.wg.Done()]; then
    [handle.wg.Done()]. *)
Definition script (i : nat) (l : Listener.t) (h : nat) (e : Event) (pc : APc)
    : list Action :=
  match pc with
  | AHandler HCall => []
  | AHandler (HRecordHandle ee) => [ACall (Started i) h l e]
  | AHandler (HRecordGlobal ee) =>
      [ACall (Started i) h l e; ARecordHandle (Started i) h ee]
  | AGeDone =>
      ACall (Started i) h l e :: records (Started i) h (failure l e)
  | AHandleDone =>
      ACall (Started i) h l e :: records (Started i) h (failure l e)
        ++ [ADoneGe i h]
  | AExit =>
      ACall (Started i) h l e :: records (Started i) h (failure l e)
        ++ [ADoneGe i h; ADoneHandle i h]
  end.

(** The error a run of [handler] holds is the one its call produced. *)
Definition hpc_ok (l : Listener.t) (e : Event) (p : HPc) : Prop :=
  match p with
  | HCall => True
  | HRecordHandle ee | HRecordGlobal ee => failure l e = Some ee
  end.
Definition apc_ok (l : Listener.t) (e : Event) (pc : APc) : Prop :=
  match pc with AHandler p => hpc_ok l e p | _ => True end.

(** The invariant of the history for the goroutines: an asynchronous
    call has done what its place says, a watcher and a goroutine not
    yet started nothing of this. *)
Definition thread_ok (s : State) (i : nat) : Prop :=
  match s_gs s !! i with
  | Some (GoAsync l h e pc) =>
      thread i (s_hist s) = script i l h e pc ∧ apc_ok l e pc
  | Some (GoWatcher _ _) | None => thread i (s_hist s) = []
  end.

(** How far a run of [asyncHandler] is from its end. *)
Definition rank (pc : APc) : nat :=
  match pc with
  | AHandler HCall => 5
  | AHandler (HRecordHandle _) => 4
  | AHandler (HRecordGlobal _) => 3
  | AGeDone => 2
  | AHandleDone => 1
  | AExit => 0
  end.

(** ** The logs and the history *)

#[global] Instance error_eq_dec : EqDecision error.
Proof. solve_decision. Defined.
#[global] Instance EventError_eq_dec : EqDecision EventError.
Proof. solve_decision. Defined.

(** The errors appended to the log of handle [h], in the order of the
    appends. *)
Definition recorded_on (h : nat) (a : Action) : option EventError :=
  match a with
  | ARecordHandle _ h' ee => if decide (h' = h) then Some ee else None
  | _ => None
  end.
Definition handle_records (h : nat) (hist : list Action) : list EventError :=
  omap (recorded_on h) hist.

(** The errors appended to the global log since it was last emptied,
    in the order of the appends. *)
Definition global_step (log : list EventError) (a : Action)
    : list EventError :=
  match a with
  | ARecordGlobal _ _ ee => log ++ [ee]
  | AClear _ => []
  | _ => log
  end.
Definition global_records (hist : list Action) : list EventError :=
  fold_left global_step hist [].

(** The errors [ClearErrors] removed from the global log. *)
Definition cleared (a : Action) : list EventError :=
  match a with AClear removed => removed | _ => [] end.
Definition removed (hist : list Action) : list EventError :=
  concat (map cleared hist).

(** The errors produced by the calls of [OnEvent] made with handle
    [h], in the order of the calls. *)
Definition failed_call (h : nat) (a : Action) : option EventError :=
  match a with
  | ACall _ h' l e => if decide (h' = h) then failure l e else None
  | _ => None
  end.
Definition call_failures (h : nat) (hist : list Action) : list EventError :=
  omap (failed_call h) hist.

(** The errors of calls made with handle [h] whose adapter has not yet
    appended them to the handle's log. *)
Definition pending_hpc (p : HPc) : option EventError :=
  match p with HRecordHandle ee => Some ee | _ => None end.
Definition pending_go (h : nat) (g : Goroutine) : option EventError :=
  match g with
  | GoAsync _ h' _ (AHandler p) =>
      if decide (h' = h) then pending_hpc p else None
  | _ => None
  end.
Definition pending_main (h : nat) (m : Main) : list EventError :=
  match m with
  | Dispatching h' _ (DPublish _ (Some (_, p))) =>
      if decide (h' = h) then option_list (pending_hpc p) else []
  | _ => []
  end.
Definition pending (h : nat) (s : State) : list EventError :=
  pending_main h (s_main s) ++ omap (pending_go h) (s_gs s).

(** The errors that are in a handle's log and that their adapter has
    not yet appended to the global log. *)
Definition inflight_hpc (p : HPc) : option EventError :=
  match p with HRecordGlobal ee => Some ee | _ => None end.
Definition inflight_go (g : Goroutine) : option EventError :=
  match g with
  | GoAsync _ _ _ (AHandler p) => inflight_hpc p
  | _ => None
  end.
Definition inflight_main (m : Main) : list EventError :=
  match m with
  | Dispatching _ _ (DPublish _ (Some (_, p))) => option_list (inflight_hpc p)
  | _ => []
  end.
Definition inflight (s : State) : list EventError :=
  inflight_main (s_main s) ++ omap inflight_go (s_gs s).

(** The logs of all handles, one after another. *)
Definition handle_logs (heap : list DispatchHandle.t) : list EventError :=
  concat (map DispatchHandle.errors heap).

(** The invariant of the logs. The counts are over any property [p] of
    errors. *)
Record logs_fine (s : State) : Prop := {
  lf_handle : ∀ h dh, s_heap s !! h = Some dh →
    DispatchHandle.errors dh = handle_records h (s_hist s);
  lf_global : GoEvent.errors (s_ge s) = global_records (s_hist s);
  lf_calls : ∀ (p : EventError → bool) h,
    count_if p (call_failures h (s_hist s)) =
    (count_if p (handle_records h (s_hist s)) + count_if p (pending h s))%nat;
  lf_all : ∀ p : EventError → bool,
    count_if p (handle_logs (s_heap s)) =
    (count_if p (removed (s_hist s)) + count_if p (GoEvent.errors (s_ge s))
     + count_if p (inflight s))%nat;
}.

(** ** What publishing has done *)

(** The operations of the goroutine that called [Dispatch] inside the
    inline handlers of the dispatch of [h]. *)
Definition by_caller (h : nat) (a : Action) : bool :=
  match a with
  | ACall Caller h' _ _ | ARecordHandle Caller h' _
  | ARecordGlobal Caller h' _ => bool_decide (h' = h)
  | _ => false
  end.
Definition inline (h : nat) (hist : list Action) : list Action :=
  List.filter (by_caller h) hist.

(** The listeners for which the dispatch of [h] started a goroutine,
    in the order of the starts. *)
Definition spawn_of (h : nat) (a : Action) : option Listener.t :=
  match a with
  | ASpawn h' _ l => if decide (h' = h) then Some l else None
  | _ => None
  end.
Definition spawned (h : nat) (hist : list Action) : list Listener.t :=
  omap (spawn_of h) hist.

(** What an inline handler does, from its call to its return. *)
Definition inline_script (h : nat) (e : Event) (sub : Bus.Subscription)
    : list Action :=
  ACall Caller h (Bus.sub_listener sub) e
    :: records Caller h (failure (Bus.sub_listener sub) e).

(** What is left to do of the inline handler that is running. *)
Definition rest (h : nat) (cur : option (Listener.t * HPc)) : list Action :=
  match cur with
  | Some (_, HRecordHandle ee) =>
      [ARecordHandle Caller h ee; ARecordGlobal Caller h ee]
  | Some (_, HRecordGlobal ee) => [ARecordGlobal Caller h ee]
  | _ => []
  end.

(** The invariant of publishing: before [Publish] is called the
    dispatch has delivered nothing; then the handlers of the topic are
    those served followed by those still to be served; the inline
    handlers served have run in that order, the last one possibly still
    running; the asynchronous handlers served have their goroutines,
    started in that order. *)
Definition publishing_at (s : State) (h : nat) (e : Event) (pc : DPc)
    : Prop :=
  match pc with
  | DPublish todo cur =>
      ∃ served,
        Bus.handlers (Name e) (GoEvent.bus (s_ge s)) = served ++ todo ∧
        inline h (s_hist s) ++ rest h cur =
          flat_map (inline_script h e) (List.filter is_sync served) ∧
        spawned h (s_hist s) =
          map Bus.sub_listener (List.filter Bus.sub_async served)
  | _ => inline h (s_hist s) = [] ∧ spawned h (s_hist s) = []
  end.
Definition publishing_ok (s : State) : Prop :=
  ∀ h e pc, s_main s = Dispatching h e pc → publishing_at s h e pc.

(** The calls are those of the dispatch: a goroutine of an
    asynchronous call, and a call of [OnEvent] in the history, is for
    the event that was dispatched with its handle and for a listener
    subscribed to the name of that event. *)
Definition subscribed (l : Listener.t) (e : Event) (async : bool)
    (b : list Bus.Subscription) : Prop :=
  ∃ sub, In sub (Bus.handlers (Name e) b) ∧ Bus.sub_listener sub = l ∧
         Bus.sub_async sub = async.
Definition is_started (a : Actor) : bool :=
  match a with Caller => false | Started _ => true end.
Record calls_ok (s : State) : Prop := {
  co_go : ∀ i l h e pc, s_gs s !! i = Some (GoAsync l h e pc) →
    In (ADispatch h e) (s_hist s) ∧
    subscribed l e true (GoEvent.bus (s_ge s));
  co_call : ∀ a h l e, In (ACall a h l e) (s_hist s) →
    In (ADispatch h e) (s_hist s) ∧
    subscribed l e (is_started a) (GoEvent.bus (s_ge s));
  co_main : ∀ h e pc, s_main s = Dispatching h e pc →
    In (ADispatch h e) (s_hist s);
  co_dispatch : ∀ h e e', In (ADispatch h e) (s_hist s) →
    In (ADispatch h e') (s_hist s) → e = e';
}.

(** ** Executions used as examples *)

(** The listeners an execution has registered, in order. *)
Definition registered_by (sts : list Step) : list Listener.t :=
  flat_map (fun st => match st with StRegister ls => ls | _ => [] end) sts.

(** The state an execution ends in. *)
Definition after (sts : list Step) : State :=
  match steps sts Start with Ok s => s | _ => Start end.

(** The record the failing inline listener produces. *)
Definition test_error : EventError :=
  {| EventName := "test.event";
     ListenerType := "*goevent.testErrorListener";
     Err := {| error_ref := 1; error_msg := "test error" |} |}.

(** A failing asynchronous listener is registered before a failing
    inline one and an event is dispatched: the call of [Dispatch] has
    read the count and made the two [Add]s, and is about to call
    [Publish]. *)
Definition sched_publishing : list Step :=
  [StRegister [testAsyncErrorListener; testErrorListener];
   StDispatch (testEvent "x"); StCaller; StCaller; StCaller].
Definition s_publishing : State := after sched_publishing.

(** The same execution, continued. [Publish] is called and starts the
    goroutine of the asynchronous handler; the goroutine runs at once,
    calls [OnEvent] and appends its error to the handle's log;
    [Dispatch] goes on, the inline handler calls [OnEvent] and appends
    its error to the handle's log and to the global log; only then the
    goroutine appends its error to the global log. [Dispatch] is about
    to start the watcher and return. *)
Definition sched_interleaved : list Step :=
  sched_publishing ++
  [StCaller; StCaller; StGo 0; StGo 0; StCaller; StCaller; StCaller; StGo 0].
Definition s_interleaved : State := after sched_interleaved.

(** ** The watcher of a handle *)

(** The watcher of [h], whatever its place; the watcher of [h] once its
    [handle.wg.Wait()] has returned. *)
Definition is_watcher_of (h : nat) (g : Goroutine) : bool :=
  match g with
  | GoWatcher h' _ => bool_decide (h' = h)
  | GoAsync _ _ _ _ => false
  end.
Definition past_wait (h : nat) (g : Goroutine) : bool :=
  match g with
  | GoWatcher h' WWait => false
  | GoWatcher h' _ => bool_decide (h' = h)
  | GoAsync _ _ _ _ => false
  end.

(** The invariant of the watchers: a handle has a watcher only when
    its call of [Dispatch] has returned, and once the watcher's [Wait]
    has returned, or the channel is closed, the handle's counter is
    zero. *)
Definition watchers_ok (s : State) : Prop :=
  ∀ h dh, s_heap s !! h = Some dh →
    ((0 < count_if (is_watcher_of h) (s_gs s))%nat →
       dispatching h (s_main s) = false) ∧
    ((0 < count_if (past_wait h) (s_gs s))%nat ∨ DispatchHandle.done dh = true →
       DispatchHandle.wg dh = 0).

(** The same execution to its end: [Dispatch] starts the watcher and
    returns, the goroutine of the asynchronous handler makes its two
    [Done]s, the watcher's [Wait] returns and it closes the channel. *)
Definition sched_closed : list Step :=
  sched_interleaved ++ [StCaller; StGo 0; StGo 0; StGo 1; StGo 1].
Definition s_closed : State := after sched_closed.

(** * Properties *)

(** ** Arithmetic and counting *)

Lemma wrap_int_small z : - 2 ^ 63 <= z <= int_max → wrap_int z = z.
Proof.
  unfold wrap_int, int_max. intros H.
  rewrite Z.mod_small; lia.
Qed.

Lemma count_if_app {A} (p : A -> bool) (l1 l2 : list A) :
  count_if p (l1 ++ l2) = (count_if p l1 + count_if p l2)%nat.
Proof. induction l1 as [|x l1 IH]; simpl; [done | rewrite IH; lia]. Qed.

Lemma count_if_le_length {A} (p : A -> bool) (l : list A) :
  (count_if p l <= length l)%nat.
Proof. induction l as [|x l IH]; simpl; [lia | destruct (p x); lia]. Qed.

Lemma count_if_delete {A} (p : A -> bool) (l : list A) i x :
  l !! i = Some x →
  count_if p l = ((if p x then 1 else 0) + count_if p (delete i l))%nat.
Proof.
  revert i. induction l as [|y l IH]; intros [|i] H; simplify_eq/=; [done |].
  rewrite (IH i H). lia.
Qed.

Lemma count_if_map {A B} (p : B -> bool) (f : A -> B) (l : list A) :
  count_if p (map f l) = count_if (fun a => p (f a)) l.
Proof. induction l as [|x l IH]; simpl; [done | by rewrite IH]. Qed.

Lemma count_if_true {A} (p : A -> bool) (l : list A) :
  (∀ x, p x = true) → count_if p l = length l.
Proof. intros H. induction l as [|x l IH]; simpl; [done | rewrite H, IH; lia]. Qed.

Lemma count_if_false {A} (p : A -> bool) (l : list A) :
  Forall (fun x => p x = false) l → count_if p l = 0%nat.
Proof. induction 1 as [|x l Hx _ IH]; simpl; [done | by rewrite Hx, IH]. Qed.

Lemma count_if_map_true {A B} (p : B -> bool) (f : A -> B) (l : list A) :
  (∀ a, p (f a) = true) → count_if p (map f l) = length l.
Proof. intros H. rewrite count_if_map. by apply count_if_true. Qed.

Lemma count_if_map_false {A B} (p : B -> bool) (f : A -> B) (l : list A) :
  (∀ a, p (f a) = false) → count_if p (map f l) = 0%nat.
Proof.
  intros H. rewrite count_if_map. apply count_if_false.
  apply Forall_forall. auto.
Qed.


Lemma count_if_pos_lookup {A} (p : A -> bool) (l : list A) :
  (0 < count_if p l)%nat → ∃ i x, l !! i = Some x ∧ p x = true.
Proof.
  induction l as [|y l IH]; simpl; [lia |].
  destruct (p y) eqn:E.
  - intros _. by exists 0%nat, y.
  - intros H. destruct (IH H) as (i & x & Hi & Hx). by exists (S i), x.
Qed.

(** ** The adapter closures *)

Lemma add_errors_nil dh : add_errors [] dh = dh.
Proof. destruct dh. unfold add_errors. simpl. by rewrite app_nil_r. Qed.

Lemma ge_add_errors_nil g : ge_add_errors [] g = g.
Proof. destruct g. unfold ge_add_errors. simpl. by rewrite app_nil_r. Qed.

Lemma add_errors_add_errors fs1 fs2 dh :
  add_errors fs2 (add_errors fs1 dh) = add_errors (fs1 ++ fs2) dh.
Proof. unfold add_errors. simpl. by rewrite app_assoc. Qed.

Lemma ge_add_errors_add_errors fs1 fs2 g :
  ge_add_errors fs2 (ge_add_errors fs1 g) = ge_add_errors (fs1 ++ fs2) g.
Proof. unfold ge_add_errors. simpl. by rewrite app_assoc. Qed.

(** [handler] on a handle followed by an event: one call of [OnEvent],
    and its failure, if any, at the end of both logs. *)
Lemma handler_valid l h e rest w :
  handler l (ArgHandle h :: ArgEvent e :: rest) w =
  {| ge := ge_add_errors (option_list (failure l e)) (ge w);
     heap := alter (add_errors (option_list (failure l e))) h (heap w);
     pool := pool w;
     trace := trace w ++ [Invoked h l e] |}.
Proof.
  unfold handler, failure. simpl.
  destruct (Listener.OnEvent l e) as [err|]; simpl.
  - reflexivity.
  - unfold with_trace. f_equal.
    + by rewrite ge_add_errors_nil.
    + symmetry. apply list_alter_id, add_errors_nil.
Qed.

(** [handler] on any other argument list returns at once. *)
Lemma handler_invalid l args w :
  (∀ h e rest, args ≠ ArgHandle h :: ArgEvent e :: rest) →
  handler l args w = w.
Proof.
  intros H. unfold handler.
  destruct args as [|a0 [|a1 rest]]; try done.
  destruct a0 as [h| |]; simpl; try done.
  destruct a1 as [|e|]; simpl; try done.
  by destruct (H h e rest).
Qed.

Lemma publish_fold subs h e w :
  fold_left (deliver [ArgHandle h; ArgEvent e]) subs w = published h e subs w.
Proof.
  revert w. induction subs as [|s subs IH]; intros w.
  - unfold published. simpl. destruct w as [g hp p t]; simpl.
    rewrite ge_add_errors_nil, !app_nil_r. f_equal.
    symmetry. apply list_alter_id, add_errors_nil.
  - cbn [fold_left]. rewrite IH. unfold deliver.
    destruct (Bus.sub_async s) eqn:Ha.
    + unfold published, sync_failures, is_sync. simpl. rewrite Ha. simpl.
      by rewrite <- app_assoc.
    + rewrite handler_valid.
      unfold published, sync_failures, is_sync. simpl. rewrite Ha. simpl.
      rewrite ge_add_errors_add_errors, list_alter_alter_eq, <- !app_assoc.
      simpl. f_equal.
      * by destruct (failure (Bus.sub_listener s) e).
      * apply list_alter_ext; [|done]. intros dh _. simpl.
        rewrite add_errors_add_errors. by destruct (failure (Bus.sub_listener s) e).
Qed.

Lemma Publish_spec h e w :
  Publish (Name e) [ArgHandle h; ArgEvent e] w =
  published h e (Bus.handlers (Name e) (GoEvent.bus (ge w))) w.
Proof. apply publish_fold. Qed.

(** ** Dispatch and the goroutines, as state equations *)

Lemma ge_wg_Add_ok d w :
  0 <= GoEvent.wg (ge w) + d →
  ge_wg_Add d w = Ok (with_ge (GoEvent.set_wg (GoEvent.wg (ge w) + d)) w).
Proof.
  intros H. unfold ge_wg_Add, WaitGroup.Add.
  destruct (GoEvent.wg (ge w) + d <? 0) eqn:E; [apply Z.ltb_lt in E; lia | done].
Qed.

Lemma handle_wg_Add_ok h d dh w :
  heap w !! h = Some dh →
  0 <= DispatchHandle.wg dh + d →
  handle_wg_Add h d w =
  Ok (with_handle h (DispatchHandle.set_wg (DispatchHandle.wg dh + d)) w).
Proof.
  intros Hh H. unfold handle_wg_Add, WaitGroup.Add. rewrite Hh.
  destruct (DispatchHandle.wg dh + d <? 0) eqn:E; [apply Z.ltb_lt in E; lia | done].
Qed.

Lemma Dispatch_spec e w :
  0 <= GoEvent.wg (ge w) →
  Dispatch e w = Ok (length (heap w), dispatched e w).
Proof.
  intros Hwg. unfold Dispatch, dispatched, prepared, added.
  replace (ge (alloc _ w)) with (ge w) by done.
  destruct (0 <? GoEvent.asyncCount (Name e) (ge w)) eqn:Hc.
  - apply Z.ltb_lt in Hc.
    rewrite ge_wg_Add_ok by (simpl; lia).
    cbn [mbind Outcome_bind].
    erewrite handle_wg_Add_ok;
      [|simpl; by apply list_lookup_middle|simpl; lia].
    cbn [mbind Outcome_bind]. do 4 f_equal.
    unfold with_handle, with_ge, alloc. cbn [ge heap pool trace]. f_equal.
    rewrite <- (Nat.add_0_r (length (heap w))) at 1.
    by rewrite alter_app_r.
  - cbn [mbind Outcome_bind]. do 4 f_equal.
    rewrite Z.add_0_r. by destruct w as [[] ? ? ?].
Qed.

Lemma go_call_spec i l h e dh w :
  pool w !! i = Some (AsyncCall l [ArgHandle h; ArgEvent e]) →
  heap w !! h = Some dh →
  1 <= GoEvent.wg (ge w) → 1 <= DispatchHandle.wg dh →
  go i w = Ok (completed l h e (with_pool (delete i) w)).
Proof.
  intros Hi Hh Hg Hd. unfold go. rewrite Hi.
  unfold asyncHandler. rewrite handler_valid.
  unfold ge_wg_Done. rewrite ge_wg_Add_ok by (simpl; lia).
  cbn [mbind Outcome_bind as_handle].
  unfold handle_wg_Done.
  erewrite handle_wg_Add_ok;
    [|simpl; rewrite list_lookup_alter_eq, Hh; done|simpl; lia].
  f_equal.
  unfold completed, with_handle, with_ge, with_pool.
  cbn [ge heap pool trace]. f_equal.
  rewrite list_alter_alter_eq.
  apply list_alter_ext; [|done]. intros dh' Hdh'. by simplify_eq.
Qed.

Lemma go_watcher_spec i h dh w :
  pool w !! i = Some (Watcher h) →
  heap w !! h = Some dh →
  DispatchHandle.wg dh = 0 → DispatchHandle.done dh = false →
  go i w = Ok (closed h (with_pool (delete i) w)).
Proof.
  intros Hi Hh Hwg Hd. unfold go. rewrite Hi.
  unfold watcher. cbn [heap with_pool]. rewrite Hh.
  unfold DispatchHandle.Wait, WaitGroup.Wait, DispatchHandle.markDone.
  rewrite Hwg, Hd. cbn [Z.eqb mbind Outcome_bind]. f_equal.
  unfold closed, with_handle. cbn [ge heap pool trace with_pool]. f_equal.
  apply list_alter_ext; [|done]. intros dh' Hdh'.
  rewrite Hh in Hdh'. injection Hdh' as <-. by rewrite Hwg.
Qed.

(** A watcher whose handle still counts outstanding calls is blocked. *)
Lemma go_watcher_blocked i h dh w :
  pool w !! i = Some (Watcher h) →
  heap w !! h = Some dh →
  DispatchHandle.wg dh ≠ 0 →
  go i w = Blocked.
Proof.
  intros Hi Hh Hwg. unfold go. rewrite Hi.
  unfold watcher. cbn [heap with_pool]. rewrite Hh.
  unfold DispatchHandle.Wait, WaitGroup.Wait.
  destruct (DispatchHandle.wg dh =? 0) eqn:E; [apply Z.eqb_eq in E; lia | done].
Qed.

(** ** The history functions *)

Lemma failures_for_app h t1 t2 :
  failures_for h (t1 ++ t2) = failures_for h t1 ++ failures_for h t2.
Proof. apply omap_app. Qed.

Lemma all_failures_app t1 t2 :
  all_failures (t1 ++ t2) = all_failures t1 ++ all_failures t2.
Proof. apply omap_app. Qed.

Lemma since_clear_snoc t it :
  since_clear (t ++ [it]) =
  match it with Invoked _ _ _ => since_clear t ++ [it] | Cleared => [] end.
Proof. unfold since_clear. by rewrite fold_left_app. Qed.

Lemma since_clear_invoked t h e (ls : list Listener.t) :
  since_clear (t ++ map (fun l => Invoked h l e) ls) =
  since_clear t ++ map (fun l => Invoked h l e) ls.
Proof.
  revert t. induction ls as [|l ls IH]; intros t; simpl.
  - by rewrite !app_nil_r.
  - rewrite (cons_middle _ t), app_assoc, IH, since_clear_snoc.
    by rewrite <- app_assoc.
Qed.

Lemma failures_for_fresh n h t :
  Forall (item_ok n) t → (n <= h)%nat → failures_for h t = [].
Proof.
  intros Ht Hn. induction Ht as [|it t Hit _ IH]; [done |].
  change (it :: t) with ([it] ++ t).
  rewrite failures_for_app, IH, app_nil_r.
  destruct it as [h' l e|]; [|done]. simpl in Hit.
  unfold failures_for. simpl. by rewrite decide_False by lia.
Qed.

Lemma failures_for_published h e subs :
  failures_for h (map (fun s => Invoked h (Bus.sub_listener s) e)
                      (List.filter is_sync subs)) = sync_failures e subs.
Proof.
  unfold failures_for, sync_failures, is_sync.
  induction subs as [|s subs IH]; [done |]. simpl.
  destruct (Bus.sub_async s); simpl; [done |].
  rewrite decide_True by done.
  destruct (failure (Bus.sub_listener s) e); [f_equal |]; exact IH.
Qed.

Lemma failures_for_published_ne h h' e (subs : list Bus.Subscription) :
  h ≠ h' →
  failures_for h' (map (fun s => Invoked h (Bus.sub_listener s) e) subs) = [].
Proof.
  intros Hne. unfold failures_for.
  induction subs as [|s subs IH]; [done |]. simpl.
  rewrite decide_False by done. exact IH.
Qed.

Lemma all_failures_published h e subs :
  all_failures (map (fun s => Invoked h (Bus.sub_listener s) e)
                    (List.filter is_sync subs)) = sync_failures e subs.
Proof.
  unfold all_failures, sync_failures, is_sync.
  induction subs as [|s subs IH]; [done |]. simpl.
  destruct (Bus.sub_async s); simpl; [done |].
  destruct (failure (Bus.sub_listener s) e); [f_equal |]; exact IH.
Qed.

Lemma since_clear_published t h e (subs : list Bus.Subscription) :
  since_clear (t ++ map (fun s => Invoked h (Bus.sub_listener s) e) subs) =
  since_clear t ++ map (fun s => Invoked h (Bus.sub_listener s) e) subs.
Proof.
  pose proof (since_clear_invoked t h e (map Bus.sub_listener subs)) as H.
  by rewrite !map_map in H.
Qed.

(** ** Goroutines of a fresh handle *)

Lemma count_if_length_filter {A} (p : A -> bool) (l : list A) :
  length (List.filter p l) = count_if p l.
Proof.
  induction l as [|x l IH]; simpl; [done |].
  destruct (p x); simpl; lia.
Qed.

Lemma no_task_for_fresh n h p :
  Forall (task_ok n) p → (n <= h)%nat →
  count_if (is_call_for h) p = 0%nat ∧ count_if (is_watcher h) p = 0%nat.
Proof.
  intros Hp Hn. split; apply count_if_false; eapply Forall_impl; try exact Hp.
  - intros [l args|h'] Hok; simpl in *; [|done].
    destruct Hok as (h0 & e & -> & Hlt). simpl.
    apply bool_decide_eq_false. intros [= ->]. lia.
  - intros [l args|h'] Hok; simpl in *; [done|].
    apply bool_decide_eq_false. lia.
Qed.

Lemma task_ok_mono n m t : (n <= m)%nat → task_ok n t → task_ok m t.
Proof.
  intros Hnm. destruct t as [l args|h]; simpl.
  - intros (h & e & -> & Hlt). exists h, e. split; [done | lia].
  - lia.
Qed.

Lemma item_ok_mono n m it : (n <= m)%nat → item_ok n it → item_ok m it.
Proof. intros Hnm. destruct it; simpl; [lia | done]. Qed.

(** ** The invariant holds in every reachable state *)

Lemma wf_New : wf New.
Proof.
  constructor; simpl; done.
Qed.

Lemma dispatched_eq e w :
  let subs := Bus.handlers (Name e) (GoEvent.bus (ge w)) in
  dispatched e w =
  {| ge := ge_add_errors (sync_failures e subs)
             (GoEvent.set_wg (GoEvent.wg (ge w) + added e w) (ge w));
     heap := heap w ++
       [{| DispatchHandle.wg := added e w;
           DispatchHandle.errors := sync_failures e subs;
           DispatchHandle.done := false |}];
     pool := (pool w ++
       map (fun s => AsyncCall (Bus.sub_listener s)
                       [ArgHandle (length (heap w)); ArgEvent e])
           (List.filter Bus.sub_async subs)) ++ [Watcher (length (heap w))];
     trace := trace w ++
       map (fun s => Invoked (length (heap w)) (Bus.sub_listener s) e)
           (List.filter is_sync subs) |}.
Proof.
  intros subs. unfold dispatched. rewrite Publish_spec.
  unfold published, prepared, spawn, with_pool. cbn [ge heap pool trace GoEvent.bus GoEvent.set_wg].
  fold subs. f_equal.
  rewrite <- (Nat.add_0_r (length (heap w))) at 1.
  by rewrite alter_app_r.
Qed.

Lemma added_wf e w :
  wf w →
  added e w =
  Z.of_nat (count_if Bus.sub_async (Bus.handlers (Name e) (GoEvent.bus (ge w)))).
Proof.
  intros Hw. unfold added. rewrite (wf_counts w Hw).
  destruct (0 <? _) eqn:E; [done |]. apply Z.ltb_ge in E. lia.
Qed.

Lemma wf_dispatched e w : wf w → wf (dispatched e w).
Proof.
  intros Hw. rewrite dispatched_eq. cbv zeta.
  set (subs := Bus.handlers (Name e) (GoEvent.bus (ge w))).
  destruct (no_task_for_fresh (length (heap w)) _ (pool w) (wf_tasks w Hw) (le_n _))
    as [Hcall0 Hwatch0].
  constructor; cbn [ge heap pool trace ge_add_errors GoEvent.set_wg
    GoEvent.wg GoEvent.bus GoEvent.errors GoEvent.asyncListeners].
  - rewrite !count_if_app, count_if_map_true by done.
    rewrite (wf_ge_wg w Hw), (added_wf e w Hw), count_if_length_filter.
    fold subs. simpl. lia.
  - intros h' dh' [[Hlt Hh']|[-> <-]]%lookup_snoc_Some.
    + rewrite !count_if_app, count_if_map_false.
      * rewrite (wf_handle_wg w Hw h' dh' Hh'). simpl. lia.
      * intros s. apply bool_decide_eq_false.
        intros [= E]. lia.
    + cbn [DispatchHandle.wg].
      rewrite !count_if_app, count_if_map_true.
      * rewrite (added_wf e w Hw), count_if_length_filter, Hcall0.
        fold subs. simpl. lia.
      * intros s. by apply bool_decide_eq_true.
  - intros name. apply (wf_counts w Hw name).
  - intros h' dh' [[Hlt Hh']|[-> <-]]%lookup_snoc_Some.
    + rewrite !count_if_app, count_if_map_false by done. simpl.
      rewrite bool_decide_eq_false_2 by lia.
      pose proof (wf_done w Hw h' dh' Hh'). lia.
    + cbn [DispatchHandle.done].
      rewrite !count_if_app, count_if_map_false by done. simpl.
      rewrite bool_decide_eq_true_2 by done. lia.
  - rewrite length_app. simpl.
    rewrite !Forall_app. split_and!.
    + eapply Forall_impl; [apply (wf_tasks w Hw)|].
      intros t. apply task_ok_mono. lia.
    + apply Forall_forall. intros t (s & -> & _)%list_elem_of_fmap.
      exists (length (heap w)), e. split; [done | lia].
    + apply Forall_singleton. simpl. lia.
  - rewrite length_app. simpl.
    rewrite !Forall_app. split.
    + eapply Forall_impl; [apply (wf_trace w Hw)|].
      intros t. apply item_ok_mono. lia.
    + apply Forall_forall. intros t (s & -> & _)%list_elem_of_fmap.
      simpl. lia.
  - intros h' dh' [[Hlt Hh']|[-> <-]]%lookup_snoc_Some.
    + rewrite failures_for_app, failures_for_published_ne, app_nil_r.
      * apply (wf_handle_errors w Hw h' dh' Hh').
      * lia.
    + cbn [DispatchHandle.errors].
      rewrite failures_for_app, failures_for_published.
      by rewrite (failures_for_fresh (length (heap w)) _ _ (wf_trace w Hw) (le_n _)).
  - rewrite since_clear_published, all_failures_app, all_failures_published.
    by rewrite (wf_ge_errors w Hw).
Qed.

Lemma wf_ClearErrors w : wf w → wf (ClearErrors w).
Proof.
  intros Hw. destruct Hw. constructor; simpl; try done.
  - rewrite Forall_app. split; [done |]. by apply Forall_singleton.
  - intros h dh Hh. rewrite failures_for_app, app_nil_r. auto.
  - by rewrite since_clear_snoc.
Qed.

Lemma handlers_snoc topic b s :
  Bus.handlers topic (b ++ [s]) =
  Bus.handlers topic b ++ (if Bus.on_topic topic s then [s] else []).
Proof. unfold Bus.handlers. by rewrite List.filter_app. Qed.

Lemma handlers_length topic b :
  (length (Bus.handlers topic b) <= length b)%nat.
Proof. apply List.filter_length_le. Qed.

Lemma registerSingleListener_bus_length l w :
  length (GoEvent.bus (ge (registerSingleListener l w))) =
  S (length (GoEvent.bus (ge w))).
Proof.
  unfold registerSingleListener. destruct (isAsync l); simpl;
    unfold Bus.SubscribeAsync, Bus.Subscribe; rewrite length_app; simpl; lia.
Qed.

Lemma wf_registerSingleListener l w :
  wf w → bus_fits (registerSingleListener l w) →
  wf (registerSingleListener l w).
Proof.
  intros Hw Hfit. unfold bus_fits in Hfit.
  rewrite registerSingleListener_bus_length in Hfit.
  pose proof (wf_counts w Hw) as Hc.
  unfold registerSingleListener in *.
  destruct (isAsync l) eqn:Ha; destruct Hw; constructor; simpl; try done.
  - intros name. unfold GoEvent.asyncCount, Bus.SubscribeAsync. simpl.
    rewrite handlers_snoc, count_if_app. unfold Bus.on_topic. simpl.
    destruct (decide (Listener.EventName l = name)) as [->|Hne].
    + rewrite lookup_insert_eq, bool_decide_eq_true_2 by done. simpl.
      pose proof (Hc name) as Hn.
      unfold GoEvent.asyncCount in Hn. rewrite Hn.
      pose proof (count_if_le_length Bus.sub_async
        (Bus.handlers name (GoEvent.bus (ge w)))).
      pose proof (handlers_length name (GoEvent.bus (ge w))).
      rewrite wrap_int_small; unfold int_max in *; lia.
    + rewrite lookup_insert_ne, bool_decide_eq_false_2 by done. simpl.
      rewrite Nat.add_0_r. apply Hc.
  - intros name. unfold GoEvent.asyncCount, Bus.Subscribe. simpl.
    rewrite handlers_snoc, count_if_app. unfold Bus.on_topic. simpl.
    case_bool_decide; simpl; rewrite Nat.add_0_r; apply Hc.
Qed.

Lemma RegisterListener_bus_length ls w :
  length (GoEvent.bus (ge (RegisterListener ls w))) =
  (length (GoEvent.bus (ge w)) + length ls)%nat.
Proof.
  unfold RegisterListener. revert w.
  induction ls as [|l ls IH]; intros w; simpl; [lia |].
  rewrite IH, registerSingleListener_bus_length. lia.
Qed.

Lemma wf_RegisterListener ls w :
  wf w → bus_fits (RegisterListener ls w) → wf (RegisterListener ls w).
Proof.
  revert w. induction ls as [|l ls IH]; intros w Hw Hfit; [done |].
  change (RegisterListener (l :: ls) w)
    with (RegisterListener ls (registerSingleListener l w)) in *.
  apply IH; [|done]. apply wf_registerSingleListener; [done |].
  unfold bus_fits in *. rewrite RegisterListener_bus_length in Hfit. lia.
Qed.

Lemma failures_for_one h h' l e :
  failures_for h' [Invoked h l e] =
  if decide (h = h') then option_list (failure l e) else [].
Proof.
  unfold failures_for. simpl. case_decide; [|done].
  by destruct (failure l e).
Qed.

Lemma all_failures_one h l e :
  all_failures [Invoked h l e] = option_list (failure l e).
Proof. unfold all_failures. simpl. by destruct (failure l e). Qed.

Lemma wf_completed i l h e w :
  wf w →
  pool w !! i = Some (AsyncCall l [ArgHandle h; ArgEvent e]) →
  wf (completed l h e (with_pool (delete i) w)).
Proof.
  intros Hw Hi.
  pose proof (Forall_lookup_1 _ _ _ _ (wf_tasks w Hw) Hi) as (h0 & e0 & [= <- <-] & Hlt).
  constructor; cbn [completed ge heap pool trace with_pool ge_add_errors
    GoEvent.set_wg GoEvent.wg GoEvent.bus GoEvent.errors
    GoEvent.asyncListeners].
  - rewrite (wf_ge_wg w Hw), (count_if_delete is_call _ _ _ Hi). simpl. lia.
  - intros h' dh'. rewrite list_lookup_alter.
    pose proof (count_if_delete (is_call_for h') _ _ _ Hi) as Hcnt.
    simpl in Hcnt. destruct (decide (h = h')) as [<-|Hd].
    + destruct (heap w !! h) as [dh|] eqn:Hh; [|done].
      intros [= <-]. simpl.
      rewrite (wf_handle_wg w Hw h dh Hh), Hcnt.
      rewrite bool_decide_eq_true_2 by done. lia.
    + intros Hh'. rewrite (wf_handle_wg w Hw h' dh' Hh'), Hcnt.
      rewrite bool_decide_eq_false_2 by congruence. lia.
  - apply (wf_counts w Hw).
  - intros h' dh'. rewrite list_lookup_alter.
    pose proof (count_if_delete (is_watcher h') _ _ _ Hi) as Hcnt.
    simpl in Hcnt. destruct (decide (h = h')) as [<-|Hd].
    + destruct (heap w !! h) as [dh|] eqn:Hh; [|done].
      intros [= <-]. simpl.
      pose proof (wf_done w Hw h dh Hh). lia.
    + intros Hh'. pose proof (wf_done w Hw h' dh' Hh'). lia.
  - rewrite length_alter. apply Forall_delete, (wf_tasks w Hw).
  - rewrite length_alter, Forall_app. split; [apply (wf_trace w Hw)|].
    by apply Forall_singleton.
  - intros h' dh'. rewrite list_lookup_alter, failures_for_app, failures_for_one.
    destruct (decide (h = h')) as [<-|Hd].
    + destruct (heap w !! h) as [dh|] eqn:Hh; [|done].
      intros [= <-]. simpl. by rewrite (wf_handle_errors w Hw h dh Hh).
    + intros Hh'. rewrite app_nil_r. apply (wf_handle_errors w Hw h' dh' Hh').
  - rewrite since_clear_snoc, all_failures_app, all_failures_one.
    by rewrite (wf_ge_errors w Hw).
Qed.

Lemma wf_closed i h w :
  wf w →
  pool w !! i = Some (Watcher h) →
  wf (closed h (with_pool (delete i) w)).
Proof.
  intros Hw Hi.
  constructor; cbn [closed ge heap pool trace with_pool with_handle].
  - rewrite (wf_ge_wg w Hw), (count_if_delete is_call _ _ _ Hi). simpl. lia.
  - intros h' dh'. rewrite list_lookup_alter.
    pose proof (count_if_delete (is_call_for h') _ _ _ Hi) as Hcnt.
    simpl in Hcnt. destruct (decide (h = h')) as [<-|Hd].
    + destruct (heap w !! h) as [dh|] eqn:Hh; [|done].
      intros [= <-]. simpl. rewrite (wf_handle_wg w Hw h dh Hh). lia.
    + intros Hh'. rewrite (wf_handle_wg w Hw h' dh' Hh'). lia.
  - apply (wf_counts w Hw).
  - intros h' dh'. rewrite list_lookup_alter.
    pose proof (count_if_delete (is_watcher h') _ _ _ Hi) as Hcnt.
    simpl in Hcnt. destruct (decide (h = h')) as [<-|Hd].
    + destruct (heap w !! h) as [dh|] eqn:Hh; [|done].
      intros [= <-]. simpl.
      pose proof (wf_done w Hw h dh Hh) as Hdone.
      rewrite bool_decide_eq_true_2 in Hcnt by done.
      destruct (DispatchHandle.done dh); lia.
    + intros Hh'. pose proof (wf_done w Hw h' dh' Hh').
      rewrite bool_decide_eq_false_2 in Hcnt by done. lia.
  - rewrite length_alter. apply Forall_delete, (wf_tasks w Hw).
  - rewrite length_alter. apply (wf_trace w Hw).
  - intros h' dh'. rewrite list_lookup_alter. destruct (decide (h = h')) as [<-|Hd].
    + destruct (heap w !! h) as [dh|] eqn:Hh; [|done].
      intros [= <-]. simpl. apply (wf_handle_errors w Hw h dh Hh).
    + apply (wf_handle_errors w Hw h').
  - apply (wf_ge_errors w Hw).
Qed.

(** ** What a step can and cannot change, in any state *)

Lemma ge_wg_Add_inv d w w' :
  ge_wg_Add d w = Ok w' →
  0 <= GoEvent.wg (ge w) + d ∧
  w' = with_ge (GoEvent.set_wg (GoEvent.wg (ge w) + d)) w.
Proof.
  unfold ge_wg_Add, WaitGroup.Add.
  destruct (GoEvent.wg (ge w) + d <? 0) eqn:E; [done |].
  apply Z.ltb_ge in E. by intros [= <-].
Qed.

Lemma handle_wg_Add_inv h d w w' :
  handle_wg_Add h d w = Ok w' →
  ∃ dh, heap w !! h = Some dh ∧ 0 <= DispatchHandle.wg dh + d ∧
        w' = with_handle h (DispatchHandle.set_wg (DispatchHandle.wg dh + d)) w.
Proof.
  unfold handle_wg_Add, WaitGroup.Add.
  destruct (heap w !! h) as [dh|]; [|done].
  destruct (DispatchHandle.wg dh + d <? 0) eqn:E; [done |].
  apply Z.ltb_ge in E. intros [= <-]. by exists dh.
Qed.

Lemma handler_cases l args w :
  (∃ h e rest, args = ArgHandle h :: ArgEvent e :: rest) ∨
  handler l args w = w.
Proof.
  destruct args as [|[h| |] [|[|e|] rest]]; try (by right).
  left. by exists h, e, rest.
Qed.

Lemma handler_frame l args w :
  GoEvent.bus (ge (handler l args w)) = GoEvent.bus (ge w) ∧
  GoEvent.wg (ge (handler l args w)) = GoEvent.wg (ge w) ∧
  GoEvent.asyncListeners (ge (handler l args w)) =
    GoEvent.asyncListeners (ge w) ∧
  pool (handler l args w) = pool w ∧
  length (heap (handler l args w)) = length (heap w) ∧
  ∀ h, DispatchHandle.wg <$> heap (handler l args w) !! h =
         DispatchHandle.wg <$> heap w !! h ∧
       DispatchHandle.done <$> heap (handler l args w) !! h =
         DispatchHandle.done <$> heap w !! h.
Proof.
  destruct (handler_cases l args w) as [(h & e & rest & ->)| ->]; [|done].
  rewrite handler_valid. simpl. rewrite length_alter. split_and!; try done.
  intros h'. rewrite list_lookup_alter.
  case_decide; [subst|done]. by destruct (heap w !! h').
Qed.

Lemma asyncHandler_bus l args w w' :
  asyncHandler l args w = Ok w' →
  GoEvent.bus (ge w') = GoEvent.bus (ge w).
Proof.
  unfold asyncHandler, ge_wg_Done, handle_wg_Done.
  destruct (ge_wg_Add (-1) (handler l args w)) as [w1| |] eqn:E1; try done.
  apply ge_wg_Add_inv in E1 as [_ ->]. cbn [mbind Outcome_bind].
  pose proof (handler_frame l args w) as (Hb & _).
  destruct args as [|a0 args]; [by intros [= <-] |].
  destruct (as_handle a0) as [h|]; [|by intros [= <-]].
  intros (dh & _ & _ & ->)%handle_wg_Add_inv. done.
Qed.

Lemma watcher_bus h w w' :
  watcher h w = Ok w' → GoEvent.bus (ge w') = GoEvent.bus (ge w).
Proof.
  unfold watcher. destruct (heap w !! h) as [dh|]; [|done].
  destruct (DispatchHandle.Wait dh); try done.
  destruct (DispatchHandle.markDone dh); try done.
  by intros [= <-].
Qed.

Lemma go_bus i w w' :
  go i w = Ok w' → GoEvent.bus (ge w') = GoEvent.bus (ge w).
Proof.
  unfold go. destruct (pool w !! i) as [[l args|h]|]; [| |done].
  - intros H. by apply asyncHandler_bus in H.
  - intros H. by apply watcher_bus in H.
Qed.

(** When [Dispatch] returns, it returns the fresh handle and the state
    [dispatched]. *)
Lemma Dispatch_inv e w r :
  Dispatch e w = Ok r → r = (length (heap w), dispatched e w).
Proof.
  unfold Dispatch, dispatched, prepared, added.
  replace (ge (alloc _ w)) with (ge w) by done.
  destruct (0 <? GoEvent.asyncCount (Name e) (ge w)) eqn:Hc.
  - destruct (ge_wg_Add _ _) as [w1| |] eqn:E1; try done.
    apply ge_wg_Add_inv in E1 as [_ ->]. cbn [mbind Outcome_bind].
    destruct (handle_wg_Add _ _ _) as [w2| |] eqn:E2; try done.
    apply handle_wg_Add_inv in E2 as (dh & Hdh & _ & ->).
    simpl in Hdh. rewrite list_lookup_middle in Hdh by done.
    injection Hdh as <-.
    cbn [mbind Outcome_bind]. intros [= <-]. do 3 f_equal.
    unfold with_handle, with_ge, alloc. cbn [ge heap pool trace]. f_equal.
    rewrite <- (Nat.add_0_r (length (heap w))) at 1.
    by rewrite alter_app_r.
  - cbn [mbind Outcome_bind]. intros [= <-]. do 3 f_equal.
    rewrite Z.add_0_r. by destruct w as [[] ? ? ?].
Qed.

Lemma exec_bus_mono op w w' :
  exec op w = Ok w' →
  (length (GoEvent.bus (ge w)) <= length (GoEvent.bus (ge w')))%nat.
Proof.
  destruct op as [ls|e| |i]; simpl.
  - intros [= <-]. rewrite RegisterListener_bus_length. lia.
  - destruct (Dispatch e w) as [r| |] eqn:E; try done.
    apply Dispatch_inv in E as ->. intros [= <-]. cbn [snd].
    by rewrite dispatched_eq.
  - by intros [= <-].
  - intros H. by rewrite (go_bus _ _ _ H).
Qed.

Lemma run_bus_mono ops w w' :
  run ops w = Ok w' →
  (length (GoEvent.bus (ge w)) <= length (GoEvent.bus (ge w')))%nat.
Proof.
  revert w. induction ops as [|op ops IH]; intros w; simpl.
  - by intros [= <-].
  - destruct (exec op w) as [w1| |] eqn:E; try done.
    cbn [mbind Outcome_bind]. intros H.
    apply exec_bus_mono in E. apply IH in H. lia.
Qed.

(** ** Goroutines of a well-formed state *)

Lemma go_cases i t w :
  wf w → pool w !! i = Some t →
  match t with
  | AsyncCall l args =>
      ∃ h e dh, args = [ArgHandle h; ArgEvent e] ∧ heap w !! h = Some dh ∧
                1 <= GoEvent.wg (ge w) ∧ 1 <= DispatchHandle.wg dh ∧
                go i w = Ok (completed l h e (with_pool (delete i) w))
  | Watcher h =>
      ∃ dh, heap w !! h = Some dh ∧ DispatchHandle.done dh = false ∧
            ((DispatchHandle.wg dh = 0 ∧
              go i w = Ok (closed h (with_pool (delete i) w))) ∨
             (DispatchHandle.wg dh ≠ 0 ∧ go i w = Blocked))
  end.
Proof.
  intros Hw Hi.
  pose proof (Forall_lookup_1 _ _ _ _ (wf_tasks w Hw) Hi) as Hok.
  destruct t as [l args|h]; simpl in Hok.
  - destruct Hok as (h & e & -> & Hlt).
    destruct (lookup_lt_is_Some_2 _ _ Hlt) as [dh Hh].
    exists h, e, dh.
    pose proof (count_if_delete is_call _ _ _ Hi) as H1.
    pose proof (count_if_delete (is_call_for h) _ _ _ Hi) as H2.
    simpl in H1, H2. rewrite bool_decide_eq_true_2 in H2 by done.
    pose proof (wf_ge_wg w Hw). pose proof (wf_handle_wg w Hw h dh Hh).
    split_and!; try done; try lia.
    apply (go_call_spec i l h e dh); [done..|lia|lia].
  - destruct (lookup_lt_is_Some_2 _ _ Hok) as [dh Hh].
    exists dh.
    pose proof (count_if_delete (is_watcher h) _ _ _ Hi) as H1.
    simpl in H1. rewrite bool_decide_eq_true_2 in H1 by done.
    pose proof (wf_done w Hw h dh Hh) as H2.
    assert (DispatchHandle.done dh = false) as Hd
      by (destruct (DispatchHandle.done dh); [lia | done]).
    split_and!; try done.
    destruct (decide (DispatchHandle.wg dh = 0)) as [Hz|Hnz].
    + left. split; [done |]. by apply (go_watcher_spec i h dh).
    + right. split; [done |]. by apply (go_watcher_blocked i h dh).
Qed.

Lemma wf_go i w w' : wf w → go i w = Ok w' → wf w'.
Proof.
  intros Hw Hgo.
  destruct (pool w !! i) as [t|] eqn:Hi;
    [|unfold go in Hgo; by rewrite Hi in Hgo].
  pose proof (go_cases i t w Hw Hi) as Hc.
  destruct t as [l args|h].
  - destruct Hc as (h & e & dh & -> & _ & _ & _ & Hgo').
    rewrite Hgo' in Hgo. injection Hgo as <-. by apply wf_completed.
  - destruct Hc as (dh & _ & _ & [[_ Hgo']|[_ Hgo']]);
      rewrite Hgo' in Hgo; [|done].
    injection Hgo as <-. by apply wf_closed.
Qed.

(** No goroutine of a well-formed state panics. *)
Lemma go_no_panic i w msg : wf w → go i w ≠ Panic msg.
Proof.
  intros Hw Hgo.
  destruct (pool w !! i) as [t|] eqn:Hi;
    [|unfold go in Hgo; by rewrite Hi in Hgo].
  pose proof (go_cases i t w Hw Hi) as Hc.
  destruct t as [l args|h].
  - destruct Hc as (h & e & dh & -> & _ & _ & _ & Hgo'). congruence.
  - destruct Hc as (dh & _ & _ & [[_ Hgo']|[_ Hgo']]); congruence.
Qed.

Lemma wf_nonneg w : wf w → 0 <= GoEvent.wg (ge w).
Proof. intros Hw. rewrite (wf_ge_wg w Hw). lia. Qed.

Lemma wf_exec op w w' : wf w → exec op w = Ok w' → bus_fits w' → wf w'.
Proof.
  intros Hw. destruct op as [ls|e| |i]; simpl.
  - intros [= <-]. by apply wf_RegisterListener.
  - rewrite Dispatch_spec by (by apply wf_nonneg).
    cbn [mbind Outcome_bind snd]. intros [= <-] _. by apply wf_dispatched.
  - intros [= <-] _. by apply wf_ClearErrors.
  - intros H _. by apply (wf_go i w).
Qed.

Lemma wf_run ops w w' : wf w → run ops w = Ok w' → bus_fits w' → wf w'.
Proof.
  revert w. induction ops as [|op ops IH]; intros w Hw; simpl.
  - by intros [= <-].
  - destruct (exec op w) as [w1| |] eqn:E; try done.
    cbn [mbind Outcome_bind]. intros H Hfit.
    apply (IH w1); [|done..].
    apply (wf_exec op w w1); [done..|].
    unfold bus_fits in *. apply run_bus_mono in H. lia.
Qed.

Lemma reachable_wf w : reachable w → bus_fits w → wf w.
Proof. intros [ops H]. apply (wf_run ops New); [apply wf_New | done]. Qed.

Lemma reachable_New : reachable New.
Proof. by exists []. Qed.

Lemma run_app ops1 ops2 w :
  run (ops1 ++ ops2) w = w1 ← run ops1 w; run ops2 w1.
Proof.
  revert w. induction ops1 as [|op ops1 IH]; intros w; simpl; [done |].
  destruct (exec op w) as [w1| |]; [|done..]. apply IH.
Qed.


Lemma reachable_run ops w w' : reachable w → run ops w = Ok w' → reachable w'.
Proof.
  intros [ops0 H] Hrun. exists (ops0 ++ ops). by rewrite run_app, H.
Qed.


Lemma reachable_w_dispatched : reachable w_dispatched.
Proof.
  exists [OpRegister [testSyncListener; testAsyncErrorListener; testErrorListener];
          OpDispatch (testEvent "x")].
  vm_compute. reflexivity.
Qed.

Lemma bus_fits_w_registered : bus_fits w_registered.
Proof. unfold bus_fits. vm_compute. discriminate. Qed.

Lemma bus_fits_w_dispatched : bus_fits w_dispatched.
Proof. unfold bus_fits. vm_compute. discriminate. Qed.

(** ** A dispatch without asynchronous listeners *)

Lemma Dispatch_zero e w :
  GoEvent.asyncCount (Name e) (ge w) = 0 →
  Dispatch e w = Ok (length (heap w), dispatched e w).
Proof.
  intros Hz. unfold Dispatch, dispatched, prepared, added.
  replace (ge (alloc _ w)) with (ge w) by done. rewrite Hz.
  cbn [Z.ltb Z.compare mbind Outcome_bind]. do 4 f_equal.
  rewrite Z.add_0_r. by destruct w as [[] ? ? ?].
Qed.

(** ** Steps and the completion signal *)

Lemma registerSingleListener_frame l w :
  heap (registerSingleListener l w) = heap w ∧
  pool (registerSingleListener l w) = pool w ∧
  trace (registerSingleListener l w) = trace w ∧
  GoEvent.wg (ge (registerSingleListener l w)) = GoEvent.wg (ge w) ∧
  GoEvent.errors (ge (registerSingleListener l w)) = GoEvent.errors (ge w).
Proof. unfold registerSingleListener. by destruct (isAsync l). Qed.

Lemma RegisterListener_frame ls w :
  heap (RegisterListener ls w) = heap w ∧
  pool (RegisterListener ls w) = pool w ∧
  trace (RegisterListener ls w) = trace w ∧
  GoEvent.wg (ge (RegisterListener ls w)) = GoEvent.wg (ge w) ∧
  GoEvent.errors (ge (RegisterListener ls w)) = GoEvent.errors (ge w).
Proof.
  revert w. induction ls as [|l ls IH]; intros w; [done |].
  change (RegisterListener (l :: ls) w)
    with (RegisterListener ls (registerSingleListener l w)).
  destruct (IH (registerSingleListener l w)) as (-> & -> & -> & -> & ->).
  apply registerSingleListener_frame.
Qed.

Lemma exec_no_panic op w msg : wf w → exec op w ≠ Panic msg.
Proof.
  intros Hw. destruct op as [ls|e| |i]; simpl; try done.
  - by rewrite Dispatch_spec by (by apply wf_nonneg).
  - by apply go_no_panic.
Qed.

(** A step keeps a fired signal fired, and fires a signal only by
    running the handle's watcher while the handle's counter is zero. *)
Lemma exec_done op w w' h dh :
  wf w → exec op w = Ok w' → heap w !! h = Some dh →
  (handle_Done h w = true → handle_Done h w' = true) ∧
  (handle_Done h w = false → handle_Done h w' = true →
   handle_wg h w = 0 ∧ ∃ i, op = OpGo i ∧ pool w !! i = Some (Watcher h)).
Proof.
  intros Hw Hop Hh.
  assert (handle_Done h w' = handle_Done h w →
    (handle_Done h w = true → handle_Done h w' = true) ∧
    (handle_Done h w = false → handle_Done h w' = true →
     handle_wg h w = 0 ∧ ∃ i, op = OpGo i ∧ pool w !! i = Some (Watcher h)))
    as Hsame by (intros ->; split; [done | congruence]).
  destruct op as [ls|e| |i]; simpl in Hop.
  - injection Hop as <-. apply Hsame. unfold handle_Done.
    by rewrite (proj1 (RegisterListener_frame ls w)).
  - rewrite Dispatch_spec in Hop by (by apply wf_nonneg).
    injection Hop as <-. apply Hsame. unfold handle_Done.
    rewrite dispatched_eq. cbn [heap].
    rewrite lookup_app_l; [done |]. by apply lookup_lt_Some in Hh.
  - injection Hop as <-. by apply Hsame.
  - destruct (pool w !! i) as [t|] eqn:Hi;
      [|unfold go in Hop; by rewrite Hi in Hop].
    pose proof (go_cases i t w Hw Hi) as Hc.
    destruct t as [l args|h0].
    + destruct Hc as (h1 & e & dh1 & -> & Hh1 & _ & _ & Hgo).
      rewrite Hgo in Hop. injection Hop as <-. apply Hsame.
      unfold handle_Done, completed. cbn [heap with_pool].
      rewrite list_lookup_alter. case_decide; [subst|done].
      by rewrite Hh1.
    + destruct Hc as (dh0 & Hh0 & Hd0 & [[Hz Hgo]|[_ Hgo]]);
        rewrite Hgo in Hop; [|done].
      injection Hop as <-.
      destruct (decide (h0 = h)) as [->|Hne].
      * rewrite Hh in Hh0. injection Hh0 as <-.
        unfold handle_Done, handle_wg, closed. cbn [heap with_pool with_handle].
        rewrite list_lookup_alter_eq, Hh. simpl. split; [done |].
        intros _ _. split; [done |]. by exists i.
      * apply Hsame. unfold handle_Done, closed.
        cbn [heap with_pool with_handle].
        by rewrite list_lookup_alter_ne.
Qed.

(** From a well-formed state the scheduler can always bring the signal
    of a handle to fire: it runs the outstanding calls of the handle,
    then the watcher. *)
Lemma can_fire n : ∀ w h dh,
  wf w → heap w !! h = Some dh →
  count_if (is_call_for h) (pool w) = n →
  ∃ sched w', run (map OpGo sched) w = Ok w' ∧ wf w' ∧
              handle_Done h w' = true.
Proof.
  induction n as [|n IH]; intros w h dh Hw Hh Hn.
  - pose proof (wf_handle_wg w Hw h dh Hh) as Hwg. rewrite Hn in Hwg.
    destruct (DispatchHandle.done dh) eqn:Hd.
    + exists [], w. split_and!; [done..|].
      unfold handle_Done. by rewrite Hh.
    + pose proof (wf_done w Hw h dh Hh) as Hone. rewrite Hd in Hone.
      destruct (count_if_pos_lookup (is_watcher h) (pool w))
        as (i & t & Hi & Ht); [lia |].
      destruct t as [|h0]; [done |]. simpl in Ht.
      apply bool_decide_eq_true in Ht as ->.
      exists [i], (closed h (with_pool (delete i) w)).
      split_and!.
      * simpl. by rewrite (go_watcher_spec i h dh w Hi Hh Hwg Hd).
      * by apply wf_closed.
      * unfold handle_Done, closed. cbn [heap with_pool with_handle].
        by rewrite list_lookup_alter_eq, Hh.
  - destruct (count_if_pos_lookup (is_call_for h) (pool w))
      as (i & t & Hi & Ht); [lia |].
    pose proof (go_cases i t w Hw Hi) as Hc.
    destruct t as [l args|]; [|done].
    destruct Hc as (h1 & e & dh1 & -> & Hh1 & _ & _ & Hgo).
    simpl in Ht. apply bool_decide_eq_true in Ht as [= ->].
    pose proof (wf_completed i l h e w Hw Hi) as Hw1.
    destruct (IH (completed l h e (with_pool (delete i) w)) h
                 (DispatchHandle.set_wg (DispatchHandle.wg dh - 1)
                    (add_errors (option_list (failure l e)) dh)))
      as (sched & w' & Hrun & Hw' & Hdone); [done | | |].
    + unfold completed. cbn [heap with_pool].
      by rewrite list_lookup_alter_eq, Hh.
    + pose proof (count_if_delete (is_call_for h) _ _ _ Hi) as Hcnt.
      simpl in Hcnt. rewrite bool_decide_eq_true_2 in Hcnt by done.
      unfold completed. cbn [pool with_pool]. lia.
    + exists (i :: sched), w'. split_and!; [|done..].
      simpl. by rewrite Hgo.
Qed.

(** ** Registration and the async-count table *)

Lemma registerSingleListener_bus l w :
  GoEvent.bus (ge (registerSingleListener l w)) =
  GoEvent.bus (ge w) ++ [subscription_of l].
Proof.
  unfold registerSingleListener, subscription_of.
  by destruct (isAsync l).
Qed.

Lemma RegisterListener_bus ls w :
  GoEvent.bus (ge (RegisterListener ls w)) =
  GoEvent.bus (ge w) ++ map subscription_of ls.
Proof.
  revert w. induction ls as [|l ls IH]; intros w.
  - simpl. by rewrite app_nil_r.
  - change (RegisterListener (l :: ls) w)
      with (RegisterListener ls (registerSingleListener l w)).
    rewrite IH, registerSingleListener_bus, <- app_assoc. done.
Qed.

Lemma count_async_handlers name ls :
  count_if Bus.sub_async (Bus.handlers name (map subscription_of ls)) =
  count_if (async_on name) ls.
Proof.
  unfold Bus.handlers, async_on, Bus.on_topic.
  induction ls as [|l ls IH]; [done |]. simpl.
  case_bool_decide; simpl; rewrite IH.
  - by rewrite andb_true_r.
  - by rewrite andb_false_r.
Qed.

(** ** Slices: copies and aliases *)

Lemma array_app_l m m' s :
  (Slice.ptr s < length m)%nat → Slice.array (m ++ m') s = Slice.array m s.
Proof. intros H. unfold Slice.array. by rewrite lookup_app_l. Qed.

Lemma read_app_l m m' s :
  (Slice.ptr s < length m)%nat → Slice.read (m ++ m') s = Slice.read m s.
Proof. intros H. unfold Slice.read. by rewrite array_app_l. Qed.

Lemma array_alter_ne f p m s :
  Slice.ptr s ≠ p → Slice.array (alter f p m) s = Slice.array m s.
Proof. intros H. unfold Slice.array. by rewrite list_lookup_alter_ne. Qed.

Lemma array_alter_eq f m s :
  (Slice.ptr s < length m)%nat →
  Slice.array (alter f (Slice.ptr s) m) s = f (Slice.array m s).
Proof.
  intros H. unfold Slice.array. rewrite list_lookup_alter_eq.
  by destruct (lookup_lt_is_Some_2 _ _ H) as [a ->].
Qed.

Lemma read_fresh m a s :
  Slice.ptr s = length m →
  Slice.read (m ++ [a]) s = take (Slice.len s) a.
Proof.
  intros H. unfold Slice.read, Slice.array.
  by rewrite list_lookup_middle.
Qed.

(** [GetErrors] allocates one array, holding the elements of the log. *)
Lemma GetErrors_eq m s :
  (Slice.ptr s < length m)%nat →
  ErrorLog.GetErrors m s =
  ({| Slice.ptr := length m; Slice.len := Slice.len s;
      Slice.cap := Slice.len s |},
   m ++ [Slice.read m s]).
Proof.
  intros Hs. unfold ErrorLog.GetErrors, Slice.make, Slice.copy.
  cbn [Slice.ptr Slice.len]. f_equal.
  rewrite Nat.min_id, read_app_l by done.
  rewrite <- (Nat.add_0_r (length m)) at 1. rewrite alter_app_r. simpl.
  f_equal. f_equal.
  rewrite drop_replicate, Nat.sub_diag, app_nil_r.
  unfold Slice.read. by rewrite take_take, Nat.min_id.
Qed.

Lemma read_lookup m s a :
  m !! Slice.ptr s = Some a → Slice.read m s = take (Slice.len s) a.
Proof. intros H. unfold Slice.read, Slice.array. by rewrite H. Qed.

Lemma read_read m s : take (Slice.len s) (Slice.read m s) = Slice.read m s.
Proof. unfold Slice.read. by rewrite take_take, Nat.min_id. Qed.

(** The list-level functions of the two logs are what the slice-level
    functions do to the elements. *)
Lemma recordError_represents spare err m s l :
  ErrorLog.represents m s l →
  ErrorLog.represents (snd (ErrorLog.recordError spare err m s))
    (fst (ErrorLog.recordError spare err m s)) (l ++ [err]).
Proof.
  intros (Hp & Hlen & Hle & Hr).
  unfold ErrorLog.recordError, Slice.append, ErrorLog.represents.
  case_decide as Hroom; cbn [fst snd Slice.ptr Slice.len Slice.cap].
  - rewrite length_alter.
    assert (Slice.array (alter (λ a, <[Slice.len s:=Some err]> a)
              (Slice.ptr s) m)
              {| Slice.ptr := Slice.ptr s; Slice.len := S (Slice.len s);
                 Slice.cap := Slice.cap s |}
            = <[Slice.len s:=Some err]> (Slice.array m s)) as Ha
      by (by apply (array_alter_eq _ m
            {| Slice.ptr := Slice.ptr s; Slice.len := S (Slice.len s);
               Slice.cap := Slice.cap s |})).
    split_and!; [done | | lia |].
    + by rewrite Ha, length_insert.
    + unfold Slice.read. rewrite Ha. cbn [Slice.len].
      rewrite (take_S_r _ _ (Some err))
        by (apply list_lookup_insert_eq; lia).
      rewrite take_insert_ge by lia.
      fold (Slice.read m s). by rewrite Hr, map_app.
  - rewrite length_app. simpl.
    assert (length (Slice.read m s) = Slice.len s) as Hrl
      by (unfold Slice.read; rewrite length_take; lia).
    split_and!; [lia | | lia |].
    + unfold Slice.array. cbn [Slice.ptr].
      rewrite list_lookup_middle by done. simpl.
      rewrite length_app. simpl. rewrite length_replicate. lia.
    + rewrite read_fresh by done. cbn [Slice.len].
      rewrite (cons_middle (Some err)), app_assoc.
      rewrite take_app_length' by (rewrite length_app; simpl; lia).
      by rewrite Hr, map_app.
Qed.

Lemma ClearErrors_represents m :
  ErrorLog.represents (snd (ErrorLog.ClearErrors m))
    (fst (ErrorLog.ClearErrors m)) [].
Proof.
  unfold ErrorLog.ClearErrors, Slice.make, ErrorLog.represents.
  cbn [fst snd Slice.ptr Slice.len Slice.cap].
  rewrite length_app. simpl. split_and!; [lia | | done |].
  - unfold Slice.array. cbn [Slice.ptr]. by rewrite list_lookup_middle.
  - by rewrite read_fresh.
Qed.

Lemma recordError_refines_GoEvent spare err m s g :
  ErrorLog.represents m s (GoEvent.errors g) →
  ErrorLog.represents (snd (ErrorLog.recordError spare err m s))
    (fst (ErrorLog.recordError spare err m s))
    (GoEvent.errors (GoEvent.recordError err g)).
Proof. apply recordError_represents. Qed.

Lemma recordError_refines_DispatchHandle spare err m s dh :
  ErrorLog.represents m s (DispatchHandle.errors dh) →
  ErrorLog.represents (snd (ErrorLog.recordError spare err m s))
    (fst (ErrorLog.recordError spare err m s))
    (DispatchHandle.errors (DispatchHandle.recordError err dh)).
Proof. apply recordError_represents. Qed.

Lemma ClearErrors_refines_GoEvent m g :
  ErrorLog.represents (snd (ErrorLog.ClearErrors m))
    (fst (ErrorLog.ClearErrors m)) (GoEvent.errors (GoEvent.ClearErrors g)).
Proof. apply ClearErrors_represents. Qed.

Lemma exec_snapshot_kept spare snap content op st :
  snapshot_kept snap content st →
  snapshot_kept snap content (ErrorLog.exec spare op st).
Proof.
  destruct st as [m logs]. intros [Hc Hlogs]. simpl in Hc, Hlogs.
  pose proof (lookup_lt_Some _ _ _ Hc) as Hlt.
  assert (∀ a, Forall (λ s, Slice.ptr s ≠ Slice.ptr snap ∧
                            (Slice.ptr s < length (m ++ [a]))%nat) logs)
    as Hgrow.
  { intros a. eapply Forall_impl; [exact Hlogs |].
    intros s [? ?]. rewrite length_app. simpl. split; [done | lia]. }
  destruct op as [k err|k|k]; unfold ErrorLog.exec;
    destruct (logs !! k) as [s|] eqn:Hk; try (by split).
  - pose proof (Forall_lookup_1 _ _ _ _ Hlogs Hk) as [Hne Hs].
    unfold ErrorLog.recordError, Slice.append. case_decide.
    + split; simpl.
      * by rewrite list_lookup_alter_ne.
      * rewrite length_alter. apply Forall_insert; [done |]. by split.
    + split; simpl.
      * by rewrite lookup_app_l.
      * apply Forall_insert; [apply Hgrow |]. simpl.
        rewrite length_app. simpl. split; lia.
  - unfold ErrorLog.ClearErrors, Slice.make. split; simpl.
    + by rewrite lookup_app_l.
    + apply Forall_insert; [apply Hgrow |]. simpl.
      rewrite length_app. simpl. split; lia.
  - pose proof (Forall_lookup_1 _ _ _ _ Hlogs Hk) as [Hne Hs].
    rewrite GetErrors_eq by done. split; simpl.
    + by rewrite lookup_app_l.
    + apply Hgrow.
Qed.

Lemma run_snapshot_kept spare snap content ops st :
  snapshot_kept snap content st →
  snapshot_kept snap content (ErrorLog.run spare ops st).
Proof.
  unfold ErrorLog.run. revert st.
  induction ops as [|op ops IH]; intros st H; [done |].
  simpl. by apply IH, exec_snapshot_kept.
Qed.

(** ** The package's tests, replayed *)

(** TestSyncListener: the inline listener has run when [Dispatch]
    returns, and [Wait] on the handle returns at once. *)
Example TestSyncListener :
  let w := dispatched (testEvent "sync test")
             (RegisterListener [testSyncListener] New) in
  trace w = [Invoked 0 testSyncListener (testEvent "sync test")] ∧
  handle_Wait 0 w = Ok tt.
Proof. split; reflexivity. Qed.

(** TestAsyncListener: the handle's [Wait] blocks until the goroutine
    of the asynchronous listener has run. *)
Example TestAsyncListener :
  let w := dispatched (testEvent "async test")
             (RegisterListener [testAsyncListener] New) in
  handle_Wait 0 w = Blocked ∧
  ∃ w', go 0 w = Ok w' ∧ handle_Wait 0 w' = Ok tt ∧
        trace w' = [Invoked 0 testAsyncListener (testEvent "async test")].
Proof. split; [reflexivity |]. eexists. split_and!; reflexivity. Qed.

(** TestErrorCollection_PerDispatch. *)
Example TestErrorCollection_PerDispatch :
  handle_GetErrors 0
    (dispatched (testEvent "error test")
       (RegisterListener [testErrorListener] New)) =
  [{| EventName := "test.event";
      ListenerType := "*goevent.testErrorListener";
      Err := {| error_ref := 1; error_msg := "test error" |} |}].
Proof. reflexivity. Qed.

(** TestErrorCollection_Global: two dispatches leave two errors in the
    global log, and none after [ClearErrors]. *)
Example TestErrorCollection_Global :
  ∃ w, run [OpRegister [testErrorListener];
            OpDispatch (testEvent "error test 1");
            OpDispatch (testEvent "error test 2")] New = Ok w ∧
       length (GetErrors w) = 2%nat ∧
       length (GetErrors (ClearErrors w)) = 0%nat.
Proof. eexists. split_and!; reflexivity. Qed.

(** TestDispatchHandle_Done: the channel is closed once the
    asynchronous call and then the watcher have run; before the call
    has run the watcher is blocked. *)
Example TestDispatchHandle_Done :
  let w := dispatched (testEvent "done test")
             (RegisterListener [testAsyncListener] New) in
  go 1 w = Blocked ∧
  ∃ w', run [OpGo 0; OpGo 0] w = Ok w' ∧ handle_Done 0 w' = true.
Proof. split; [reflexivity |]. eexists. split; reflexivity. Qed.

(** The scenario of the specification: an inline listener and an
    asynchronous one failing with "boom": after the handle's [Wait]
    both logs hold exactly that error. *)
Example scenario_boom :
  ∃ w, run [OpRegister [testSyncListener; testAsyncErrorListener];
            OpDispatch (testEvent "x"); OpGo 0] New = Ok w ∧
       handle_Wait 0 w = Ok tt ∧
       handle_GetErrors 0 w = [boom] ∧ GetErrors w = [boom].
Proof. eexists. split_and!; reflexivity. Qed.

(** * The operations, one at a time *)

Lemma count_if_insert {A} (p : A -> bool) (l : list A) i x y :
  l !! i = Some x →
  (count_if p (<[i := y]> l) + (if p x then 1 else 0) =
   count_if p l + (if p y then 1 else 0))%nat.
Proof.
  revert i. induction l as [|z l IH]; intros [|i] H; simplify_eq/=; [lia |].
  specialize (IH i H). lia.
Qed.

Lemma count_if_insert_same {A} (p : A -> bool) (l : list A) i x y :
  l !! i = Some x → p y = p x → count_if p (<[i := y]> l) = count_if p l.
Proof.
  intros H E. pose proof (count_if_insert p l i x y H) as Hc.
  rewrite E in Hc. lia.
Qed.

Lemma count_if_snoc {A} (p : A -> bool) (l : list A) x :
  count_if p (l ++ [x]) = (count_if p l + (if p x then 1 else 0))%nat.
Proof. rewrite count_if_app. simpl. lia. Qed.

(** Registration keeps the table in step with the bus. *)
Definition counts_ok (g : GoEvent.t) : Prop :=
  ∀ name, GoEvent.asyncCount name g =
          Z.of_nat (count_if Bus.sub_async (Bus.handlers name (GoEvent.bus g))).

Lemma counts_registerSingleListener l w :
  counts_ok (ge w) → bus_fits (registerSingleListener l w) →
  counts_ok (ge (registerSingleListener l w)).
Proof.
  intros Hc Hfit. unfold bus_fits in Hfit.
  rewrite registerSingleListener_bus_length in Hfit.
  unfold counts_ok, registerSingleListener in *.
  destruct (isAsync l) eqn:Ha; simpl.
  - intros name. unfold GoEvent.asyncCount, Bus.SubscribeAsync. simpl.
    rewrite handlers_snoc, count_if_app. unfold Bus.on_topic. simpl.
    destruct (decide (Listener.EventName l = name)) as [->|Hne].
    + rewrite lookup_insert_eq, bool_decide_eq_true_2 by done. simpl.
      pose proof (Hc name) as Hn.
      unfold GoEvent.asyncCount in Hn. rewrite Hn.
      pose proof (count_if_le_length Bus.sub_async
        (Bus.handlers name (GoEvent.bus (ge w)))).
      pose proof (handlers_length name (GoEvent.bus (ge w))).
      rewrite wrap_int_small; unfold int_max in *; lia.
    + rewrite lookup_insert_ne, bool_decide_eq_false_2 by done. simpl.
      rewrite Nat.add_0_r. apply Hc.
  - intros name. unfold GoEvent.asyncCount, Bus.Subscribe. simpl.
    rewrite handlers_snoc, count_if_app. unfold Bus.on_topic. simpl.
    case_bool_decide; simpl; rewrite Nat.add_0_r; apply Hc.
Qed.

Lemma counts_RegisterListener ls w :
  counts_ok (ge w) → bus_fits (RegisterListener ls w) →
  counts_ok (ge (RegisterListener ls w)).
Proof.
  revert w. induction ls as [|l ls IH]; intros w Hw Hfit; [done |].
  change (RegisterListener (l :: ls) w)
    with (RegisterListener ls (registerSingleListener l w)) in *.
  apply IH; [|done]. apply counts_registerSingleListener; [done |].
  unfold bus_fits in *. rewrite RegisterListener_bus_length in Hfit. lia.
Qed.

Lemma register_wg ls g : GoEvent.wg (register ls g) = GoEvent.wg g.
Proof. unfold register. by destruct (RegisterListener_frame ls
  {| ge := g; heap := []; pool := []; trace := [] |}) as (_ & _ & _ & -> & _). Qed.

Lemma register_errors ls g : GoEvent.errors (register ls g) = GoEvent.errors g.
Proof. unfold register. by destruct (RegisterListener_frame ls
  {| ge := g; heap := []; pool := []; trace := [] |}) as (_ & _ & _ & _ & ->). Qed.

Lemma register_bus ls g :
  GoEvent.bus (register ls g) = GoEvent.bus g ++ map subscription_of ls.
Proof. unfold register. by rewrite RegisterListener_bus. Qed.

Lemma register_counts ls g :
  counts_ok g → Z.of_nat (length (GoEvent.bus (register ls g))) <= int_max →
  counts_ok (register ls g).
Proof. intros Hc Hfit. by apply counts_RegisterListener. Qed.

(** ** The steps are the operations *)

Lemma after_call_eq a l h e s :
  handler_step a l h e HCall s = (record (ACall a h l e) s, after_call l e).
Proof.
  unfold handler_step, after_call, failure.
  by destruct (Listener.OnEvent l e).
Qed.

Lemma step_op st s s' : swf s → step st s = Ok s' → op s s'.
Proof.
  intros Hs. destruct st as [ls| |e| |i]; simpl.
  - unfold is_idle. destruct (s_main s) eqn:Em; [|done].
    intros [= <-]. by econstructor.
  - unfold is_idle. destruct (s_main s) eqn:Em; [|done].
    intros [= <-]. by econstructor.
  - unfold is_idle. destruct (s_main s) eqn:Em; [|done].
    intros [= <-]. by econstructor.
  - unfold caller_step. destruct (s_main s) as [|h e pc] eqn:Em; [done |].
    destruct pc as [|n|n|n|todo cur].
    + cbv zeta. intros [= <-]. by econstructor.
    + unfold WaitGroup.Add. case_match; [done |].
      cbn [mbind Outcome_bind]. intros [= <-]. by econstructor.
    + destruct (s_heap s !! h) as [dh|] eqn:Eh; [|done].
      unfold WaitGroup.Add. case_match; [done |].
      cbn [mbind Outcome_bind]. intros [= <-]. by econstructor.
    + intros [= <-]. by econstructor.
    + destruct cur as [[l p]|].
      * pose proof (swf_main s Hs) as Hm. unfold main_ok in Hm.
        rewrite Em in Hm. destruct Hm as [_ Hm].
        destruct p as [|ee|ee]; [by destruct (Hm l) | |];
          destruct todo; simpl; intros [= <-]; by econstructor.
      * destruct todo as [|sub todo]; [intros [= <-]; by econstructor |].
        destruct (Bus.sub_async sub) eqn:Ea; [intros [= <-]; by econstructor |].
        rewrite after_call_eq. intros [= <-]. by econstructor.
  - unfold go_step. destruct (s_gs s !! i) as [[l h e pc|h pc]|] eqn:Eg; [| |done].
    + destruct pc as [p| | |]; [| | |done].
      * destruct p as [|ee|ee].
        -- rewrite after_call_eq. intros [= <-]. by econstructor.
        -- simpl. intros [= <-]. by econstructor.
        -- simpl. intros [= <-]. by econstructor.
      * unfold WaitGroup.Done, WaitGroup.Add. case_match; [done |].
        cbn [mbind Outcome_bind]. intros [= <-].
        replace (GoEvent.wg (s_ge s) + -1) with (GoEvent.wg (s_ge s) - 1) by lia.
        by econstructor.
      * destruct (s_heap s !! h) as [dh|] eqn:Eh; [|done].
        unfold WaitGroup.Done, WaitGroup.Add. case_match; [done |].
        cbn [mbind Outcome_bind]. intros [= <-].
        replace (DispatchHandle.wg dh + -1) with (DispatchHandle.wg dh - 1) by lia.
        by econstructor.
    + destruct pc; [| |done].
      * destruct (s_heap s !! h) as [dh|] eqn:Eh; [|done].
        unfold DispatchHandle.Wait, WaitGroup.Wait.
        destruct (DispatchHandle.wg dh =? 0) eqn:E0; [|done].
        cbn [mbind Outcome_bind]. intros [= <-].
        econstructor; [done.. | lia].
      * destruct (s_heap s !! h) as [dh|] eqn:Eh; [|done].
        unfold DispatchHandle.markDone.
        destruct (DispatchHandle.done dh) eqn:Ed; [done |].
        cbn [mbind Outcome_bind]. intros [= <-].
        by econstructor.
Qed.

Ltac main_rewrite :=
  simpl in *;
  repeat match goal with
  | H : s_main _ = _ |- _ => rewrite H in *
  end;
  try match goal with
  | |- context [0 <? GoEvent.asyncCount ?n ?g] =>
      destruct (0 <? GoEvent.asyncCount n g) eqn:?
  end; simpl in *.

Lemma op_swf_ge s s' : swf s → op s s' →
  GoEvent.wg (s_ge s') =
  Z.of_nat (count_if ge_live (s_gs s')) + credit_ge (s_main s').
Proof.
  intros Hs Hop. pose proof (swf_ge s Hs) as Hge.
  pose proof (swf_main s Hs) as Hm. unfold main_ok in Hm.
  destruct Hop; main_rewrite; rewrite ?register_wg, ?count_if_snoc; simpl;
    try (erewrite count_if_insert_same by (done || by destruct (after_call l e)));
    try lia.
  all: try (unfold announced in *; repeat case_match; simpl; lia).
  match goal with H : s_gs _ !! _ = Some _ |- _ =>
    pose proof (count_if_insert ge_live _ _ _ (GoAsync l h e AHandleDone) H) as Hc
  end. simpl in Hc. lia.
Qed.

Lemma h_live_fresh h gs :
  Forall (fun g => go_handle g ≠ h) gs → count_if (h_live h) gs = 0%nat.
Proof.
  intros H. apply count_if_false. eapply Forall_impl; [exact H |].
  intros [l h' e pc|h' pc]; simpl; [|done].
  intros Hne. destruct pc; try done; by apply bool_decide_eq_false_2.
Qed.

Lemma watch_live_fresh h gs :
  Forall (fun g => go_handle g ≠ h) gs → count_if (watch_live h) gs = 0%nat.
Proof.
  intros H. apply count_if_false. eapply Forall_impl; [exact H |].
  intros [l h' e pc|h' pc]; simpl; [done |].
  intros Hne. destruct pc; try done; by apply bool_decide_eq_false_2.
Qed.

Lemma go_handle_fresh (n : nat) gs :
  Forall (fun g => (go_handle g < n)%nat) gs →
  Forall (fun g => go_handle g ≠ n) gs.
Proof. intros H. eapply Forall_impl; [exact H |]. intros g. simpl. lia. Qed.

Ltac heap_lookup :=
  match goal with
  | H : alter ?f ?h ?l !! ?h' = Some _ |- _ =>
      rewrite list_lookup_alter in H;
      let Hne := fresh "Hne" in
      destruct (decide (h = h')) as [<-|Hne];
      [ let E := fresh "E" in
        destruct (l !! h) eqn:E; simplify_eq/=
      | ]
  end.

Lemma op_swf_handle s s' : swf s → op s s' →
  ∀ h dh, s_heap s' !! h = Some dh →
    DispatchHandle.wg dh =
    Z.of_nat (count_if (h_live h) (s_gs s')) + credit_h h (s_main s').
Proof.
  intros Hs Hop h' dh' Hl. pose proof (swf_handle s Hs) as Hh.
  pose proof (swf_main s Hs) as Hm. unfold main_ok in Hm.
  pose proof (swf_gs s Hs) as Hg.
  destruct Hop; main_rewrite; try heap_lookup;
    rewrite ?count_if_snoc; simpl;
    try (erewrite count_if_insert_same
           by (done || by destruct (after_call l e)));
    try (by apply Hh).
  all: try (repeat match goal with
            | H : s_heap _ !! _ = Some _ |- _ => apply Hh in H
            end; simpl in *;
            unfold announced in *; repeat case_match; simpl in *;
            try case_bool_decide; try lia; done).
  - apply lookup_app_Some in Hl as [Hl|[Hlen Hl]]; [by apply Hh |].
    apply list_lookup_singleton_Some in Hl as [Hz <-]. simpl.
    replace h' with (length (s_heap s)) by lia.
    rewrite h_live_fresh; [done | by apply go_handle_fresh].
  - match goal with H : s_gs _ !! _ = Some _ |- _ =>
      pose proof (count_if_insert (h_live h) _ _ _ (GoAsync l h e AExit) H) as Hc
    end. simpl in Hc. rewrite bool_decide_eq_true_2 in Hc by done.
    apply Hh in E. lia.
  - erewrite count_if_insert_same; [by apply Hh | done |].
    simpl. by rewrite bool_decide_eq_false_2.
Qed.

Lemma op_counts s s' : swf s → op s s' → fits s' → counts_ok (s_ge s').
Proof.
  intros Hs Hop Hfit. pose proof (swf_counts s Hs) as Hc.
  destruct Hop; try exact Hc.
  by apply register_counts.
Qed.

Lemma op_heap_length s s' : op s s' →
  (length (s_heap s) <= length (s_heap s'))%nat.
Proof.
  destruct 1; simpl; rewrite ?length_alter, ?length_app; simpl; lia.
Qed.

Lemma Forall_set_go (P : nat → Prop) gs i g g' :
  gs !! i = Some g → go_handle g' = go_handle g →
  Forall (fun g => P (go_handle g)) gs →
  Forall (fun g => P (go_handle g)) (<[i := g']> gs).
Proof.
  intros Hi Hg H. apply Forall_insert; [done |].
  rewrite Hg. by apply (proj1 (Forall_lookup _ _) H i g).
Qed.

Lemma op_gs_handles (P : nat → Prop) s s' : op s s' →
  (∀ h e pc, s_main s = Dispatching h e pc → P h) →
  Forall (fun g => P (go_handle g)) (s_gs s) →
  Forall (fun g => P (go_handle g)) (s_gs s').
Proof.
  intros Hop Hm H. destruct Hop; simpl; try done;
    try (eapply Forall_set_go; by eauto).
  - apply Forall_app. split; [done |]. constructor; [|done]. simpl. eauto.
  - apply Forall_app. split; [done |]. constructor; [|done]. simpl. eauto.
Qed.

Lemma op_swf_gs s s' : swf s → op s s' →
  Forall (fun g => (go_handle g < length (s_heap s'))%nat) (s_gs s').
Proof.
  intros Hs Hop. pose proof (op_heap_length s s' Hop) as Hlen.
  pose proof (swf_main s Hs) as Hm. unfold main_ok in Hm.
  apply (op_gs_handles (fun h => (h < length (s_heap s'))%nat) s s' Hop).
  - intros h e pc Em. rewrite Em in Hm. lia.
  - eapply Forall_impl; [apply (swf_gs s Hs) |]. simpl. intros g. lia.
Qed.

Lemma after_call_not_HCall l e l' :
  pair l <$> after_call l e ≠ Some (l', HCall).
Proof. unfold after_call. by destruct (failure l e). Qed.

Lemma op_main_ok s s' : swf s → op s s' → main_ok s'.
Proof.
  intros Hs Hop. pose proof (swf_main s Hs) as Hm.
  pose proof (swf_counts s Hs) as Hc.
  pose proof (swf_gs s Hs) as Hg.
  pose proof (op_heap_length s s' Hop) as Hlen.
  unfold main_ok in *.
  destruct (s_main s') as [|h e pc] eqn:Em'; [done |].
  assert (Hpre : match pc with DPublish _ _ => True | _ =>
                   Forall (fun g => go_handle g ≠ h) (s_gs s') end).
  { destruct Hop; main_rewrite; simplify_eq/=; try done;
      try (by destruct Hm as (? & ? & ?)); try (by destruct Hm);
      try (by apply go_handle_fresh).
    { case_match; by destruct Hm. }
    all: destruct pc; try done.
    all: match goal with H : s_gs _ !! _ = Some ?g |- _ =>
           eapply (Forall_set_go (fun h' => h' ≠ h)); [exact H | done |]
         end; tauto. }
  destruct Hop; main_rewrite; simplify_eq/=;
    rewrite ?length_alter, ?length_app in *; simpl in *.
  all: try (split; [lia |]).
  all: try done.
  all: try (by apply after_call_not_HCall).
  all: try (destruct Hm as [_ Hm]; destruct pc; try done; tauto).
  - pose proof (Hc (Name e)) as Hn. clear Hpre.
    destruct (0 <? GoEvent.asyncCount (Name e) (s_ge s)) eqn:E0;
      (split; [tauto |]); [lia | tauto].
  - tauto.
  - tauto.
Qed.

Lemma op_swf_done s s' : swf s → op s s' →
  ∀ h dh, s_heap s' !! h = Some dh →
    (count_if (watch_live h) (s_gs s')
     + (if DispatchHandle.done dh then 1 else 0)
     + (if dispatching h (s_main s') then 1 else 0) = 1)%nat.
Proof.
  intros Hs Hop h' dh' Hl. pose proof (swf_done s Hs) as Hd.
  pose proof (swf_main s Hs) as Hm. unfold main_ok in Hm.
  pose proof (swf_gs s Hs) as Hg.
  destruct Hop; main_rewrite; try heap_lookup;
    rewrite ?count_if_snoc; simpl;
    try (erewrite count_if_insert_same
           by (done || by destruct (after_call l e)));
    try (by apply Hd).
  all: try (repeat match goal with
            | H : s_heap _ !! _ = Some _ |- _ => apply Hd in H
            end; simpl in *;
            repeat case_match; simpl in *;
            try case_bool_decide; try lia; done).
  - apply lookup_app_Some in Hl as [Hl|[Hlen Hl]].
    + pose proof (lookup_lt_Some _ _ _ Hl).
      rewrite bool_decide_eq_false_2 by lia. by apply Hd.
    + apply list_lookup_singleton_Some in Hl as [Hz <-]. simpl.
      replace h' with (length (s_heap s)) by lia.
      rewrite bool_decide_eq_true_2 by done.
      rewrite watch_live_fresh; [done | by apply go_handle_fresh].
  - match goal with H : s_gs _ !! _ = Some _ |- _ =>
      pose proof (count_if_insert (watch_live h) _ _ _ (GoWatcher h WExit) H)
        as Hc
    end. simpl in Hc. rewrite bool_decide_eq_true_2 in Hc by done.
    apply Hd in E.
    match goal with H : DispatchHandle.done _ = false |- _ =>
      rewrite H in E
    end. lia.
  - erewrite count_if_insert_same; [by apply Hd | done |].
    simpl. by rewrite bool_decide_eq_false_2.
Qed.

Lemma op_swf s s' : swf s → op s s' → fits s' → swf s'.
Proof.
  intros Hs Hop Hfit. constructor.
  - by apply (op_swf_ge s).
  - by apply (op_swf_handle s).
  - by apply (op_counts s).
  - by apply (op_main_ok s).
  - by apply (op_swf_gs s).
  - by apply (op_swf_done s).
Qed.

Lemma swf_Start : swf Start.
Proof.
  constructor; try done.
Qed.

(** No operation of a state of the program panics. *)
Lemma step_no_panic st s msg : swf s → step st s ≠ Panic msg.
Proof.
  intros Hs. pose proof (swf_ge s Hs) as Hge.
  pose proof (swf_handle s Hs) as Hh. pose proof (swf_main s Hs) as Hm.
  pose proof (swf_gs s Hs) as Hg. pose proof (swf_done s Hs) as Hd.
  unfold main_ok in Hm. unfold not.
  destruct st as [ls| |e| |i]; simpl; try (by destruct (is_idle s)).
  - unfold caller_step. destruct (s_main s) as [|h e pc] eqn:Em; [done |].
    destruct Hm as [Hlt Hm]. apply lookup_lt_is_Some in Hlt as [dh Hdh].
    pose proof (Hh _ _ Hdh) as Hw. simpl in *.
    destruct pc as [|n|n|n|todo cur]; try done.
    + unfold WaitGroup.Add. destruct (_ <? 0) eqn:E0; [lia | done].
    + rewrite Hdh. unfold WaitGroup.Add.
      destruct (_ <? 0) eqn:E0; [lia | done].
    + destruct cur as [[l p]|];
        [by destruct todo, (handler_step Caller l h e p s) |].
      destruct todo as [|sub todo]; [done |].
      destruct (Bus.sub_async sub); [done |].
      by destruct (Listener.OnEvent (Bus.sub_listener sub) e).
  - unfold go_step. destruct (s_gs s !! i) as [g|] eqn:Eg; [|done].
    pose proof (proj1 (Forall_lookup _ _) Hg i g Eg) as Hlt.
    destruct g as [l h e pc|h pc]; simpl in Hlt;
      apply lookup_lt_is_Some in Hlt as [dh Hdh].
    + destruct pc as [p| | |]; try done.
      * by destruct (handler_step (Started i) l h e p s).
      * pose proof (count_if_delete ge_live _ _ _ Eg) as Hc. simpl in Hc.
        unfold WaitGroup.Done, WaitGroup.Add.
        destruct (_ <? 0) eqn:E0; [|done].
        assert (0 <= credit_ge (s_main s)); [|lia].
        unfold credit_ge, announced. repeat case_match; lia.
      * rewrite Hdh.
        pose proof (count_if_delete (h_live h) _ _ _ Eg) as Hc. simpl in Hc.
        rewrite bool_decide_eq_true_2 in Hc by done.
        pose proof (Hh _ _ Hdh) as Hw.
        unfold WaitGroup.Done, WaitGroup.Add.
        destruct (_ <? 0) eqn:E0; [|done].
        assert (0 <= credit_h h (s_main s)); [|lia].
        unfold credit_h, announced. repeat case_match; lia.
    + rewrite Hdh. destruct pc; try done.
      * unfold DispatchHandle.Wait, WaitGroup.Wait.
        by destruct (DispatchHandle.wg dh =? 0).
      * pose proof (count_if_delete (watch_live h) _ _ _ Eg) as Hc.
        simpl in Hc. rewrite bool_decide_eq_true_2 in Hc by done.
        pose proof (Hd _ _ Hdh) as Hw.
        unfold DispatchHandle.markDone.
        destruct (DispatchHandle.done dh); [lia | done].
Qed.

(** ** Executions *)

Lemma step_bus_mono st s s' : step st s = Ok s' →
  (length (GoEvent.bus (s_ge s)) <= length (GoEvent.bus (s_ge s')))%nat.
Proof.
  destruct st as [ls| |e| |i]; simpl.
  - case_match; [|done]. intros [= <-]. simpl.
    rewrite register_bus, length_app. lia.
  - case_match; [|done]. by intros [= <-].
  - case_match; [|done]. by intros [= <-].
  - unfold caller_step. destruct (s_main s) as [|h e pc]; [done |].
    destruct pc as [|n|n|n|todo cur]; cbv zeta.
    + by intros [= <-].
    + unfold WaitGroup.Add. case_match; [done |]. by intros [= <-].
    + case_match; [|done]. unfold WaitGroup.Add. case_match; [done |].
      by intros [= <-].
    + by intros [= <-].
    + destruct cur as [[l p]|].
      * destruct p; destruct todo; rewrite ?after_call_eq; simpl;
          by intros [= <-].
      * destruct todo as [|sub todo]; [by intros [= <-] |].
        destruct (Bus.sub_async sub); [by intros [= <-] |].
        rewrite after_call_eq. by intros [= <-].
  - unfold go_step. destruct (s_gs s !! i) as [[l h e pc|h pc]|]; [| |done].
    + destruct pc as [p| | |]; [| | |done].
      * destruct p; rewrite ?after_call_eq; simpl; by intros [= <-].
      * unfold WaitGroup.Done, WaitGroup.Add. case_match; [done |].
        by intros [= <-].
      * case_match; [|done].
        unfold WaitGroup.Done, WaitGroup.Add. case_match; [done |].
        by intros [= <-].
    + destruct pc; [| |done].
      * case_match; [|done]. unfold DispatchHandle.Wait, WaitGroup.Wait.
        case_match; [|done]. by intros [= <-].
      * case_match; [|done]. unfold DispatchHandle.markDone.
        case_match; [done |]. by intros [= <-].
Qed.

Lemma steps_bus_mono sts s s' : steps sts s = Ok s' →
  (length (GoEvent.bus (s_ge s)) <= length (GoEvent.bus (s_ge s')))%nat.
Proof.
  revert s. induction sts as [|st sts IH]; intros s; simpl.
  - by intros [= <-].
  - destruct (step st s) as [s1| |] eqn:E; try done.
    cbn [mbind Outcome_bind]. intros H.
    apply step_bus_mono in E. apply IH in H. lia.
Qed.

(** An invariant of the operations holds in every state of the
    program. *)
Lemma steps_invariant (P : State → Prop) :
  (∀ s s', swf s → P s → op s s' → P s') →
  ∀ sts s0 s, swf s0 → P s0 → steps sts s0 = Ok s → fits s → swf s ∧ P s.
Proof.
  intros Hstep sts. induction sts as [|st sts IH]; intros s0 s Hs0 HP; simpl.
  - by intros [= <-].
  - destruct (step st s0) as [s1| |] eqn:E; try done.
    cbn [mbind Outcome_bind]. intros Hrun Hfit.
    pose proof (step_op _ _ _ Hs0 E) as Hop.
    apply (IH s1); [|by eapply Hstep|done..].
    apply (op_swf s0); [done.. |].
    unfold fits in *. apply steps_bus_mono in Hrun. lia.
Qed.

Lemma running_invariant (P : State → Prop) :
  P Start →
  (∀ s s', swf s → P s → op s s' → P s') →
  ∀ s, running s → fits s → P s.
Proof.
  intros H0 Hstep s [sts Hrun] Hfit.
  by apply (steps_invariant P Hstep sts Start s swf_Start H0).
Qed.

Lemma running_swf s : running s → fits s → swf s.
Proof.
  intros [sts Hrun] Hfit.
  by apply (steps_invariant (fun _ => True) (fun _ _ _ _ _ => I)
              sts Start s swf_Start I).
Qed.

(** ** The history *)

Lemma op_gs_length s s' : op s s' →
  (length (s_gs s) <= length (s_gs s'))%nat.
Proof.
  destruct 1; simpl; rewrite ?length_insert, ?length_app; simpl; lia.
Qed.

Lemma hist_ok_mono (nh ng nh' ng' : nat) hist :
  (nh <= nh')%nat → (ng <= ng')%nat →
  Forall (fun a =>
            (∀ h, act_handle a = Some h → (h < nh)%nat) ∧
            (∀ i, act_go a = Some i → (i < ng)%nat)) hist →
  Forall (fun a =>
            (∀ h, act_handle a = Some h → (h < nh')%nat) ∧
            (∀ i, act_go a = Some i → (i < ng')%nat)) hist.
Proof.
  intros Hh Hg H. eapply Forall_impl; [exact H |]. simpl.
  intros a [H1 H2]. split.
  - intros h E. specialize (H1 h E). lia.
  - intros i E. specialize (H2 i E). lia.
Qed.

Lemma op_hist_ok s s' : swf s → hist_ok s → op s s' → hist_ok s'.
Proof.
  intros Hs Hk Hop. unfold hist_ok in *.
  pose proof (op_heap_length s s' Hop) as Hlh.
  pose proof (op_gs_length s s' Hop) as Hlg.
  pose proof (hist_ok_mono _ _ _ _ _ Hlh Hlg Hk) as Hk'. clear Hk.
  pose proof (swf_main s Hs) as Hm. unfold main_ok in Hm.
  pose proof (swf_gs s Hs) as Hg.
  destruct Hop; main_rewrite; try done;
    (apply Forall_app; split; [done |]); (constructor; [|done]);
    simpl; (split; intros ? [= <-] || intros ? ?; try done).
  all: rewrite ?length_app, ?length_alter, ?length_insert in *; simpl; try lia.
  all: try (match goal with H : s_gs _ !! _ = Some _ |- _ =>
              pose proof (lookup_lt_Some _ _ _ H);
              pose proof (proj1 (Forall_lookup _ _) Hg _ _ H) end;
            simpl in *; lia).
Qed.

Lemma prelude_snoc h hist a :
  prelude h (hist ++ [a]) =
  prelude h hist ++ (if is_prelude h a then [a] else []).
Proof.
  unfold prelude. rewrite List.filter_app. simpl. by destruct (is_prelude h a).
Qed.

Lemma prelude_fresh s h :
  hist_ok s → (length (s_heap s) <= h)%nat → prelude h (s_hist s) = [].
Proof.
  unfold hist_ok, prelude. intros Hk Hle.
  induction Hk as [|a hist [Ha _] _ IH]; [done |]. simpl.
  destruct (is_prelude h a) eqn:E; [|done].
  destruct a; simpl in E; try done; apply bool_decide_eq_true in E as ->;
    specialize (Ha _ eq_refl); lia.
Qed.

Lemma in_prelude h a hist :
  is_prelude h a = true → In a hist ↔ In a (prelude h hist).
Proof.
  intros Ha. unfold prelude. rewrite List.filter_In. tauto.
Qed.

Lemma prelude_other h a hist :
  is_prelude h a = false →
  prelude h (hist ++ [a]) = prelude h hist.
Proof. intros E. by rewrite prelude_snoc, E, app_nil_r. Qed.

Lemma snoc_split {A} (hist : list A) a t1 b t2 :
  hist ++ [a] = t1 ++ b :: t2 →
  (∃ t2', t2 = t2' ++ [a] ∧ hist = t1 ++ b :: t2') ∨
  (t2 = [] ∧ b = a ∧ t1 = hist).
Proof.
  destruct t2 as [|c t2 _] using rev_ind.
  - intros H. apply app_inj_tail in H as [-> ->]. by right.
  - rewrite app_comm_cons, app_assoc. intros H.
    apply app_inj_tail in H as [-> ->]. left. by exists t2.
Qed.

Lemma in_snoc {A} (x a : A) hist : In x (hist ++ [a]) ↔ In x hist ∨ x = a.
Proof.
  rewrite in_app_iff. simpl.
  split; [intros [?|[?|[]]]; auto | intros [?|?]; auto].
Qed.

Lemma adds_pos h n : 0 < n → adds h n = [AAddGe h n; AAddHandle h n].
Proof. intros H. unfold adds. by rewrite (proj2 (Z.ltb_lt 0 n) H). Qed.

Lemma not_published h e n hist :
  prelude h hist = [ADispatch h e; ARead h n] ++ adds h n ∨
  prelude h hist = [ADispatch h e; ARead h n; AAddGe h n] ∨
  prelude h hist = [ADispatch h e; ARead h n] ∨
  prelude h hist = [ADispatch h e] ∨
  prelude h hist = [] →
  ¬ In (APublish h) hist.
Proof.
  intros H Hin. apply (in_prelude h) in Hin; [|simpl; by apply bool_decide_eq_true_2].
  unfold adds in H.
  destruct H as [H|[H|[H|[H|H]]]]; rewrite H in Hin; simpl in Hin;
    try case_match; simpl in Hin;
    repeat (destruct Hin as [Hin|Hin]; [done |]); done.
Qed.

Lemma prelude_at_other h e pc hist a :
  is_prelude h a = false →
  prelude_at h e pc hist → prelude_at h e pc (hist ++ [a]).
Proof. intros E. unfold prelude_at. by rewrite prelude_other. Qed.

Lemma op_pre_main s s' : swf s → hist_ok s → prelude_ok s → op s s' →
  ∀ h e pc, s_main s' = Dispatching h e pc → prelude_at h e pc (s_hist s').
Proof.
  intros Hs Hk Hp Hop h0 e0 pc0 Em'.
  pose proof (pre_main s Hp) as Hm.
  pose proof (swf_main s Hs) as Hok. unfold main_ok in Hok.
  destruct Hop; main_rewrite; simplify_eq/=;
    try (specialize (Hm _ _ _ eq_refl); simpl in Hm);
    rewrite ?prelude_snoc; simpl; rewrite ?bool_decide_eq_true_2 by done;
    rewrite ?app_nil_r; try done.
  all: try (apply prelude_at_other; [done | by apply Hm]).
  - by rewrite prelude_fresh.
  - destruct (0 <? _) eqn:E0; simpl; rewrite prelude_snoc; simpl;
      rewrite bool_decide_eq_true_2 by done; rewrite Hm; [done |].
    unfold adds. by rewrite E0.
  - by rewrite Hm.
  - rewrite Hm, adds_pos; [done | tauto].
  - exists n. by rewrite Hm.
Qed.


Lemma op_hist s s' : op s s' →
  s_hist s' = s_hist s ∨ ∃ a, s_hist s' = s_hist s ++ [a].
Proof. destruct 1; simpl; eauto. Qed.

Lemma op_in_hist s s' x : op s s' → In x (s_hist s) → In x (s_hist s').
Proof.
  intros Hop Hin. destruct (op_hist s s' Hop) as [->|[a ->]]; [done |].
  apply in_snoc. by left.
Qed.

Lemma op_pre_go s s' : prelude_ok s → op s s' →
  ∀ i g, s_gs s' !! i = Some g → In (APublish (go_handle g)) (s_hist s').
Proof.
  intros Hp Hop i0 g0 Hi. apply (op_in_hist s s' _ Hop).
  pose proof (pre_go s Hp) as Hg. pose proof (pre_main s Hp) as Hm.
  assert (Hpub : ∀ h e todo cur,
    s_main s = Dispatching h e (DPublish todo cur) →
    In (APublish h) (s_hist s)).
  { intros h e todo cur Em. destruct (Hm _ _ _ Em) as [n Hn].
    apply (in_prelude h); [simpl; by apply bool_decide_eq_true_2 |].
    rewrite Hn. simpl. rewrite in_app_iff. simpl. tauto. }
  destruct Hop; simpl in *; try (by eapply Hg).
  all: try (apply lookup_app_Some in Hi as [Hi|[_ Hi]]; [by eapply Hg |];
            apply list_lookup_singleton_Some in Hi as [_ <-]; simpl;
            by eapply Hpub).
  all: destruct (decide (i = i0)) as [->|Hne];
    [ rewrite list_lookup_insert_eq in Hi by (by eapply lookup_lt_Some);
      simplify_eq/=;
      match goal with H : s_gs _ !! _ = Some _ |- _ => apply Hg in H end;
      done
    | rewrite list_lookup_insert_ne in Hi by done; by eapply Hg ].
Qed.

Lemma op_pre_published s s' : swf s → hist_ok s → prelude_ok s → op s s' →
  ∀ h, In (APublish h) (s_hist s') →
    ∃ e n, prelude h (s_hist s') =
           [ADispatch h e; ARead h n] ++ adds h n ++ [APublish h].
Proof.
  intros Hs Hk Hp Hop h0 Hin.
  pose proof (pre_main s Hp) as Hm. pose proof (pre_published s Hp) as Hpub.
  pose proof (swf_main s Hs) as Hok. unfold main_ok in Hok.
  destruct Hop; main_rewrite; try (by apply Hpub);
    try (specialize (Hm _ _ _ eq_refl); simpl in Hm);
    apply in_snoc in Hin as [Hin|Hin]; try done;
    try (rewrite prelude_other by done; by apply Hpub).
  - destruct (decide (h0 = length (s_heap s))) as [->|Hne].
    + exfalso. eapply (not_published _ e 0); [|exact Hin].
      rewrite prelude_fresh by done. tauto.
    + rewrite prelude_other by (simpl; apply bool_decide_eq_false_2; congruence).
      by apply Hpub.
  - destruct (decide (h0 = h)) as [->|Hne].
    + exfalso. eapply (not_published _ e 0); [|exact Hin]. rewrite Hm. tauto.
    + rewrite prelude_other by (simpl; apply bool_decide_eq_false_2; congruence).
      by apply Hpub.
  - destruct (decide (h0 = h)) as [->|Hne].
    + exfalso. eapply (not_published _ e n); [|exact Hin]. rewrite Hm. tauto.
    + rewrite prelude_other by (simpl; apply bool_decide_eq_false_2; congruence).
      by apply Hpub.
  - destruct (decide (h0 = h)) as [->|Hne].
    + exfalso. eapply (not_published _ e n); [|exact Hin]. rewrite Hm. tauto.
    + rewrite prelude_other by (simpl; apply bool_decide_eq_false_2; congruence).
      by apply Hpub.
  - destruct (decide (h0 = h)) as [->|Hne].
    + exfalso. eapply (not_published _ e n); [|exact Hin]. rewrite Hm. tauto.
    + rewrite prelude_other by (simpl; apply bool_decide_eq_false_2; congruence).
      by apply Hpub.
  - injection Hin as ->. exists e, n. rewrite prelude_snoc. simpl.
    rewrite bool_decide_eq_true_2 by done. by rewrite Hm.
Qed.

Lemma op_pre_deliveries s s' : swf s → prelude_ok s → op s s' →
  ∀ h t1 a t2, s_hist s' = t1 ++ a :: t2 →
    is_delivery h a = true → In (APublish h) t1.
Proof.
  intros Hs Hp Hop h0 t1 a0 t2 Hsplit Hdel.
  pose proof (pre_main s Hp) as Hm. pose proof (pre_deliveries s Hp) as Hd.
  pose proof (pre_go s Hp) as Hg.
  assert (Hpub : ∀ h e todo cur,
    s_main s = Dispatching h e (DPublish todo cur) →
    In (APublish h) (s_hist s)).
  { intros h e todo cur Em. destruct (Hm _ _ _ Em) as [n Hn].
    apply (in_prelude h); [simpl; by apply bool_decide_eq_true_2 |].
    rewrite Hn. simpl. rewrite in_app_iff. simpl. tauto. }
  destruct Hop; simpl in *; try (by apply (Hd _ _ _ _ Hsplit Hdel));
    apply snoc_split in Hsplit as [(t2' & -> & Hsplit)|(-> & -> & ->)];
    try (by apply (Hd _ _ _ _ Hsplit Hdel)); try done; simpl in Hdel;
    apply bool_decide_eq_true in Hdel as <-.
  - match goal with H : s_main _ = _ |- _ => by apply Hpub in H end.
  - match goal with H : s_main _ = _ |- _ => by apply Hpub in H end.
  - match goal with H : s_gs _ !! _ = Some _ |- _ => by apply Hg in H end.
Qed.

Lemma op_prelude_ok s s' :
  swf s → hist_ok s ∧ prelude_ok s → op s s' → hist_ok s' ∧ prelude_ok s'.
Proof.
  intros Hs [Hk Hp] Hop. split; [by apply (op_hist_ok s) |]. constructor.
  - by apply (op_pre_main s).
  - by apply (op_pre_published s).
  - by apply (op_pre_deliveries s).
  - by apply (op_pre_go s).
Qed.

Lemma prelude_ok_Start : hist_ok Start ∧ prelude_ok Start.
Proof.
  split; [by constructor |]. constructor; simpl; try done.
  intros h t1 a t2 H. by destruct t1.
Qed.

Lemma running_prelude_ok s : running s → fits s → hist_ok s ∧ prelude_ok s.
Proof.
  apply (running_invariant (fun s => hist_ok s ∧ prelude_ok s)).
  - apply prelude_ok_Start.
  - intros s1 s2 Hs HP Hop. by apply (op_prelude_ok s1).
Qed.

Lemma snoc_unique {A} (l1 l2 l : list A) x :
  l1 ++ x :: l2 = l ++ [x] → ¬ In x l → l1 = l ∧ l2 = [].
Proof.
  revert l. induction l1 as [|y l1 IH]; intros [|z l]; simpl.
  - by intros [= ->].
  - intros [= <- H] Hin. tauto.
  - intros [= -> H]. by destruct l1.
  - intros [= <- H] Hin. destruct (IH l H) as [-> ->]; [tauto | done].
Qed.

(** A call of [Dispatch] in progress can always go on. *)
Lemma caller_progress s h e pc :
  swf s → s_main s = Dispatching h e pc → ∃ s', step StCaller s = Ok s'.
Proof.
  intros Hs Em.
  destruct (step StCaller s) as [s'| |msg] eqn:E; [by eauto | |].
  - exfalso. simpl in E. unfold caller_step in E. rewrite Em in E.
    pose proof (swf_main s Hs) as Hm. unfold main_ok in Hm. rewrite Em in Hm.
    destruct Hm as [Hlt Hm]. apply lookup_lt_is_Some in Hlt as [dh Hdh].
    pose proof (swf_handle s Hs _ _ Hdh) as Hw.
    pose proof (swf_ge s Hs) as Hge. rewrite Em in *. simpl in *.
    destruct pc as [|n|n|n|todo cur]; try done.
    + unfold WaitGroup.Add in E. by destruct (_ <? 0).
    + rewrite Hdh in E. unfold WaitGroup.Add in E. by destruct (_ <? 0).
    + destruct cur as [[l p]|];
        [by destruct todo, (handler_step Caller l h e p s) |].
      destruct todo as [|sub todo]; [done |].
      destruct (Bus.sub_async sub); [done |].
      by destruct (Listener.OnEvent (Bus.sub_listener sub) e).
  - by destruct (step_no_panic StCaller s msg Hs).
Qed.


(** ** The goroutines of asynchronous calls *)

Lemma thread_snoc i hist a :
  thread i (hist ++ [a]) = thread i hist ++ (if by_go i a then [a] else []).
Proof.
  unfold thread. rewrite List.filter_app. simpl. by destruct (by_go i a).
Qed.

Lemma thread_other i hist a :
  by_go i a = false → thread i (hist ++ [a]) = thread i hist.
Proof. intros E. by rewrite thread_snoc, E, app_nil_r. Qed.

Lemma thread_fresh s i :
  hist_ok s → (length (s_gs s) <= i)%nat → thread i (s_hist s) = [].
Proof.
  unfold hist_ok, thread. intros Hk Hle.
  induction Hk as [|a hist [_ Ha] _ IH]; [done |]. simpl.
  destruct (by_go i a) eqn:E; [|done].
  destruct a as [| | | | | |[]|[]|[]| | | | |]; simpl in E; try done;
    apply bool_decide_eq_true in E as ->;
    specialize (Ha _ eq_refl); lia.
Qed.

Lemma after_call_ok l e : apc_ok l e (apc_of (after_call l e)).
Proof. unfold after_call. by destruct (failure l e) eqn:E. Qed.

Lemma script_after_call i l h e :
  script i l h e (apc_of (after_call l e)) = [ACall (Started i) h l e].
Proof. unfold after_call. by destruct (failure l e) eqn:E; simpl; rewrite ?E. Qed.

Lemma op_thread_ok s s' : swf s → hist_ok s → (∀ i, thread_ok s i) → op s s' →
  ∀ i, thread_ok s' i.
Proof.
  intros Hs Hk Ht Hop j. pose proof (Ht j) as Hj.
  pose proof (thread_fresh s (length (s_gs s)) Hk (le_n _)) as Hnew.
  unfold thread_ok in *.
  destruct Hop; simpl in *; try done;
    try (rewrite thread_other by done); try done.
  1,2: destruct (decide (j < length (s_gs s))%nat) as [Hlt|Hge];
    [ by rewrite lookup_app_l
    | rewrite lookup_app_r by lia;
      destruct (j - length (s_gs s))%nat as [|k] eqn:Ek; simpl;
      [ replace j with (length (s_gs s)) by lia; by rewrite ?Hnew
      | rewrite lookup_ge_None_2 in Hj by lia; done ] ].
  all: destruct (decide (i = j)) as [<-|Hne];
    [ rewrite list_lookup_insert_eq by (by eapply lookup_lt_Some);
      match goal with
      | H : s_gs _ !! _ = Some (GoWatcher _ _) |- _ => by rewrite H in Hj
      | H : s_gs _ !! _ = Some (GoAsync _ _ _ _) |- _ =>
          rewrite H in Hj; destruct Hj as [Hj Hpc]; simpl in Hpc;
          rewrite ?thread_snoc; simpl; rewrite ?bool_decide_eq_true_2 by done;
          rewrite ?Hj, ?script_after_call, ?Hpc; simpl;
          rewrite <- ?app_assoc; try done; split; try done;
          apply after_call_ok
      end
    | rewrite list_lookup_insert_ne by done;
      try (rewrite thread_other
             by (simpl; apply bool_decide_eq_false_2; congruence));
      done ].
Qed.

Lemma running_threads s : running s → fits s → ∀ i, thread_ok s i.
Proof.
  intros Hrun Hfit.
  apply (running_invariant
           (fun s => (hist_ok s ∧ prelude_ok s) ∧ ∀ i, thread_ok s i));
    [| |done..].
  - split; [apply prelude_ok_Start |]. intros i. by unfold thread_ok.
  - intros s1 s2 Hs [HP Ht] Hop. split; [by apply (op_prelude_ok s1) |].
    apply (op_thread_ok s1); tauto.
Qed.

Lemma credit_ge_nonneg s : swf s → 0 <= credit_ge (s_main s).
Proof.
  intros Hs. pose proof (swf_main s Hs) as Hm. unfold main_ok in Hm.
  destruct (s_main s) as [|h e [|n|n|n|todo cur]]; simpl; try lia.
  unfold announced. case_match; lia.
Qed.

Lemma credit_h_nonneg h m : 0 <= credit_h h m.
Proof.
  unfold credit_h, announced. repeat case_match; try lia.
  all: match goal with H : (0 <? _) = true |- _ => apply Z.ltb_lt in H end; lia.
Qed.

(** One operation of a goroutine of an asynchronous call that is not
    over: it is enabled, it brings the run nearer to its end, and it
    changes the counters only in the two [Done]s, by one each. *)
Lemma go_progress s i l h e pc :
  swf s → s_gs s !! i = Some (GoAsync l h e pc) → pc ≠ AExit →
  ∃ s' pc',
    step (StGo i) s = Ok s' ∧
    (s_gs s' = <[i := GoAsync l h e pc']> (s_gs s) ∧ s_main s' = s_main s) ∧
    ((rank pc' < rank pc)%nat ∧
     match pc with
     | AHandler _ => ge_live (GoAsync l h e pc') = true
     | AGeDone => pc' = AHandleDone
     | _ => pc' = AExit
     end) ∧
    GoEvent.bus (s_ge s') = GoEvent.bus (s_ge s) ∧
    GoEvent.wg (s_ge s') =
      GoEvent.wg (s_ge s) - match pc with AGeDone => 1 | _ => 0 end ∧
    ∀ h', DispatchHandle.wg <$> s_heap s' !! h' =
          (fun c => c - match pc with
                        | AHandleDone => if decide (h' = h) then 1 else 0
                        | _ => 0
                        end) <$> (DispatchHandle.wg <$> s_heap s !! h').
Proof.
  intros Hs Eg Hpc.
  pose proof (lookup_lt_Some _ _ _ Eg) as Hi.
  pose proof (proj1 (Forall_lookup _ _) (swf_gs s Hs) i _ Eg) as Hlt.
  simpl in Hlt. apply lookup_lt_is_Some in Hlt as [dh Hdh].
  assert (Hfmap : ∀ h' (f : DispatchHandle.t → DispatchHandle.t),
    (∀ x, DispatchHandle.wg (f x) = DispatchHandle.wg x) →
    DispatchHandle.wg <$> alter f h (s_heap s) !! h' =
    (fun c => c - 0) <$> (DispatchHandle.wg <$> s_heap s !! h')).
  { intros h' f Hf. rewrite list_lookup_alter.
    destruct (decide (h = h')) as [<-|Hne].
    - destruct (s_heap s !! h); simpl; [|done]. rewrite Hf.
      f_equal. lia.
    - destruct (s_heap s !! h'); simpl; [f_equal; lia | done]. }
  assert (Hsame : ∀ h',
    DispatchHandle.wg <$> s_heap s !! h' =
    (fun c => c - 0) <$> (DispatchHandle.wg <$> s_heap s !! h')).
  { intros h'. destruct (s_heap s !! h'); simpl; [f_equal; lia | done]. }
  simpl. unfold go_step. rewrite Eg.
  destruct pc as [p| | |]; [| | |done].
  - destruct p as [|ee|ee].
    + rewrite after_call_eq. eexists _, _. split; [done |]. simpl.
      split; [done |]. split; [|split; [done |split; [lia |done]]].
      unfold after_call. destruct (failure l e); simpl; split; (lia || done).
    + simpl. eexists _, _. split; [done |]. simpl.
      split; [done |]. split; [simpl; split; [lia | done] |]. split; [done |]. split; [lia |].
      intros h'. by apply Hfmap.
    + simpl. eexists _, _. split; [done |]. simpl.
      split; [done |]. split; [simpl; split; [lia | done] |]. split; [done |]. split; [lia | done].
  - pose proof (count_if_delete ge_live _ _ _ Eg) as Hc. simpl in Hc.
    pose proof (swf_ge s Hs) as Hge.
    pose proof (credit_ge_nonneg s Hs).
    unfold WaitGroup.Done, WaitGroup.Add.
    destruct (_ <? 0) eqn:E0; [lia |]. cbn [mbind Outcome_bind].
    eexists _, _. split; [done |]. simpl.
    split; [done |]. split; [simpl; split; [lia | done] |]. split; [done |]. split; [lia | done].
  - rewrite Hdh.
    pose proof (count_if_delete (h_live h) _ _ _ Eg) as Hc. simpl in Hc.
    rewrite bool_decide_eq_true_2 in Hc by done.
    pose proof (swf_handle s Hs _ _ Hdh) as Hw.
    pose proof (credit_h_nonneg h (s_main s)).
    unfold WaitGroup.Done, WaitGroup.Add.
    destruct (_ <? 0) eqn:E0; [lia |]. cbn [mbind Outcome_bind].
    eexists _, _. split; [done |]. simpl.
    split; [done |]. split; [simpl; split; [lia | done] |]. split; [done |]. split; [lia |].
    intros h'. rewrite list_lookup_alter.
    destruct (decide (h = h')) as [<-|Hne].
    + rewrite decide_True by done. rewrite Hdh. done.
    + rewrite decide_False by done.
      destruct (s_heap s !! h'); simpl; [f_equal; lia | done].
Qed.


(** Run alone, the goroutine of an asynchronous call reaches its end,
    and from its start to its end it has lowered the global counter and
    the counter of its handle by one each. *)
Lemma go_runs_out n : ∀ s i l h e pc,
  swf s → fits s → s_gs s !! i = Some (GoAsync l h e pc) →
  (rank pc <= n)%nat →
  ∃ k s',
    steps (replicate k (StGo i)) s = Ok s' ∧ swf s' ∧
    s_gs s' = <[i := GoAsync l h e AExit]> (s_gs s) ∧
    s_main s' = s_main s ∧
    GoEvent.bus (s_ge s') = GoEvent.bus (s_ge s) ∧
    GoEvent.wg (s_ge s') =
      GoEvent.wg (s_ge s) - (if ge_live (GoAsync l h e pc) then 1 else 0) ∧
    ∀ h', DispatchHandle.wg <$> s_heap s' !! h' =
          (fun c => c - if h_live h' (GoAsync l h e pc) then 1 else 0)
            <$> (DispatchHandle.wg <$> s_heap s !! h').
Proof.
  induction n as [|n IH]; intros s i l h e pc Hs Hfit Eg Hn.
  - destruct pc as [[]| | |]; simpl in Hn; try lia.
    exists 0%nat, s. simpl. split; [done |]. split; [done |].
    split; [by rewrite list_insert_id |]. split; [done |]. split; [done |].
    split; [lia |].
    intros h'. destruct (s_heap s !! h'); simpl; [f_equal; lia | done].
  - assert (Hcase : pc = AExit ∨ pc ≠ AExit)
      by (destruct pc; (by left) || by right).
    destruct Hcase as [->|Hpc].
    { apply (IH s i l h e AExit); simpl; try done; lia. }
    destruct (go_progress s i l h e pc Hs Eg Hpc)
      as (s1 & pc1 & Hstep & [Hgs Hmain] & [Hr Hnext] & Hbus & Hwg & Hh).
    assert (Hs1 : swf s1).
    { apply (op_swf s); [done | by eapply step_op |].
      unfold fits in *. by rewrite Hbus. }
    assert (Hfit1 : fits s1) by (unfold fits in *; by rewrite Hbus).
    assert (Eg1 : s_gs s1 !! i = Some (GoAsync l h e pc1)).
    { rewrite Hgs. apply list_lookup_insert_eq. by eapply lookup_lt_Some. }
    destruct (IH s1 i l h e pc1 Hs1 Hfit1 Eg1 ltac:(lia))
      as (k & s' & Hsteps & Hs' & Hgs' & Hmain' & Hbus' & Hwg' & Hh').
    exists (S k), s'. cbn [replicate steps]. rewrite Hstep.
    cbn [mbind Outcome_bind].
    split; [done |]. split; [done |].
    split; [by rewrite Hgs', Hgs, list_insert_insert_eq |].
    split; [congruence |]. split; [congruence |].
    split.
    + rewrite Hwg', Hwg.
      destruct pc as [[]| | |], pc1 as [[]| | |]; simpl in *; lia.
    + intros h'. rewrite Hh', Hh.
      destruct (s_heap s !! h'); simpl; [|done]. f_equal.
      destruct pc as [[]| | |], pc1 as [[]| | |]; simpl in *;
        repeat case_decide; repeat case_bool_decide; subst; try done; lia.
Qed.

Lemma steps_app sts1 sts2 s :
  steps (sts1 ++ sts2) s = s' ← steps sts1 s; steps sts2 s'.
Proof.
  revert s. induction sts1 as [|x sts IH]; intros s; simpl; [done |].
  destruct (step x s); simpl; [apply IH | done..].
Qed.

Lemma running_steps sts s s' : running s → steps sts s = Ok s' → running s'.
Proof.
  intros [sts0 H0] H. exists (sts0 ++ sts). by rewrite steps_app, H0.
Qed.

(** Publishing does not touch the counters. *)
Lemma publishing_counters s s' h e todo cur :
  s_main s = Dispatching h e (DPublish todo cur) →
  step StCaller s = Ok s' →
  GoEvent.wg (s_ge s') = GoEvent.wg (s_ge s) ∧
  ∀ h', DispatchHandle.wg <$> s_heap s' !! h' =
        DispatchHandle.wg <$> s_heap s !! h'.
Proof.
  intros Em. simpl. unfold caller_step. rewrite Em.
  assert (Hrec : ∀ ee h',
    DispatchHandle.wg <$>
      alter (DispatchHandle.recordError ee) h (s_heap s) !! h' =
    DispatchHandle.wg <$> s_heap s !! h').
  { intros ee h'. rewrite list_lookup_alter.
    destruct (decide (h = h')) as [<-|Hne]; [|done].
    by destruct (s_heap s !! h). }
  destruct cur as [[l p]|].
  - destruct p, todo; rewrite ?after_call_eq; simpl; intros [= <-]; simpl;
      auto.
  - destruct todo as [|sub todo]; [intros [= <-]; simpl; auto |].
    destruct (Bus.sub_async sub); [intros [= <-]; simpl; auto |].
    rewrite after_call_eq. intros [= <-]; simpl; auto.
Qed.

(** ** The logs *)

Lemma handle_records_snoc h hist a :
  handle_records h (hist ++ [a]) =
  handle_records h hist ++ option_list (recorded_on h a).
Proof.
  unfold handle_records. rewrite omap_app. simpl.
  by destruct (recorded_on h a).
Qed.

Lemma call_failures_snoc h hist a :
  call_failures h (hist ++ [a]) =
  call_failures h hist ++ option_list (failed_call h a).
Proof.
  unfold call_failures. rewrite omap_app. simpl.
  by destruct (failed_call h a).
Qed.

Lemma global_records_snoc hist a :
  global_records (hist ++ [a]) = global_step (global_records hist) a.
Proof. unfold global_records. by rewrite fold_left_app. Qed.

Lemma removed_snoc hist a : removed (hist ++ [a]) = removed hist ++ cleared a.
Proof.
  unfold removed. rewrite map_app, concat_app. simpl. by rewrite app_nil_r.
Qed.

Lemma handle_records_fresh s h :
  hist_ok s → (length (s_heap s) <= h)%nat → handle_records h (s_hist s) = [].
Proof.
  unfold hist_ok, handle_records. intros Hk Hle.
  induction Hk as [|a hist [Ha _] _ IH]; [done |]. simpl.
  destruct (recorded_on h a) eqn:E; [|done].
  destruct a; simpl in E; try done. case_decide; [|done]. subst.
  specialize (Ha _ eq_refl). lia.
Qed.

Lemma count_if_omap {A B} (p : B → bool) (f : A → option B) (l : list A) :
  count_if p (omap f l) = count_if (fun x => from_option p false (f x)) l.
Proof.
  induction l as [|x l IH]; [done |]. simpl.
  destruct (f x); simpl; [f_equal |]; exact IH.
Qed.

Lemma count_if_option_list {A} (p : A → bool) (o : option A) :
  count_if p (option_list o) = if from_option p false o then 1%nat else 0%nat.
Proof. destruct o; simpl; [|done]. by destruct (p a). Qed.

Lemma handle_logs_snoc heap dh :
  handle_logs (heap ++ [dh]) = handle_logs heap ++ DispatchHandle.errors dh.
Proof.
  unfold handle_logs. rewrite map_app, concat_app. simpl.
  by rewrite app_nil_r.
Qed.

Lemma handle_logs_alter (p : EventError → bool) f h heap dh :
  heap !! h = Some dh →
  (count_if p (handle_logs (alter f h heap))
   + count_if p (DispatchHandle.errors dh) =
   count_if p (handle_logs heap)
   + count_if p (DispatchHandle.errors (f dh)))%nat.
Proof.
  unfold handle_logs. revert h.
  induction heap as [|x heap IH]; intros [|h] H; simplify_eq/=.
  - rewrite !count_if_app. lia.
  - rewrite !count_if_app. specialize (IH h H). lia.
Qed.

Lemma handle_logs_alter_same (p : EventError → bool) f h heap :
  (∀ dh, DispatchHandle.errors (f dh) = DispatchHandle.errors dh) →
  count_if p (handle_logs (alter f h heap)) = count_if p (handle_logs heap).
Proof.
  intros Hf. unfold handle_logs. revert h.
  induction heap as [|x heap IH]; intros [|h]; simpl; try done.
  - by rewrite Hf.
  - rewrite !count_if_app. by rewrite <- (IH h).
Qed.

Lemma op_lf_handle s s' : swf s → hist_ok s → logs_fine s → op s s' →
  ∀ h dh, s_heap s' !! h = Some dh →
    DispatchHandle.errors dh = handle_records h (s_hist s').
Proof.
  intros Hs Hk Hl Hop h' dh' Hlook. pose proof (lf_handle s Hl) as Hh.
  destruct Hop; simpl in *; try heap_lookup;
    rewrite ?handle_records_snoc; simpl; rewrite ?app_nil_r;
    try (by apply Hh).
  - apply lookup_app_Some in Hlook as [Hlook|[Hlen Hlook]]; [by apply Hh |].
    apply list_lookup_singleton_Some in Hlook as [Hz <-]. simpl.
    by rewrite handle_records_fresh.
  - rewrite decide_True by done. simpl. f_equal. by apply Hh.
  - rewrite decide_False by done. simpl. rewrite app_nil_r. by apply Hh.
  - rewrite decide_True by done. simpl. f_equal. by apply Hh.
  - rewrite decide_False by done. simpl. rewrite app_nil_r. by apply Hh.
Qed.

Lemma op_lf_global s s' : logs_fine s → op s s' →
  GoEvent.errors (s_ge s') = global_records (s_hist s').
Proof.
  intros Hl Hop. pose proof (lf_global s Hl) as Hg.
  destruct Hop; simpl; rewrite ?global_records_snoc, ?register_errors; simpl;
    try done; by rewrite Hg.
Qed.

Ltac insert_fact q :=
  match goal with
  | H : s_gs ?s !! ?i = Some ?g |- context [<[?i := ?g']> (s_gs ?s)] =>
      let Hc := fresh "Hc" in
      pose proof (count_if_insert q _ _ _ g' H) as Hc; simpl in Hc
  end.

Lemma op_lf_calls s s' : swf s → hist_ok s → logs_fine s → op s s' →
  ∀ (p : EventError → bool) h,
    count_if p (call_failures h (s_hist s')) =
    (count_if p (handle_records h (s_hist s')) + count_if p (pending h s'))%nat.
Proof.
  intros Hs Hk Hl Hop p h'. pose proof (lf_calls s Hl p h') as Hc0.
  unfold pending in *. rewrite count_if_app, count_if_omap in *.
  destruct Hop; main_rewrite;
    rewrite ?call_failures_snoc, ?handle_records_snoc, ?count_if_app,
      ?count_if_option_list, ?count_if_snoc; simpl;
    try insert_fact (fun x => from_option p false (pending_go h' x));
    unfold after_call in *;
    repeat case_decide; simpl in *; try done;
    repeat match goal with
    | |- context [failure ?l ?e] => destruct (failure l e); simpl in *
    | H : context [failure ?l ?e] |- _ => destruct (failure l e); simpl in *
    end;
    repeat match goal with
    | |- context [p ?x] => destruct (p x); simpl in *
    | H : context [p ?x] |- _ => destruct (p x); simpl in *
    end;
    try lia.
Qed.

Lemma op_lf_all s s' : swf s → hist_ok s → logs_fine s → op s s' →
  ∀ p : EventError → bool,
    count_if p (handle_logs (s_heap s')) =
    (count_if p (removed (s_hist s')) + count_if p (GoEvent.errors (s_ge s'))
     + count_if p (inflight s'))%nat.
Proof.
  intros Hs Hk Hl Hop p. pose proof (lf_all s Hl p) as Hc0.
  pose proof (swf_main s Hs) as Hm. unfold main_ok in Hm.
  pose proof (swf_gs s Hs) as Hg.
  unfold inflight in *. rewrite count_if_app, count_if_omap in *.
  destruct Hop; main_rewrite;
    rewrite ?removed_snoc, ?handle_logs_snoc, ?register_errors, ?count_if_app,
      ?count_if_option_list, ?count_if_snoc; simpl;
    try insert_fact (fun x => from_option p false (inflight_go x));
    try (rewrite handle_logs_alter_same by done);
    unfold after_call in *;
    repeat match goal with
    | |- context [failure ?l ?e] => destruct (failure l e); simpl in *
    | H : context [failure ?l ?e] |- _ => destruct (failure l e); simpl in *
    end;
    try lia.
  - destruct Hm as [Hlt _]. apply lookup_lt_is_Some in Hlt as [dh Hdh].
    pose proof (handle_logs_alter p (DispatchHandle.recordError ee) _ _ _ Hdh)
      as Ha. simpl in Ha. rewrite count_if_app in Ha. simpl in Ha. lia.
  - match goal with H : s_gs _ !! _ = Some _ |- _ =>
      pose proof (proj1 (Forall_lookup _ _) Hg _ _ H) as Hlt
    end. simpl in Hlt. apply lookup_lt_is_Some in Hlt as [dh Hdh].
    pose proof (handle_logs_alter p (DispatchHandle.recordError ee) _ _ _ Hdh)
      as Ha. simpl in Ha. rewrite count_if_app in Ha. simpl in Ha. lia.
  - match goal with H : s_heap _ !! _ = Some _ |- _ =>
      pose proof (handle_logs_alter p (fun _ => closed_handle dh) _ _ _ H)
        as Ha
    end. simpl in Ha. lia.
Qed.

Lemma op_logs_fine s s' :
  swf s → hist_ok s → logs_fine s → op s s' → logs_fine s'.
Proof.
  intros Hs Hk Hl Hop. constructor.
  - by apply (op_lf_handle s).
  - by apply (op_lf_global s).
  - by apply (op_lf_calls s).
  - by apply (op_lf_all s).
Qed.

Lemma running_logs_fine s : running s → fits s → logs_fine s.
Proof.
  intros Hrun Hfit.
  apply (running_invariant
           (fun s => (hist_ok s ∧ prelude_ok s) ∧ logs_fine s));
    [| |done..].
  - split; [apply prelude_ok_Start |]. by constructor.
  - intros s1 s2 Hs [HP Hl] Hop. split; [by apply (op_prelude_ok s1) |].
    apply (op_logs_fine s1); tauto.
Qed.

(** Two lists with the same count for every property are
    permutations of each other. *)
Lemma count_if_Permutation {A} `{EqDecision A} (l1 l2 : list A) :
  (∀ p : A → bool, count_if p l1 = count_if p l2) → l1 ≡ₚ l2.
Proof.
  revert l2. induction l1 as [|x l1 IH]; intros l2 H.
  - specialize (H (fun _ => true)). rewrite !count_if_true in H by done.
    simpl in H. symmetry in H. by apply nil_length_inv in H as ->.
  - pose proof (H (fun y => bool_decide (y = x))) as Hx. simpl in Hx.
    rewrite bool_decide_eq_true_2 in Hx by done.
    destruct (count_if_pos_lookup (fun y => bool_decide (y = x)) l2)
      as (i & y & Hi & Hy); [lia |].
    apply bool_decide_eq_true in Hy as ->.
    rewrite (delete_Permutation l2 i x Hi). constructor.
    apply IH. intros p. specialize (H p). simpl in H.
    rewrite (count_if_delete p l2 i x Hi) in H. lia.
Qed.

(** ** Publishing *)

Lemma inline_snoc h hist a :
  inline h (hist ++ [a]) = inline h hist ++ (if by_caller h a then [a] else []).
Proof.
  unfold inline. rewrite List.filter_app. simpl. by destruct (by_caller h a).
Qed.

Lemma spawned_snoc h hist a :
  spawned h (hist ++ [a]) = spawned h hist ++ option_list (spawn_of h a).
Proof.
  unfold spawned. rewrite omap_app. simpl. by destruct (spawn_of h a).
Qed.

Lemma inline_fresh s h :
  hist_ok s → (length (s_heap s) <= h)%nat → inline h (s_hist s) = [].
Proof.
  unfold hist_ok, inline. intros Hk Hle.
  induction Hk as [|a hist [Ha _] _ IH]; [done |]. simpl.
  destruct (by_caller h a) eqn:E; [|done].
  destruct a as [| | | | | |[]|[]|[]| | | | |]; simpl in E; try done;
    apply bool_decide_eq_true in E as ->;
    specialize (Ha _ eq_refl); lia.
Qed.

Lemma spawned_fresh s h :
  hist_ok s → (length (s_heap s) <= h)%nat → spawned h (s_hist s) = [].
Proof.
  unfold hist_ok, spawned. intros Hk Hle.
  induction Hk as [|a hist [Ha _] _ IH]; [done |]. simpl.
  destruct (spawn_of h a) eqn:E; [|done].
  destruct a; simpl in E; try done. case_decide; [|done]. subst.
  specialize (Ha _ eq_refl). lia.
Qed.

Lemma rest_after_call h l e :
  rest h (pair l <$> after_call l e) = records Caller h (failure l e).
Proof. unfold after_call. by destruct (failure l e). Qed.

Lemma op_publishing_ok s s' :
  swf s → hist_ok s → publishing_ok s → op s s' → publishing_ok s'.
Proof.
  intros Hs Hk Hp Hop h0 e0 pc0 Em'. unfold publishing_ok in Hp.
  unfold publishing_at in *.
  destruct Hop; main_rewrite; simplify_eq/=;
    try (specialize (Hp _ _ _ eq_refl); simpl in Hp);
    rewrite ?inline_snoc, ?spawned_snoc; simpl; rewrite ?app_nil_r;
    try done.
  - by rewrite inline_fresh, spawned_fresh.
  - by destruct (0 <? _).
  - exists []. by destruct Hp as [-> ->].
  - destruct Hp as (served & Hh & Hi & Hsp). exists (served ++ [sub]).
    rewrite <- app_assoc. split; [done |].
    rewrite !List.filter_app. simpl. unfold is_sync at 2.
    match goal with H : Bus.sub_async sub = true |- _ => rewrite H end.
    simpl. rewrite app_nil_r, decide_True by done.
    simpl in Hi. rewrite app_nil_r in Hi. split; [done |].
    rewrite map_app. simpl. by rewrite Hsp.
  - destruct Hp as (served & Hh & Hi & Hsp). exists (served ++ [sub]).
    rewrite <- app_assoc. split; [done |].
    rewrite !List.filter_app. simpl. unfold is_sync at 2.
    match goal with H : Bus.sub_async sub = false |- _ => rewrite H end.
    simpl. rewrite !app_nil_r, bool_decide_eq_true_2 by done.
    split; [|done]. rewrite flat_map_app. simpl.
    rewrite app_nil_r in Hi. rewrite app_nil_r, <- Hi, rest_after_call.
    by rewrite <- app_assoc.
  - destruct Hp as (served & Hh & Hi & Hsp). exists served.
    rewrite bool_decide_eq_true_2 by done.
    split; [done |]. split; [|done]. by rewrite <- app_assoc.
  - destruct Hp as (served & Hh & Hi & Hsp). exists served.
    rewrite bool_decide_eq_true_2 by done. done.
Qed.

Lemma running_publishing_ok s : running s → fits s → publishing_ok s.
Proof.
  intros Hrun Hfit.
  apply (running_invariant
           (fun s => (hist_ok s ∧ prelude_ok s) ∧ publishing_ok s));
    [| |done..].
  - split; [apply prelude_ok_Start |]. by intros h e pc.
  - intros s1 s2 Hs [HP Hl] Hop. split; [by apply (op_prelude_ok s1) |].
    apply (op_publishing_ok s1); tauto.
Qed.

(** ** The calls of a dispatch *)

Lemma subscribed_register l e async ls g :
  subscribed l e async (GoEvent.bus g) →
  subscribed l e async (GoEvent.bus (register ls g)).
Proof.
  intros (sub & Hin & Hl & Ha). exists sub. split; [|done].
  rewrite register_bus. unfold Bus.handlers in *.
  rewrite List.filter_app, in_app_iff. by left.
Qed.

Lemma op_subscribed l e async s s' :
  op s s' → subscribed l e async (GoEvent.bus (s_ge s)) →
  subscribed l e async (GoEvent.bus (s_ge s')).
Proof. destruct 1; simpl; try done. apply subscribed_register. Qed.

Lemma dispatch_fresh s h e :
  hist_ok s → In (ADispatch h e) (s_hist s) → (h < length (s_heap s))%nat.
Proof.
  unfold hist_ok. rewrite Forall_forall. intros Hk Hin.
  apply list_elem_of_In in Hin. by apply (proj1 (Hk _ Hin) h).
Qed.

Lemma op_calls_ok s s' :
  swf s → hist_ok s → publishing_ok s → calls_ok s → op s s' → calls_ok s'.
Proof.
  intros Hs Hk Hp Hc Hop.
  assert (Hmain : ∀ h e pc, s_main s' = Dispatching h e pc →
            In (ADispatch h e) (s_hist s')).
  { intros h0 e0 pc0 Em'. pose proof (co_main s Hc) as Hm.
    destruct Hop; main_rewrite; simplify_eq/=;
      rewrite ?in_snoc; try (left; by eapply Hm); try (by eapply Hm).
    by right. }
  assert (Htodo : ∀ h e sub todo cur,
            s_main s = Dispatching h e (DPublish (sub :: todo) cur) →
            In sub (Bus.handlers (Name e) (GoEvent.bus (s_ge s)))).
  { intros h e sub todo cur Em. destruct (Hp _ _ _ Em) as (served & -> & _).
    rewrite in_app_iff. right. by left. }
  constructor; [| |done|].
  - intros i0 l0 h0 e0 pc0 Hi. pose proof (co_go s Hc) as Hg.
    pose proof (co_main s Hc) as Hm.
    assert (Hold : ∀ i l h e pc, s_gs s !! i = Some (GoAsync l h e pc) →
              In (ADispatch h e) (s_hist s') ∧
              subscribed l e true (GoEvent.bus (s_ge s'))).
    { intros i l h e pc Hl. destruct (Hg _ _ _ _ _ Hl) as [H1 H2].
      split; [by apply (op_in_hist s) | by apply (op_subscribed _ _ _ s)]. }
    destruct Hop; simpl in Hi; try (by eapply Hold).
    + apply lookup_app_Some in Hi as [Hi|[_ Hi]]; [by eapply Hold |].
      apply list_lookup_singleton_Some in Hi as [_ [= <- <- <- <-]].
      simpl. split.
      * apply in_snoc. left. by eapply Hm.
      * exists sub. split; [by eapply Htodo | done].
    + apply lookup_app_Some in Hi as [Hi|[_ Hi]]; [by eapply Hold |].
      by apply list_lookup_singleton_Some in Hi as [_ ?].
    + destruct (decide (i = i0)) as [->|Hne].
      * rewrite list_lookup_insert_eq in Hi by (by eapply lookup_lt_Some).
        injection Hi as <- <- <- <-. by eapply Hold.
      * rewrite list_lookup_insert_ne in Hi by done. by eapply Hold.
    + destruct (decide (i = i0)) as [->|Hne].
      * rewrite list_lookup_insert_eq in Hi by (by eapply lookup_lt_Some).
        injection Hi as <- <- <- <-. by eapply Hold.
      * rewrite list_lookup_insert_ne in Hi by done. by eapply Hold.
    + destruct (decide (i = i0)) as [->|Hne].
      * rewrite list_lookup_insert_eq in Hi by (by eapply lookup_lt_Some).
        injection Hi as <- <- <- <-. by eapply Hold.
      * rewrite list_lookup_insert_ne in Hi by done. by eapply Hold.
    + destruct (decide (i = i0)) as [->|Hne].
      * rewrite list_lookup_insert_eq in Hi by (by eapply lookup_lt_Some).
        injection Hi as <- <- <- <-. by eapply Hold.
      * rewrite list_lookup_insert_ne in Hi by done. by eapply Hold.
    + destruct (decide (i = i0)) as [->|Hne].
      * rewrite list_lookup_insert_eq in Hi by (by eapply lookup_lt_Some).
        injection Hi as <- <- <- <-. by eapply Hold.
      * rewrite list_lookup_insert_ne in Hi by done. by eapply Hold.
    + destruct (decide (i = i0)) as [->|Hne].
      * rewrite list_lookup_insert_eq in Hi by (by eapply lookup_lt_Some).
        done.
      * rewrite list_lookup_insert_ne in Hi by done. by eapply Hold.
    + destruct (decide (i = i0)) as [->|Hne].
      * rewrite list_lookup_insert_eq in Hi by (by eapply lookup_lt_Some).
        done.
      * rewrite list_lookup_insert_ne in Hi by done. by eapply Hold.
  - intros a0 h0 l0 e0 Hin. pose proof (co_call s Hc) as Hcall.
    pose proof (co_go s Hc) as Hg. pose proof (co_main s Hc) as Hm.
    assert (Hold : In (ACall a0 h0 l0 e0) (s_hist s) →
              In (ADispatch h0 e0) (s_hist s') ∧
              subscribed l0 e0 (is_started a0) (GoEvent.bus (s_ge s'))).
    { intros Hl. destruct (Hcall _ _ _ _ Hl) as [H1 H2].
      split; [by apply (op_in_hist s) | by apply (op_subscribed _ _ _ s)]. }
    destruct Hop; simpl in Hin; try (by apply Hold);
      apply in_snoc in Hin as [Hin|Hin]; try (by apply Hold); try done.
    + injection Hin as -> -> -> ->. simpl. split.
      * apply in_snoc. left. by eapply Hm.
      * exists sub. split; [by eapply Htodo | done].
    + injection Hin as -> -> -> ->. simpl.
      match goal with H : s_gs _ !! _ = Some _ |- _ =>
        destruct (Hg _ _ _ _ _ H) as [H1 H2] end.
      split; [apply in_snoc; by left | done].
  - intros h0 e0 e0' H1 H2. pose proof (co_dispatch s Hc) as Hd.
    destruct Hop; simpl in *; try (by eapply Hd);
      apply in_snoc in H1 as [H1|H1]; apply in_snoc in H2 as [H2|H2];
      try done; try (by eapply Hd); try congruence.
    + injection H2 as -> ->. apply (dispatch_fresh s) in H1; [lia | done].
    + injection H1 as -> ->. apply (dispatch_fresh s) in H2; [lia | done].
Qed.

Lemma running_calls_ok s : running s → fits s → calls_ok s.
Proof.
  intros Hrun Hfit.
  apply (running_invariant
           (fun s => ((hist_ok s ∧ prelude_ok s) ∧ publishing_ok s)
                     ∧ calls_ok s));
    [| |done..].
  - split; [split; [apply prelude_ok_Start | by intros h e pc] |].
    by constructor.
  - intros s1 s2 Hs [[HP Hpub] Hc] Hop.
    split; [split; [by apply (op_prelude_ok s1) |] |].
    + apply (op_publishing_ok s1); tauto.
    + apply (op_calls_ok s1); tauto.
Qed.

(** ** The listeners a dispatch serves *)

Lemma step_bus st s s' : step st s = Ok s' →
  GoEvent.bus (s_ge s') =
  GoEvent.bus (s_ge s) ++ map subscription_of (registered_by [st]).
Proof.
  destruct st as [ls| |e| |i]; simpl; rewrite ?app_nil_r.
  - case_match; [|done]. intros [= <-]. simpl. by rewrite register_bus.
  - case_match; [|done]. by intros [= <-].
  - case_match; [|done]. by intros [= <-].
  - unfold caller_step. destruct (s_main s) as [|h e pc]; [done |].
    destruct pc as [|n|n|n|todo cur]; cbv zeta.
    + by intros [= <-].
    + unfold WaitGroup.Add. case_match; [done |]. by intros [= <-].
    + case_match; [|done]. unfold WaitGroup.Add. case_match; [done |].
      by intros [= <-].
    + by intros [= <-].
    + destruct cur as [[l p]|].
      * destruct p; destruct todo; rewrite ?after_call_eq; simpl;
          by intros [= <-].
      * destruct todo as [|sub todo]; [by intros [= <-] |].
        destruct (Bus.sub_async sub); [by intros [= <-] |].
        rewrite after_call_eq. by intros [= <-].
  - unfold go_step. destruct (s_gs s !! i) as [[l h e pc|h pc]|]; [| |done].
    + destruct pc as [p| | |]; [| | |done].
      * destruct p; rewrite ?after_call_eq; simpl; by intros [= <-].
      * unfold WaitGroup.Done, WaitGroup.Add. case_match; [done |].
        by intros [= <-].
      * case_match; [|done].
        unfold WaitGroup.Done, WaitGroup.Add. case_match; [done |].
        by intros [= <-].
    + destruct pc; [| |done].
      * case_match; [|done]. unfold DispatchHandle.Wait, WaitGroup.Wait.
        case_match; [|done]. by intros [= <-].
      * case_match; [|done]. unfold DispatchHandle.markDone.
        case_match; [done |]. by intros [= <-].
Qed.

Lemma steps_bus sts : ∀ s s', steps sts s = Ok s' →
  GoEvent.bus (s_ge s') =
  GoEvent.bus (s_ge s) ++ map subscription_of (registered_by sts).
Proof.
  induction sts as [|st sts IH]; intros s s'; simpl.
  - intros [= <-]. by rewrite app_nil_r.
  - destruct (step st s) as [s1| |] eqn:E; try done.
    cbn [mbind Outcome_bind]. intros H.
    rewrite (IH _ _ H), (step_bus _ _ _ E). simpl.
    by rewrite app_nil_r, map_app, app_assoc.
Qed.

Lemma records_of_inline h e subs :
  handle_records h (flat_map (inline_script h e) subs) =
  omap (fun sub => failure (Bus.sub_listener sub) e) subs.
Proof.
  induction subs as [|sub subs IH]; [done |].
  cbn [flat_map]. unfold handle_records in *. rewrite omap_app, IH.
  unfold inline_script. simpl.
  destruct (failure (Bus.sub_listener sub) e); simpl; [|done].
  by rewrite decide_True.
Qed.

Lemma omap_filter_sublist {A B} (f : A → option B) (p : A → bool) l :
  sublist (omap f (List.filter p l)) (omap f l).
Proof.
  induction l as [|x l IH]; [constructor |]. simpl.
  destruct (p x); simpl; destruct (f x); simpl;
    try (by constructor); exact IH.
Qed.

Lemma omap_map {A B C} (f : B → option C) (g : A → B) (l : list A) :
  omap f (map g l) = omap (fun x => f (g x)) l.
Proof.
  induction l as [|x l IH]; [done |]. simpl.
  destruct (f (g x)); simpl; [f_equal |]; exact IH.
Qed.


(** ** The example executions *)

Lemma running_s_publishing : running s_publishing.
Proof. exists sched_publishing. vm_compute. reflexivity. Qed.

Lemma fits_s_publishing : fits s_publishing.
Proof. unfold fits. vm_compute. discriminate. Qed.

Lemma steps_s_interleaved : steps sched_interleaved Start = Ok s_interleaved.
Proof. vm_compute. reflexivity. Qed.

Lemma running_s_interleaved : running s_interleaved.
Proof. exists sched_interleaved. apply steps_s_interleaved. Qed.

Lemma fits_s_interleaved : fits s_interleaved.
Proof. unfold fits. vm_compute. discriminate. Qed.

(** The two appends of an adapter are two operations: here the handle's
    log has the error of the asynchronous listener first and the global
    log has it last. *)
Example logs_in_different_orders :
  DispatchHandle.GetErrors <$> s_heap s_interleaved !! 0%nat
    = Some [boom; test_error] ∧
  GoEvent.GetErrors (s_ge s_interleaved) = [test_error; boom].
Proof. vm_compute. done. Qed.


(** * The claims *)

(** C1, as the code has it. After a dispatch of an event whose
    async-listener count is zero, [Wait] on the returned handle does not
    block. The completion signal has not fired in the state [Dispatch]
    returns: the watcher goroutine that fires it has been started and
    is the last of the pool; it is not blocked (the handle's counter is
    zero), and the signal has fired once it has run. *)
Theorem C1_no_async_dispatch (e : Event) (w : World)
    (Hz : GoEvent.asyncCount (Name e) (ge w) = 0) :
  let h := length (heap w) in
  let w' := dispatched e w in
  let i := (length (pool w') - 1)%nat in
  Dispatch e w = Ok (h, w') ∧
  handle_Wait h w' = Ok tt ∧
  handle_Done h w' = false ∧
  pool w' !! i = Some (Watcher h) ∧
  ∃ w'', go i w' = Ok w'' ∧ handle_Done h w'' = true ∧
         handle_Wait h w'' = Ok tt.
Proof.
  intros h w' i.
  assert (added e w = 0) as Ha by (unfold added; by rewrite Hz).
  assert (heap w' !! h =
    Some {| DispatchHandle.wg := 0;
            DispatchHandle.errors :=
              sync_failures e (Bus.handlers (Name e) (GoEvent.bus (ge w)));
            DispatchHandle.done := false |}) as Hh.
  { unfold w'. rewrite dispatched_eq. simpl. rewrite Ha.
    by apply list_lookup_middle. }
  assert (pool w' !! i = Some (Watcher h)) as Hi.
  { unfold i, w'. rewrite dispatched_eq. cbn [pool].
    apply list_lookup_middle. rewrite length_app. simpl. lia. }
  split_and!.
  - by apply Dispatch_zero.
  - unfold handle_Wait. by rewrite Hh.
  - unfold handle_Done. by rewrite Hh.
  - done.
  - eexists. split; [by apply (go_watcher_spec i h _ w' Hi Hh) |].
    unfold handle_Done, handle_Wait, closed.
    cbn [heap with_handle with_pool].
    by rewrite list_lookup_alter_eq, Hh.
Qed.

Lemma C1_no_async_dispatch_witness :
  GoEvent.asyncCount (Name (testEvent "x"))
    (ge (RegisterListener [testSyncListener] New)) = 0 ∧
  handle_Wait 0 (dispatched (testEvent "x")
                   (RegisterListener [testSyncListener] New)) = Ok tt ∧
  handle_Done 0 (dispatched (testEvent "x")
                   (RegisterListener [testSyncListener] New)) = false.
Proof.
  split; [reflexivity |].
  destruct (C1_no_async_dispatch (testEvent "x")
              (RegisterListener [testSyncListener] New) eq_refl)
    as (_ & Hwait & Hdone & _).
  split; [exact Hwait | exact Hdone].
Defined.

(** C1, as stated, fails: with one inline listener registered and no
    asynchronous one, the event's async-listener count is zero and
    [Dispatch] returns a handle whose [Wait] does not block, but whose
    completion signal has not fired. *)
Lemma C1_counterexample :
  let w := RegisterListener [testSyncListener] New in
  let e := testEvent "x" in
  (reachable w ∧
   GoEvent.asyncCount (Name e) (ge w) = 0 ∧
   Dispatch e w = Ok (0%nat, dispatched e w) ∧
   handle_Wait 0 (dispatched e w) = Ok tt ∧
   handle_Done 0 (dispatched e w) = false) ∧
  ¬ (∀ e w h w',
       reachable w →
       GoEvent.asyncCount (Name e) (ge w) = 0 →
       Dispatch e w = Ok (h, w') →
       handle_Wait h w' = Ok tt ∧ handle_Done h w' = true).
Proof.
  intros w e.
  assert (reachable w) as Hr by (by exists [OpRegister [testSyncListener]]).
  assert (Dispatch e w = Ok (0%nat, dispatched e w)) as Hd
    by (by apply Dispatch_zero).
  split; [by split_and! |].
  intros H. destruct (H e w 0%nat (dispatched e w) Hr eq_refl Hd) as [_ Hdone].
  vm_compute in Hdone. discriminate.
Qed.

(** C2. In every reachable state, each dispatch handle has either one
    pending watcher and an unfired signal, or no watcher and a fired
    signal, so the signal cannot fire twice, and no step panics (the
    channel is never closed a second time). A step fires the signal
    only if it is the run of the handle's watcher in a state where the
    handle's counter is zero; once fired the signal stays fired, so a
    receive on [Done], by however many waiters, succeeds from then on.
    And the signal does fire: from every reachable state the scheduler
    can run the handle's outstanding calls and then its watcher. *)
Theorem C2_done_fires_once (w : World) (h : nat) (dh : DispatchHandle.t)
    (Hr : reachable w) (Hfit : bus_fits w) (Hh : heap w !! h = Some dh) :
  (count_if (is_watcher h) (pool w)
   + (if DispatchHandle.Done dh then 1 else 0) = 1)%nat ∧
  (∀ op msg, exec op w ≠ Panic msg) ∧
  (∀ op w', exec op w = Ok w' →
     (handle_Done h w = true → handle_Done h w' = true) ∧
     (handle_Done h w = false → handle_Done h w' = true →
      handle_wg h w = 0 ∧
      ∃ i, op = OpGo i ∧ pool w !! i = Some (Watcher h))) ∧
  (∃ sched w', run (map OpGo sched) w = Ok w' ∧ handle_Done h w' = true).
Proof.
  pose proof (reachable_wf w Hr Hfit) as Hw. split_and!.
  - apply (wf_done w Hw h dh Hh).
  - intros op msg. by apply exec_no_panic.
  - intros op w' Hop. by apply (exec_done op w w' h dh).
  - destruct (can_fire _ w h dh Hw Hh eq_refl) as (sched & w' & Hrun & _ & Hd).
    by exists sched, w'.
Qed.

Lemma C2_done_fires_once_witness :
  reachable w_dispatched ∧ bus_fits w_dispatched ∧
  (count_if (is_watcher 0) (pool w_dispatched) = 1)%nat ∧
  handle_Done 0 w_dispatched = false ∧
  go 1 w_dispatched = Blocked ∧
  ∃ sched w', run (map OpGo sched) w_dispatched = Ok w' ∧
              handle_Done 0 w' = true.
Proof.
  split_and!; [exact reachable_w_dispatched | exact bus_fits_w_dispatched
              | reflexivity | reflexivity | reflexivity |].
  destruct (heap w_dispatched !! 0%nat) as [dh|] eqn:Hdh;
    [|vm_compute in Hdh; discriminate].
  exact (proj2 (proj2 (proj2 (C2_done_fires_once w_dispatched 0%nat dh
    reachable_w_dispatched bus_fits_w_dispatched Hdh)))).
Defined.

(** C3. A listener whose [OnEvent] fails makes no call of the
    dispatcher fail. In every reachable state [Dispatch] returns a
    handle, no goroutine panics, and neither [Wait] panics
    ([RegisterListener] is a total function of the state). The failure
    is recorded instead: [handler], which both adapters run, appends one
    [EventError] holding the listener's event name, its type identifier
    and the cause to the log of the handle it was called with and to the
    dispatcher's global log. So the failure of an inline listener is in
    both logs when [Dispatch] returns, and the failure of an
    asynchronous listener is appended to both when its goroutine
    runs. *)
Theorem C3_failures_are_recorded (w : World)
    (Hr : reachable w) (Hfit : bus_fits w) :
  (∀ e, Dispatch e w = Ok (length (heap w), dispatched e w)) ∧
  (∀ i msg, go i w ≠ Panic msg) ∧
  (∀ msg, Wait w ≠ Panic msg) ∧
  (∀ h dh msg, heap w !! h = Some dh → handle_Wait h w ≠ Panic msg) ∧
  (∀ l h e rest c dh,
     heap w !! h = Some dh → Listener.OnEvent l e = Some c →
     let err := {| EventName := Listener.EventName l;
                   ListenerType := Listener.TypeName l; Err := c |} in
     let w' := handler l (ArgHandle h :: ArgEvent e :: rest) w in
     GetErrors w' = GetErrors w ++ [err] ∧
     handle_GetErrors h w' = handle_GetErrors h w ++ [err]) ∧
  (∀ e s c,
     s ∈ Bus.handlers (Name e) (GoEvent.bus (ge w)) →
     Bus.sub_async s = false →
     Listener.OnEvent (Bus.sub_listener s) e = Some c →
     let err := {| EventName := Listener.EventName (Bus.sub_listener s);
                   ListenerType := Listener.TypeName (Bus.sub_listener s);
                   Err := c |} in
     err ∈ GetErrors (dispatched e w) ∧
     err ∈ handle_GetErrors (length (heap w)) (dispatched e w)) ∧
  (∀ i l h e c,
     pool w !! i = Some (AsyncCall l [ArgHandle h; ArgEvent e]) →
     Listener.OnEvent l e = Some c →
     let err := {| EventName := Listener.EventName l;
                   ListenerType := Listener.TypeName l; Err := c |} in
     ∃ w', go i w = Ok w' ∧
           GetErrors w' = GetErrors w ++ [err] ∧
           handle_GetErrors h w' = handle_GetErrors h w ++ [err]).
Proof.
  pose proof (reachable_wf w Hr Hfit) as Hw.
  split_and!.
  - intros e. apply Dispatch_spec. by apply wf_nonneg.
  - intros i msg. by apply go_no_panic.
  - intros msg. unfold Wait, GoEvent.Wait, WaitGroup.Wait.
    by destruct (GoEvent.wg (ge w) =? 0).
  - intros h dh msg Hh. unfold handle_Wait. rewrite Hh.
    unfold DispatchHandle.Wait, WaitGroup.Wait.
    by destruct (DispatchHandle.wg dh =? 0).
  - intros l h e rest c dh Hh Hc err w'. subst w'.
    rewrite handler_valid. unfold failure. rewrite Hc.
    unfold GetErrors, handle_GetErrors. simpl.
    by rewrite list_lookup_alter_eq, Hh.
  - intros e s c Hs Hsync Hc err. rewrite dispatched_eq.
    assert (err ∈ sync_failures e (Bus.handlers (Name e) (GoEvent.bus (ge w))))
      as Hin.
    { unfold sync_failures. apply list_elem_of_omap. exists s.
      split; [done |]. rewrite Hsync. unfold failure. by rewrite Hc. }
    unfold GetErrors, handle_GetErrors. simpl.
    rewrite list_lookup_middle by done. simpl.
    split; [|done]. apply elem_of_app. by right.
  - intros i l h e c Hi Hc err.
    destruct (go_cases i _ w Hw Hi) as (h0 & e0 & dh & [= <- <-] & Hh & _ & _ & Hgo).
    eexists. split; [exact Hgo |].
    unfold GetErrors, handle_GetErrors, completed, failure. rewrite Hc. simpl.
    by rewrite list_lookup_alter_eq, Hh.
Qed.

Lemma C3_failures_are_recorded_witness :
  reachable w_dispatched ∧ bus_fits w_dispatched ∧
  ∃ w', go 0 w_dispatched = Ok w' ∧
        GetErrors w' = GetErrors w_dispatched ++ [boom] ∧
        handle_GetErrors 0 w' = handle_GetErrors 0 w_dispatched ++ [boom].
Proof.
  split_and!; [exact reachable_w_dispatched | exact bus_fits_w_dispatched |].
  destruct (C3_failures_are_recorded w_dispatched reachable_w_dispatched
              bus_fits_w_dispatched) as (_ & _ & _ & _ & _ & _ & H).
  exact (H 0%nat testAsyncErrorListener 0%nat (testEvent "x")
           {| error_ref := 2; error_msg := "boom" |}
           eq_refl eq_refl).
Defined.

(** C4. In every state of the program: the history has, before each
    call of [Publish] for a handle, exactly the beginning of that
    dispatch, the read of the count [n] and, if [n] is positive, the
    [Add] of [n] to the global counter and then to the handle's
    counter, nothing else of it afterwards, and no [Add] at all if [n]
    is not positive; every delivery for the handle (a goroutine
    started, a call of [OnEvent]) comes after the call of [Publish];
    and when [Dispatch] is about to call [Publish], [n] is the entry
    of the table for the event's name, the number of asynchronous
    handlers of that name, the handle's counter holds [n], the global
    counter was raised by [n], no goroutine of the dispatch has been
    started, and the call goes on. *)
Theorem C4_adds_before_publish (s : State)
    (Hrun : running s) (Hfit : fits s) :
  (∀ h t1 t2, s_hist s = t1 ++ APublish h :: t2 →
     ∃ e n, prelude h t1 = [ADispatch h e; ARead h n] ++ adds h n ∧
            prelude h t2 = []) ∧
  (∀ h t1 a t2, s_hist s = t1 ++ a :: t2 → is_delivery h a = true →
     In (APublish h) t1) ∧
  (∀ h e n, s_main s = Dispatching h e (DCallPublish n) →
     n = GoEvent.asyncCount (Name e) (s_ge s) ∧
     n = Z.of_nat (count_if Bus.sub_async
                     (Bus.handlers (Name e) (GoEvent.bus (s_ge s)))) ∧
     prelude h (s_hist s) = [ADispatch h e; ARead h n] ++ adds h n ∧
     DispatchHandle.wg <$> s_heap s !! h = Some n ∧
     GoEvent.wg (s_ge s) = Z.of_nat (count_if ge_live (s_gs s)) + n ∧
     Forall (fun g => go_handle g ≠ h) (s_gs s) ∧
     ∃ s', step StCaller s = Ok s' ∧
           s_main s' =
           Dispatching h e
             (DPublish (Bus.handlers (Name e) (GoEvent.bus (s_ge s))) None) ∧
           s_ge s' = s_ge s ∧ s_heap s' = s_heap s ∧ s_gs s' = s_gs s).
Proof.
  pose proof (running_swf s Hrun Hfit) as Hs.
  destruct (running_prelude_ok s Hrun Hfit) as [Hk Hp].
  split; [|split].
  - intros h t1 t2 Hsplit.
    destruct (pre_published s Hp h) as (e & n & Hpre).
    { rewrite Hsplit, in_app_iff. simpl. tauto. }
    exists e, n. rewrite Hsplit in Hpre. unfold prelude in Hpre.
    rewrite List.filter_app in Hpre. simpl in Hpre.
    rewrite bool_decide_eq_true_2 in Hpre by done.
    change (prelude h t1 ++ APublish h :: prelude h t2 =
            ([ADispatch h e; ARead h n] ++ adds h n) ++ [APublish h]) in Hpre.
    apply snoc_unique in Hpre; [done |].
    unfold adds. case_match; simpl; intros Hin;
      repeat (destruct Hin as [Hin|Hin]; [done |]); done.
  - apply (pre_deliveries s Hp).
  - intros h e n Em.
    pose proof (swf_main s Hs) as Hm. unfold main_ok in Hm. rewrite Em in Hm.
    destruct Hm as (Hlt & Hfresh & Hn).
    apply lookup_lt_is_Some in Hlt as [dh Hdh].
    pose proof (swf_handle s Hs _ _ Hdh) as Hw.
    pose proof (swf_ge s Hs) as Hge. rewrite Em in *. simpl in *.
    rewrite decide_True in Hw by done.
    rewrite h_live_fresh in Hw by done.
    assert (Ha : announced n = n).
    { unfold announced. case_match; lia. }
    rewrite Ha in *.
    split; [by rewrite (swf_counts s Hs) |].
    split; [done |].
    split; [apply (pre_main s Hp _ _ _ Em) |].
    split; [rewrite Hdh; simpl; f_equal; lia |].
    split; [done |]. split; [done |].
    eexists. split; [unfold caller_step; by rewrite Em |]. done.
Qed.


Lemma C4_adds_before_publish_witness :
  running s_publishing ∧ fits s_publishing ∧
  s_main s_publishing = Dispatching 0 (testEvent "x") (DCallPublish 1) ∧
  prelude 0 (s_hist s_publishing) =
    [ADispatch 0 (testEvent "x"); ARead 0 1; AAddGe 0 1; AAddHandle 0 1] ∧
  DispatchHandle.wg <$> s_heap s_publishing !! 0%nat = Some 1 ∧
  GoEvent.wg (s_ge s_publishing) =
    Z.of_nat (count_if ge_live (s_gs s_publishing)) + 1.
Proof.
  split_and!; [exact running_s_publishing | exact fits_s_publishing | done | ..];
    destruct (proj2 (proj2 (C4_adds_before_publish s_publishing
                              running_s_publishing fits_s_publishing))
                0%nat (testEvent "x") 1 eq_refl)
      as (_ & _ & Hpre & Hw & Hge & _); done.
Defined.


(** C5. In every state of the program, for a goroutine [i] that runs
    [asyncHandler] for a listener, a handle and an event: what it has
    done so far is, in this order, the call of [OnEvent], if the call
    failed the append to the handle's log and the append to the global
    log, then [ge.wg.Done()], then [handle.wg.Done()], up to the place
    where it is; run on, it comes to its end, having then done each of
    the two [Done]s exactly once, after the call and the appends,
    whether the call failed or not, and having lowered the global
    counter and the counter of its handle by one each and no other
    counter. No other goroutine does any of this, and while [Dispatch]
    publishes (where the inline handlers run) no operation of the
    calling goroutine changes a counter. *)
Theorem C5_done_once_after_handler (s : State)
    (Hrun : running s) (Hfit : fits s) :
  (∀ i l h e pc, s_gs s !! i = Some (GoAsync l h e pc) →
     thread i (s_hist s) = script i l h e pc ∧
     ∃ k s',
       steps (replicate k (StGo i)) s = Ok s' ∧
       s_gs s' !! i = Some (GoAsync l h e AExit) ∧
       thread i (s_hist s') =
         ACall (Started i) h l e :: records (Started i) h (failure l e)
           ++ [ADoneGe i h; ADoneHandle i h] ∧
       GoEvent.wg (s_ge s') =
         GoEvent.wg (s_ge s)
         - (if ge_live (GoAsync l h e pc) then 1 else 0) ∧
       ∀ h', DispatchHandle.wg <$> s_heap s' !! h' =
             (fun c => c - if h_live h' (GoAsync l h e pc) then 1 else 0)
               <$> (DispatchHandle.wg <$> s_heap s !! h')) ∧
  (∀ i, (∀ l h e pc, s_gs s !! i ≠ Some (GoAsync l h e pc)) →
     thread i (s_hist s) = []) ∧
  (∀ h e todo cur s', s_main s = Dispatching h e (DPublish todo cur) →
     step StCaller s = Ok s' →
     GoEvent.wg (s_ge s') = GoEvent.wg (s_ge s) ∧
     ∀ h', DispatchHandle.wg <$> s_heap s' !! h' =
           DispatchHandle.wg <$> s_heap s !! h').
Proof.
  pose proof (running_swf s Hrun Hfit) as Hs.
  pose proof (running_threads s Hrun Hfit) as Ht.
  split; [|split].
  - intros i l h e pc Eg. pose proof (Ht i) as Hi. unfold thread_ok in Hi.
    rewrite Eg in Hi. split; [tauto |].
    destruct (go_runs_out (rank pc) s i l h e pc Hs Hfit Eg (le_n _))
      as (k & s' & Hsteps & Hs' & Hgs' & Hmain' & Hbus' & Hwg' & Hh').
    exists k, s'. split; [done |].
    assert (Eg' : s_gs s' !! i = Some (GoAsync l h e AExit)).
    { rewrite Hgs'. apply list_lookup_insert_eq. by eapply lookup_lt_Some. }
    split; [done |]. split; [|done].
    assert (Hrun' : running s') by (by eapply running_steps).
    assert (Hfit' : fits s') by (unfold fits in *; by rewrite Hbus').
    pose proof (running_threads s' Hrun' Hfit' i) as Hi'.
    unfold thread_ok in Hi'. rewrite Eg' in Hi'. tauto.
  - intros i Hno. pose proof (Ht i) as Hi. unfold thread_ok in Hi.
    destruct (s_gs s !! i) as [[l h e pc|h pc]|]; try done.
    by destruct (Hno l h e pc).
  - intros h e todo cur s'. apply publishing_counters.
Qed.

Lemma C5_done_once_after_handler_witness :
  running s_interleaved ∧ fits s_interleaved ∧
  thread 0 (s_hist s_interleaved) =
    [ACall (Started 0) 0 testAsyncErrorListener (testEvent "x");
     ARecordHandle (Started 0) 0 boom; ARecordGlobal (Started 0) 0 boom] ∧
  ∃ k s',
    steps (replicate k (StGo 0)) s_interleaved = Ok s' ∧
    thread 0 (s_hist s') =
      [ACall (Started 0) 0 testAsyncErrorListener (testEvent "x");
       ARecordHandle (Started 0) 0 boom; ARecordGlobal (Started 0) 0 boom;
       ADoneGe 0 0; ADoneHandle 0 0] ∧
    GoEvent.wg (s_ge s') = GoEvent.wg (s_ge s_interleaved) - 1.
Proof.
  split_and!; [exact running_s_interleaved | exact fits_s_interleaved | ..];
    destruct (proj1 (C5_done_once_after_handler s_interleaved
                       running_s_interleaved fits_s_interleaved)
                0%nat testAsyncErrorListener 0%nat (testEvent "x") AGeDone
                eq_refl)
      as (Ht & k & s' & Hsteps & _ & Ht' & Hwg & _); [done |].
  by exists k, s'.
Defined.


(** C6. In every state of the program: the log of a handle holds the
    errors appended for that handle, in the order of the appends, and
    they are, each as often as it was produced, the errors of the calls
    of [OnEvent] made with that handle, less those whose adapter has
    not yet made the append; every such call is for the event that was
    dispatched with the handle, which is one event only, and for a
    listener subscribed to the name of that event, so no error of
    another dispatch comes into the log. The global log holds all the
    errors appended to it since it was last emptied, in the order of
    the appends; and the logs of all handles together hold, each as
    often, the errors [ClearErrors] has removed, those of the global
    log, and those an adapter has appended to its handle's log and not
    yet to the global log. *)
Theorem C6_logs_in_arrival_order (s : State)
    (Hrun : running s) (Hfit : fits s) :
  (∀ h dh, s_heap s !! h = Some dh →
     DispatchHandle.GetErrors dh = handle_records h (s_hist s) ∧
     call_failures h (s_hist s) ≡ₚ DispatchHandle.GetErrors dh ++ pending h s) ∧
  (∀ a h l e, In (ACall a h l e) (s_hist s) →
     In (ADispatch h e) (s_hist s) ∧
     (∀ e', In (ADispatch h e') (s_hist s) → e' = e) ∧
     subscribed l e (is_started a) (GoEvent.bus (s_ge s))) ∧
  GoEvent.GetErrors (s_ge s) = global_records (s_hist s) ∧
  handle_logs (s_heap s) ≡ₚ
    removed (s_hist s) ++ GoEvent.GetErrors (s_ge s) ++ inflight s.
Proof.
  pose proof (running_logs_fine s Hrun Hfit) as Hl.
  pose proof (running_calls_ok s Hrun Hfit) as Hc.
  split; [|split; [|split]].
  - intros h dh Hh. unfold DispatchHandle.GetErrors.
    split; [by apply (lf_handle s Hl) |].
    apply count_if_Permutation. intros p.
    rewrite (lf_calls s Hl p h), count_if_app.
    by rewrite (lf_handle s Hl h dh Hh).
  - intros a h l e Hin. destruct (co_call s Hc _ _ _ _ Hin) as [H1 H2].
    split; [done |]. split; [|done].
    intros e' H'. by apply (co_dispatch s Hc h).
  - apply (lf_global s Hl).
  - apply count_if_Permutation. intros p. unfold GoEvent.GetErrors.
    rewrite (lf_all s Hl p), !count_if_app. lia.
Qed.


Lemma C6_logs_in_arrival_order_witness :
  running s_interleaved ∧ fits s_interleaved ∧
  GoEvent.GetErrors (s_ge s_interleaved) = [test_error; boom] ∧
  handle_logs (s_heap s_interleaved) ≡ₚ [test_error; boom] ∧
  ∀ dh, s_heap s_interleaved !! 0%nat = Some dh →
    DispatchHandle.GetErrors dh = [boom; test_error] ∧
    call_failures 0 (s_hist s_interleaved) ≡ₚ DispatchHandle.GetErrors dh.
Proof.
  split_and!; [exact running_s_interleaved | exact fits_s_interleaved | ..];
    destruct (C6_logs_in_arrival_order s_interleaved
                running_s_interleaved fits_s_interleaved)
      as (Hh & _ & Hg & Hall).
  - by rewrite Hg.
  - by rewrite Hall, Hg.
  - intros dh Hdh. destruct (Hh _ _ Hdh) as [H1 H2].
    split; [by rewrite H1 |]. by rewrite H2, app_nil_r.
Defined.


(** C7. [GetErrors], on the dispatcher and on a handle alike, returns a
    slice with the elements of the log in the log's order, in an array
    of its own: no log points to that array. Whatever is recorded in or
    cleared from any log afterwards, and whatever snapshots are taken,
    the slice returned still reads the same; and a write through the
    returned slice changes no log. *)
Theorem C7_GetErrors_snapshot (spare : nat -> nat) (m : Slice.Mem)
    (logs : list Slice.t) (k : nat) (s : Slice.t) (l : list EventError)
    (Hlogs : Forall (fun s' => (Slice.ptr s' < length m)%nat) logs)
    (Hk : logs !! k = Some s)
    (Hl : ErrorLog.represents m s l) :
  let snap := fst (ErrorLog.GetErrors m s) in
  let m1 := snd (ErrorLog.GetErrors m s) in
  Slice.read m1 snap = map Some l ∧
  Forall (fun s' => Slice.ptr s' ≠ Slice.ptr snap) logs ∧
  (∀ s', s' ∈ logs → Slice.read m1 s' = Slice.read m s') ∧
  (∀ ops, Slice.read (fst (ErrorLog.run spare ops (m1, logs))) snap
          = map Some l) ∧
  (∀ i x m', Slice.store snap i x m1 = Ok m' →
             ∀ s', s' ∈ logs → Slice.read m' s' = Slice.read m s').
Proof.
  destruct Hl as (Hp & _ & _ & Hr).
  rewrite GetErrors_eq by done. cbn [fst snd].
  assert (Slice.read (m ++ [Slice.read m s])
            {| Slice.ptr := length m; Slice.len := Slice.len s;
               Slice.cap := Slice.len s |} = map Some l) as Hsnap.
  { rewrite read_fresh by done. cbn [Slice.len]. by rewrite read_read. }
  assert (Forall (λ s', Slice.ptr s' ≠ length m) logs) as Hne.
  { eapply Forall_impl; [exact Hlogs |]. simpl. lia. }
  split_and!.
  - done.
  - done.
  - intros s' Hs'. apply read_app_l.
    by apply (proj1 (Forall_forall _ _) Hlogs).
  - intros ops.
    destruct (run_snapshot_kept spare
      {| Slice.ptr := length m; Slice.len := Slice.len s;
         Slice.cap := Slice.len s |} (Slice.read m s) ops
      (m ++ [Slice.read m s], logs)) as [Hc _].
    { split; cbn [fst snd Slice.ptr].
      - by apply list_lookup_middle.
      - rewrite Forall_forall. intros s' Hs'. rewrite length_app. simpl.
        pose proof (proj1 (Forall_forall _ _) Hlogs s' Hs'). simpl in *.
        split; lia. }
    rewrite (read_lookup _ _ _ Hc). cbn [Slice.len]. by rewrite read_read.
  - intros i x m'. unfold Slice.store. cbn [Slice.len Slice.ptr].
    case_decide; [|done]. intros [= <-] s' Hs'.
    pose proof (proj1 (Forall_forall _ _) Hlogs s' Hs') as Hlt.
    pose proof (proj1 (Forall_forall _ _) Hne s' Hs') as Hn.
    simpl in Hlt, Hn.
    unfold Slice.read. rewrite array_alter_ne by done.
    by rewrite array_app_l.
Qed.

Lemma C7_GetErrors_snapshot_witness :
  Forall (fun s' => (Slice.ptr s' < length mem_example)%nat) logs_example ∧
  ErrorLog.represents mem_example
    {| Slice.ptr := 0; Slice.len := 1; Slice.cap := 2 |} [boom] ∧
  ∀ ops,
    Slice.read
      (fst (ErrorLog.run (fun n => n) ops
              (snd (ErrorLog.GetErrors mem_example
                      {| Slice.ptr := 0; Slice.len := 1; Slice.cap := 2 |}),
               logs_example)))
      (fst (ErrorLog.GetErrors mem_example
              {| Slice.ptr := 0; Slice.len := 1; Slice.cap := 2 |}))
    = [Some boom].
Proof.
  assert (Forall (fun s' => (Slice.ptr s' < length mem_example)%nat)
            logs_example) as Hlogs.
  { repeat constructor; simpl; lia. }
  assert (ErrorLog.represents mem_example
            {| Slice.ptr := 0; Slice.len := 1; Slice.cap := 2 |} [boom])
    as Hl.
  { unfold ErrorLog.represents. simpl. split_and!; (lia || reflexivity). }
  split_and!; [exact Hlogs | exact Hl |].
  exact (proj1 (proj2 (proj2 (proj2 (C7_GetErrors_snapshot (fun n => n)
    mem_example logs_example 0%nat _ [boom] Hlogs eq_refl Hl))))).
Defined.

(** C8. [ClearErrors] replaces the dispatcher's global error log with an
    empty one: a [GetErrors] that follows returns the empty list. The
    store of dispatch handles, with every handle's own log, counter and
    signal, is unchanged, and so are the bus, the global counter, the
    async-count table and the pending goroutines. *)
Theorem C8_ClearErrors_frame (w : World) :
  GetErrors (ClearErrors w) = [] ∧
  heap (ClearErrors w) = heap w ∧
  (∀ h, handle_GetErrors h (ClearErrors w) = handle_GetErrors h w) ∧
  GoEvent.asyncListeners (ge (ClearErrors w)) = GoEvent.asyncListeners (ge w) ∧
  GoEvent.bus (ge (ClearErrors w)) = GoEvent.bus (ge w) ∧
  GoEvent.wg (ge (ClearErrors w)) = GoEvent.wg (ge w) ∧
  pool (ClearErrors w) = pool w.
Proof. by split_and!. Qed.

(** C9. The async-count table is written by registration only. A step
    that registers listeners raises the entry of each event name by the
    number of asynchronous listeners registered for that name, one for
    each, and a synchronous listener leaves the table as it is;
    [Dispatch], [ClearErrors] and the goroutines leave the table as it
    is ([Wait] and [GetErrors] return no state at all). So no step
    lowers an entry. *)
Theorem C9_async_count_table (w : World) (op : Op) (w' : World)
    (Hr : reachable w) (Hop : exec op w = Ok w') (Hfit : bus_fits w') :
  (∀ name, GoEvent.asyncCount name (ge w) <= GoEvent.asyncCount name (ge w')) ∧
  match op with
  | OpRegister ls =>
      ∀ name, GoEvent.asyncCount name (ge w') =
              GoEvent.asyncCount name (ge w)
              + Z.of_nat (count_if (async_on name) ls)
  | _ => GoEvent.asyncListeners (ge w') = GoEvent.asyncListeners (ge w)
  end ∧
  (∀ l w0, isAsync l = false →
     GoEvent.asyncListeners (ge (registerSingleListener l w0)) =
     GoEvent.asyncListeners (ge w0)).
Proof.
  assert (bus_fits w) as Hfit0.
  { pose proof (exec_bus_mono op w w' Hop). unfold bus_fits in *. lia. }
  pose proof (reachable_wf w Hr Hfit0) as Hw.
  pose proof (wf_exec op w w' Hw Hop Hfit) as Hw'.
  assert (match op with
    | OpRegister ls =>
        ∀ name, GoEvent.asyncCount name (ge w') =
                GoEvent.asyncCount name (ge w)
                + Z.of_nat (count_if (async_on name) ls)
    | _ => GoEvent.asyncListeners (ge w') = GoEvent.asyncListeners (ge w)
    end) as Hcase.
  { destruct op as [ls|e| |i]; simpl in Hop.
    - injection Hop as <-. intros name.
      rewrite (wf_counts _ Hw'), (wf_counts _ Hw), RegisterListener_bus.
      unfold Bus.handlers at 1. rewrite List.filter_app, count_if_app.
      fold (Bus.handlers name (GoEvent.bus (ge w))).
      fold (Bus.handlers name (map subscription_of ls)).
      rewrite count_async_handlers. lia.
    - rewrite Dispatch_spec in Hop by (by apply wf_nonneg).
      injection Hop as <-. by rewrite dispatched_eq.
    - by injection Hop as <-.
    - destruct (pool w !! i) as [t|] eqn:Hi;
        [|unfold go in Hop; by rewrite Hi in Hop].
      pose proof (go_cases i t w Hw Hi) as Hc.
      destruct t as [l args|h].
      + destruct Hc as (h & e & dh & -> & _ & _ & _ & Hgo).
        rewrite Hgo in Hop. by injection Hop as <-.
      + destruct Hc as (dh & _ & _ & [[_ Hgo]|[_ Hgo]]);
          rewrite Hgo in Hop; [|done].
        by injection Hop as <-. }
  split_and!; [|done|].
  - intros name. destruct op; try (unfold GoEvent.asyncCount; rewrite Hcase; lia).
    rewrite Hcase. lia.
  - intros l w0 Ha. unfold registerSingleListener. by rewrite Ha.
Qed.

Lemma C9_async_count_table_witness :
  reachable New ∧
  bus_fits w_registered ∧
  GoEvent.asyncCount "test.event" (ge w_registered) =
    GoEvent.asyncCount "test.event" (ge New) + 1.
Proof.
  split_and!; [exact reachable_New | exact bus_fits_w_registered |].
  exact (proj1 (proj2 (C9_async_count_table New
    (OpRegister [testSyncListener; testAsyncErrorListener; testErrorListener])
    w_registered reachable_New eq_refl bus_fits_w_registered))
    "test.event"%string).
Defined.

(** C10. When the argument list of an adapter is not a dispatch handle
    followed by an event, [handler] returns the state it was given: the
    listener's [OnEvent] is not called (the history is unchanged) and
    nothing is added to either log. The asynchronous adapter then still
    makes its deferred [Done] calls: on the global counter, and on the
    handle's counter when the first argument is a handle. Each lowers
    its counter by one; a counter that is already zero makes [Done]
    panic. *)
Theorem C10_invalid_arguments (l : Listener.t) (args : list Arg) (w : World)
    (Hargs : ∀ h e rest, args ≠ ArgHandle h :: ArgEvent e :: rest) :
  handler l args w = w ∧
  asyncHandler l args w =
    (w1 ← ge_wg_Done w;
     match args with
     | ArgHandle h :: _ => handle_wg_Done h w1
     | _ => Ok w1
     end) ∧
  (1 <= GoEvent.wg (ge w) →
   match args with
   | ArgHandle h :: _ =>
       ∀ dh, heap w !! h = Some dh → 1 <= DispatchHandle.wg dh →
         asyncHandler l args w =
         Ok (with_handle h (DispatchHandle.set_wg (DispatchHandle.wg dh - 1))
               (with_ge (GoEvent.set_wg (GoEvent.wg (ge w) - 1)) w))
   | _ =>
       asyncHandler l args w =
       Ok (with_ge (GoEvent.set_wg (GoEvent.wg (ge w) - 1)) w)
   end).
Proof.
  pose proof (handler_invalid l args w Hargs) as Hh.
  assert (asyncHandler l args w =
    (w1 ← ge_wg_Done w;
     match args with
     | ArgHandle h :: _ => handle_wg_Done h w1
     | _ => Ok w1
     end)) as Ha.
  { unfold asyncHandler. rewrite Hh.
    destruct (ge_wg_Done w) as [w1| |]; [|done..]. cbn [mbind Outcome_bind].
    by destruct args as [|[h| |] rest]. }
  split_and!; [done..|]. intros Hg. rewrite Ha.
  unfold ge_wg_Done. rewrite ge_wg_Add_ok by lia. cbn [mbind Outcome_bind].
  destruct args as [|[h| |] rest]; try done.
  intros dh Hdh Hd. unfold handle_wg_Done.
  by rewrite (handle_wg_Add_ok h (-1) dh) by (done || simpl; lia).
Qed.

Lemma C10_invalid_arguments_witness :
  (∀ h e rest,
     [ArgHandle 0; ArgOther "x"] ≠ ArgHandle h :: ArgEvent e :: rest) ∧
  handler testAsyncListener [ArgHandle 0; ArgOther "x"] w_dispatched
    = w_dispatched ∧
  ∃ w', asyncHandler testAsyncListener [ArgHandle 0; ArgOther "x"]
          w_dispatched = Ok w'.
Proof.
  assert (∀ h e rest,
    [ArgHandle 0; ArgOther "x"] ≠ ArgHandle h :: ArgEvent e :: rest)
    as Hargs by (intros h e rest; discriminate).
  destruct (C10_invalid_arguments testAsyncListener _ w_dispatched Hargs)
    as (Hh & _ & Ha).
  split_and!; [exact Hargs | exact Hh |].
  assert (1 <= GoEvent.wg (ge w_dispatched)) as H1 by (vm_compute; discriminate).
  destruct (heap w_dispatched !! 0%nat) as [dh|] eqn:Hdh; [|vm_compute in Hdh; discriminate].
  eexists. apply (Ha H1 dh eq_refl).
  vm_compute in Hdh. injection Hdh as <-. vm_compute. discriminate.
Defined.

(** * Further properties of the code *)

(** ** The message of an error record *)

Lemma append_quote_inj a b x y :
  no_quote a = true → no_quote b = true →
  String.append a (String "'" x) = String.append b (String "'" y) →
  a = b ∧ x = y.
Proof.
  revert b. induction a as [|c a IH]; intros [|d b] Ha Hb H; simpl in *.
  - by injection H as ->.
  - injection H as <- _. by rewrite Ascii.eqb_refl in Hb.
  - injection H as -> _. by rewrite Ascii.eqb_refl in Ha.
  - injection H as -> H.
    apply andb_true_iff in Ha as [_ Ha]. apply andb_true_iff in Hb as [_ Hb].
    destruct (IH b Ha Hb H) as [-> ->]. done.
Qed.

(** X1. The message [Error] prints tells what the record says: two
    records whose event names and listener types hold no apostrophe and
    which print the same message have the same event name, the same
    listener type and causes with the same message. (The causes need
    not be the same error value.) *)
Theorem X1_Error_injective (e1 e2 : EventError)
    (Hn1 : no_quote (EventName e1) = true)
    (Hn2 : no_quote (EventName e2) = true)
    (Ht1 : no_quote (ListenerType e1) = true)
    (Ht2 : no_quote (ListenerType e2) = true)
    (H : Error e1 = Error e2) :
  EventName e1 = EventName e2 ∧
  ListenerType e1 = ListenerType e2 ∧
  error_msg (Err e1) = error_msg (Err e2).
Proof.
  destruct e1 as [n1 t1 c1], e2 as [n2 t2 c2]. unfold Error in H.
  cbn [EventName ListenerType Err] in *.
  simpl in H. injection H as H.
  apply append_quote_inj in H as [-> H]; [|done..].
  simpl in H. injection H as H.
  apply append_quote_inj in H as [-> H]; [|done..].
  simpl in H. by injection H as ->.
Qed.

Lemma X1_Error_injective_witness :
  let e := {| EventName := "test.event";
              ListenerType := "*goevent.testAsyncErrorListener";
              Err := {| error_ref := 7; error_msg := "boom" |} |} in
  no_quote (EventName boom) = true ∧ no_quote (ListenerType boom) = true ∧
  Error boom =
    "event 'test.event' listener '*goevent.testAsyncErrorListener': boom"%string ∧
  Error boom = Error e ∧ boom ≠ e ∧
  error_msg (Err boom) = error_msg (Err e).
Proof.
  intros e. split_and!; [reflexivity.. | discriminate |].
  exact (proj2 (proj2 (X1_Error_injective boom e eq_refl eq_refl eq_refl
                         eq_refl eq_refl))).
Defined.

(** Without that condition two records that differ in more than the
    identity of the cause can print the same message. *)
Example Error_ambiguous :
  Error {| EventName := "a' listener 'b"; ListenerType := "c";
           Err := {| error_ref := 0; error_msg := "d" |} |} =
  Error {| EventName := "a"; ListenerType := "b' listener 'c";
           Err := {| error_ref := 0; error_msg := "d" |} |}.
Proof. reflexivity. Qed.

(** ** Invariants of reachable states, in general *)

Lemma run_invariant (P : World → Prop) :
  (∀ op w w', wf w → P w → exec op w = Ok w' → P w') →
  ∀ ops w0 w, wf w0 → P w0 → run ops w0 = Ok w → bus_fits w → P w.
Proof.
  intros Hstep ops. induction ops as [|op ops IH]; intros w0 w Hw0 HP; simpl.
  - by intros [= <-].
  - destruct (exec op w0) as [w1| |] eqn:E; try done.
    cbn [mbind Outcome_bind]. intros Hrun Hfit.
    apply (IH w1); [|by eapply Hstep|done..].
    apply (wf_exec op w0 w1); [done..|].
    unfold bus_fits in *. apply run_bus_mono in Hrun. lia.
Qed.

Lemma reachable_invariant (P : World → Prop) :
  P New →
  (∀ op w w', wf w → P w → exec op w = Ok w' → P w') →
  ∀ w, reachable w → bus_fits w → P w.
Proof.
  intros H0 Hstep w [ops Hrun] Hfit.
  by apply (run_invariant P Hstep ops New w wf_New H0).
Qed.

(** ** Waiting *)

Lemma WaitGroup_Wait_Ok c : WaitGroup.Wait c = Ok tt ↔ c = 0.
Proof.
  unfold WaitGroup.Wait. destruct (c =? 0) eqn:E.
  - apply Z.eqb_eq in E. by split.
  - apply Z.eqb_neq in E. by split.
Qed.

Lemma handle_Wait_Ok h dh w :
  heap w !! h = Some dh →
  handle_Wait h w = Ok tt ↔ DispatchHandle.wg dh = 0.
Proof.
  intros Hh. unfold handle_Wait, DispatchHandle.Wait. rewrite Hh.
  apply WaitGroup_Wait_Ok.
Qed.

Lemma count_if_le {A} (p q : A -> bool) (l : list A) :
  (∀ x, p x = true → q x = true) → (count_if p l <= count_if q l)%nat.
Proof.
  intros H. induction l as [|x l IH]; simpl; [lia |].
  destruct (p x) eqn:E; [rewrite (H x E); lia | destruct (q x); lia].
Qed.

Lemma is_call_for_is_call h t : is_call_for h t = true → is_call t = true.
Proof. by destruct t. Qed.



(** ** A handle whose calls have all returned *)

Lemma exec_settled op w w' h dh :
  wf w → heap w !! h = Some dh → DispatchHandle.wg dh = 0 →
  exec op w = Ok w' →
  ∃ dh', heap w' !! h = Some dh' ∧ DispatchHandle.wg dh' = 0 ∧
         DispatchHandle.errors dh' = DispatchHandle.errors dh ∧
         (DispatchHandle.done dh = true → DispatchHandle.done dh' = true).
Proof.
  intros Hw Hh Hz Hop. destruct op as [ls|e| |i]; simpl in Hop.
  - injection Hop as <-. exists dh.
    by rewrite (proj1 (RegisterListener_frame ls w)).
  - rewrite Dispatch_spec in Hop by (by apply wf_nonneg).
    injection Hop as <-. exists dh. rewrite dispatched_eq. cbn [heap].
    rewrite lookup_app_l; [done |]. by apply lookup_lt_Some in Hh.
  - injection Hop as <-. by exists dh.
  - destruct (pool w !! i) as [t|] eqn:Hi;
      [|unfold go in Hop; by rewrite Hi in Hop].
    pose proof (go_cases i t w Hw Hi) as Hc.
    destruct t as [l args|h0].
    + destruct Hc as (h1 & e & dh1 & -> & Hh1 & _ & Hone & Hgo).
      rewrite Hgo in Hop. injection Hop as <-.
      destruct (decide (h1 = h)) as [->|Hne].
      * rewrite Hh in Hh1. injection Hh1 as <-. lia.
      * exists dh. unfold completed. cbn [heap with_pool].
        by rewrite list_lookup_alter_ne.
    + destruct Hc as (dh0 & Hh0 & Hd0 & [[_ Hgo]|[_ Hgo]]);
        rewrite Hgo in Hop; [|done].
      injection Hop as <-. unfold closed. cbn [heap with_pool with_handle].
      destruct (decide (h0 = h)) as [->|Hne].
      * rewrite list_lookup_alter_eq, Hh. simpl. eexists. by split_and!.
      * exists dh. by rewrite list_lookup_alter_ne.
Qed.

Lemma run_settled ops : ∀ w w' h dh,
  wf w → heap w !! h = Some dh → DispatchHandle.wg dh = 0 →
  run ops w = Ok w' → bus_fits w' →
  ∃ dh', heap w' !! h = Some dh' ∧ DispatchHandle.wg dh' = 0 ∧
         DispatchHandle.errors dh' = DispatchHandle.errors dh ∧
         (DispatchHandle.done dh = true → DispatchHandle.done dh' = true).
Proof.
  induction ops as [|op ops IH]; intros w w' h dh Hw Hh Hz; simpl.
  - intros [= <-] _. by exists dh.
  - destruct (exec op w) as [w1| |] eqn:E; try done.
    cbn [mbind Outcome_bind]. intros Hrun Hfit.
    destruct (exec_settled op w w1 h dh Hw Hh Hz E)
      as (dh1 & Hh1 & Hz1 & He1 & Hd1).
    assert (wf w1) as Hw1.
    { apply (wf_exec op w w1); [done..|].
      unfold bus_fits in *. apply run_bus_mono in Hrun. lia. }
    destruct (IH w1 w' h dh1 Hw1 Hh1 Hz1 Hrun Hfit)
      as (dh' & Hh' & Hz' & He' & Hd').
    exists dh'. split_and!; [done.. | congruence | auto].
Qed.

(** X3. Once the [Wait] of a handle returns, that handle is settled:
    whatever the program and the scheduler do afterwards (further
    registrations, dispatches, clearings, goroutines), its [Wait] still
    returns at once, its [GetErrors] returns the same list, and its
    completion signal, once fired, stays fired. *)
Theorem X3_handle_settled (w w' : World) (ops : list Op) (h : nat)
    (dh : DispatchHandle.t)
    (Hr : reachable w) (Hh : heap w !! h = Some dh)
    (Hwait : handle_Wait h w = Ok tt)
    (Hrun : run ops w = Ok w') (Hfit : bus_fits w') :
  handle_Wait h w' = Ok tt ∧
  handle_GetErrors h w' = handle_GetErrors h w ∧
  (handle_Done h w = true → handle_Done h w' = true).
Proof.
  assert (bus_fits w) as Hfit0.
  { pose proof (run_bus_mono ops w w' Hrun). unfold bus_fits in *. lia. }
  pose proof (reachable_wf w Hr Hfit0) as Hw.
  pose proof (proj1 (handle_Wait_Ok h dh w Hh) Hwait) as Hz.
  destruct (run_settled ops w w' h dh Hw Hh Hz Hrun Hfit)
    as (dh' & Hh' & Hz' & He' & Hd').
  split_and!.
  - by apply (handle_Wait_Ok h dh' w' Hh').
  - unfold handle_GetErrors, DispatchHandle.GetErrors.
    rewrite Hh, Hh'. simpl. done.
  - unfold handle_Done, DispatchHandle.Done. rewrite Hh, Hh'. simpl. done.
Qed.

(** ** A handle whose signal has fired *)

Lemma exec_new_handle op w w' h dh' :
  wf w → exec op w = Ok w' →
  heap w !! h = None → heap w' !! h = Some dh' →
  DispatchHandle.done dh' = false.
Proof.
  intros Hw Hop Hnone Hsome. destruct op as [ls|e| |i]; simpl in Hop.
  - injection Hop as <-.
    rewrite (proj1 (RegisterListener_frame ls w)) in Hsome. congruence.
  - rewrite Dispatch_spec in Hop by (by apply wf_nonneg).
    injection Hop as <-. rewrite dispatched_eq in Hsome. cbn [heap] in Hsome.
    apply lookup_snoc_Some in Hsome as [[_ Hsome]|[_ <-]]; [congruence | done].
  - injection Hop as <-. simpl in Hsome. congruence.
  - apply lookup_ge_None in Hnone.
    assert (length (heap w') = length (heap w)) as Hlen.
    { destruct (pool w !! i) as [t|] eqn:Hi;
        [|unfold go in Hop; by rewrite Hi in Hop].
      pose proof (go_cases i t w Hw Hi) as Hc.
      destruct t as [l args|h0].
      - destruct Hc as (h1 & e & dh1 & -> & _ & _ & _ & Hgo).
        rewrite Hgo in Hop. injection Hop as <-.
        unfold completed. cbn [heap]. by rewrite length_alter.
      - destruct Hc as (dh0 & _ & _ & [[_ Hgo]|[_ Hgo]]);
          rewrite Hgo in Hop; [|done].
        injection Hop as <-. unfold closed. cbn [heap with_handle].
        by rewrite length_alter. }
    apply lookup_lt_Some in Hsome. lia.
Qed.

Lemma exec_fired_settled op w w' :
  wf w → fired_settled w → exec op w = Ok w' → fired_settled w'.
Proof.
  intros Hw HP Hop h dh' Hh' Hd'.
  destruct (heap w !! h) as [dh|] eqn:Hh.
  - assert (DispatchHandle.wg dh = 0) as Hz.
    { destruct (DispatchHandle.done dh) eqn:Hd; [by apply (HP h dh) |].
      destruct (exec_done op w w' h dh Hw Hop Hh) as [_ Hfire].
      unfold handle_Done, handle_wg, DispatchHandle.Done in Hfire.
      rewrite Hh, Hh' in Hfire. simpl in Hfire.
      by destruct (Hfire Hd Hd') as [Hz _]. }
    destruct (exec_settled op w w' h dh Hw Hh Hz Hop) as (dh1 & Hh1 & Hz1 & _).
    congruence.
  - pose proof (exec_new_handle op w w' h dh' Hw Hop Hh Hh'). congruence.
Qed.

(** X4. In every reachable state a handle whose completion signal has
    fired has no listener call outstanding and no watcher left: a
    receive on [Done] that succeeds tells that [Wait] returns at
    once. *)
Theorem X4_Done_implies_Wait (w : World) (h : nat)
    (Hr : reachable w) (Hfit : bus_fits w)
    (Hdone : handle_Done h w = true) :
  handle_Wait h w = Ok tt ∧
  count_if (is_call_for h) (pool w) = 0%nat ∧
  count_if (is_watcher h) (pool w) = 0%nat.
Proof.
  pose proof (reachable_wf w Hr Hfit) as Hw.
  assert (fired_settled w) as HP.
  { apply reachable_invariant; [done | | done..].
    intros op w0 w1. apply exec_fired_settled. }
  unfold handle_Done, DispatchHandle.Done in Hdone.
  destruct (heap w !! h) as [dh|] eqn:Hh; [|done]. simpl in Hdone.
  pose proof (HP h dh Hh Hdone) as Hz.
  split_and!.
  - by apply (handle_Wait_Ok h dh w Hh).
  - pose proof (wf_handle_wg w Hw h dh Hh). lia.
  - pose proof (wf_done w Hw h dh Hh) as H1. rewrite Hdone in H1. lia.
Qed.

Lemma reachable_w_completed : reachable w_completed.
Proof.
  apply (reachable_run [OpGo 0] w_dispatched);
    [exact reachable_w_dispatched | reflexivity].
Qed.

Lemma reachable_w_fired : reachable w_fired.
Proof.
  apply (reachable_run [OpGo 0] w_completed);
    [exact reachable_w_completed | reflexivity].
Qed.

Lemma bus_fits_w_fired : bus_fits w_fired.
Proof. unfold bus_fits. vm_compute. discriminate. Qed.

Lemma X3_handle_settled_witness :
  ∃ w', run [OpDispatch (testEvent "y"); OpGo 0; OpClearErrors] w_completed
          = Ok w' ∧
        reachable w_completed ∧ bus_fits w' ∧
        handle_Wait 0 w_completed = Ok tt ∧
        handle_Wait 0 w' = Ok tt ∧
        handle_GetErrors 0 w' = handle_GetErrors 0 w_completed.
Proof.
  destruct (run [OpDispatch (testEvent "y"); OpGo 0; OpClearErrors]
              w_completed) as [w'| |] eqn:Hrun;
    [|vm_compute in Hrun; discriminate..].
  assert (bus_fits w') as Hfit.
  { vm_compute in Hrun. injection Hrun as <-.
    unfold bus_fits. vm_compute. discriminate. }
  destruct (heap w_completed !! 0%nat) as [dh|] eqn:Hdh;
    [|vm_compute in Hdh; discriminate].
  assert (handle_Wait 0 w_completed = Ok tt) as Hwait by reflexivity.
  destruct (X3_handle_settled w_completed w' _ 0%nat dh
              reachable_w_completed Hdh Hwait Hrun Hfit) as (H1 & H2 & _).
  exists w'. by split_and!; [| exact reachable_w_completed | ..].
Defined.

Lemma X4_Done_implies_Wait_witness :
  reachable w_fired ∧ bus_fits w_fired ∧ handle_Done 0 w_fired = true ∧
  handle_Wait 0 w_fired = Ok tt.
Proof.
  split_and!; [exact reachable_w_fired | exact bus_fits_w_fired
              | reflexivity |].
  exact (proj1 (X4_Done_implies_Wait w_fired 0%nat reachable_w_fired
                  bus_fits_w_fired eq_refl)).
Defined.

(** ** Where the errors of a log come from *)

Lemma elem_of_filter {A} (p : A -> bool) (l : list A) x :
  x ∈ List.filter p l ↔ x ∈ l ∧ p x = true.
Proof. rewrite !list_elem_of_In. apply List.filter_In. Qed.

Lemma since_clear_subset t it : it ∈ since_clear t → it ∈ t.
Proof.
  induction t as [|x t IH] using rev_ind; [done |].
  rewrite since_clear_snoc, elem_of_app.
  destruct x as [h l e|]; [|by intros ?%elem_of_nil].
  rewrite elem_of_app. intros [?|?]; auto.
Qed.

Lemma exec_routed op w w' : wf w → routed w → exec op w = Ok w' → routed w'.
Proof.
  intros Hw (Hb & Hp & Ht) Hop. unfold routed.
  destruct op as [ls|e| |i]; simpl in Hop.
  - injection Hop as <-.
    destruct (RegisterListener_frame ls w) as (_ & -> & -> & _).
    split_and!; [|done..]. rewrite RegisterListener_bus.
    apply Forall_app. split; [done |].
    apply Forall_forall. by intros s (l & -> & _)%list_elem_of_fmap.
  - rewrite Dispatch_spec in Hop by (by apply wf_nonneg).
    injection Hop as <-. rewrite dispatched_eq.
    assert (∀ s, s ∈ Bus.handlers (Name e) (GoEvent.bus (ge w)) →
                 Name e = Listener.EventName (Bus.sub_listener s)) as Hs.
    { intros s [Hin Ht']%elem_of_filter.
      apply bool_decide_eq_true in Ht'.
      rewrite <- Ht'. by apply (proj1 (Forall_forall _ _) Hb). }
    split_and!; cbn [ge pool trace ge_add_errors GoEvent.set_wg GoEvent.bus].
    + done.
    + rewrite !Forall_app. split_and!; [done | |by apply Forall_singleton].
      apply Forall_forall.
      intros t (s & -> & [Hin _]%elem_of_filter)%list_elem_of_fmap.
      intros h0 e0 [= _ <-]. by apply Hs.
    + rewrite Forall_app. split; [done |]. apply Forall_forall.
      intros t (s & -> & [Hin _]%elem_of_filter)%list_elem_of_fmap.
      by apply Hs.
  - injection Hop as <-. split_and!; [done..|]. simpl.
    rewrite Forall_app. split; [done |]. by apply Forall_singleton.
  - destruct (pool w !! i) as [t|] eqn:Hi;
      [|unfold go in Hop; by rewrite Hi in Hop].
    pose proof (go_cases i t w Hw Hi) as Hc.
    pose proof (Forall_lookup_1 _ _ _ _ Hp Hi) as Hti.
    destruct t as [l args|h0].
    + destruct Hc as (h1 & e & dh1 & -> & _ & _ & _ & Hgo).
      rewrite Hgo in Hop. injection Hop as <-.
      split_and!; cbn [completed ge pool trace with_pool ge_add_errors
                       GoEvent.set_wg GoEvent.bus].
      * done.
      * by apply Forall_delete.
      * rewrite Forall_app. split; [done |]. apply Forall_singleton.
        by apply (Hti h1 e).
    + destruct Hc as (dh0 & _ & _ & [[_ Hgo]|[_ Hgo]]);
        rewrite Hgo in Hop; [|done].
      injection Hop as <-. split_and!; [done | | done].
      by apply Forall_delete.
Qed.

Lemma failure_Some l e err :
  failure l e = Some err →
  ∃ c, Listener.OnEvent l e = Some c ∧
       err = {| EventName := Listener.EventName l;
                ListenerType := Listener.TypeName l; Err := c |}.
Proof.
  unfold failure. destruct (Listener.OnEvent l e) as [c|]; [|done].
  intros [= <-]. by exists c.
Qed.

(** X5. In every reachable state each error of a handle's log comes
    from a call of [OnEvent] made for that handle which returned a
    failure, and each error of the global log from such a call for some
    handle; its [Err] is the failure returned, its [ListenerType] the
    type of the listener called, and its [EventName], which the adapter
    takes from the listener, is the name of the event that was
    dispatched. *)
Theorem X5_error_provenance (w : World)
    (Hr : reachable w) (Hfit : bus_fits w) :
  (∀ h err, err ∈ handle_GetErrors h w →
     ∃ l e c, Invoked h l e ∈ trace w ∧ Listener.OnEvent l e = Some c ∧
              err = {| EventName := Name e;
                       ListenerType := Listener.TypeName l; Err := c |}) ∧
  (∀ err, err ∈ GetErrors w →
     ∃ h l e c, Invoked h l e ∈ trace w ∧ Listener.OnEvent l e = Some c ∧
                err = {| EventName := Name e;
                         ListenerType := Listener.TypeName l; Err := c |}).
Proof.
  pose proof (reachable_wf w Hr Hfit) as Hw.
  assert (routed w) as (_ & _ & Ht).
  { apply reachable_invariant; [by split_and! | | done..].
    intros op w0 w1. apply exec_routed. }
  split.
  - intros h err Hin. unfold handle_GetErrors in Hin.
    destruct (heap w !! h) as [dh|] eqn:Hh; [|by apply elem_of_nil in Hin].
    simpl in Hin. unfold DispatchHandle.GetErrors in Hin.
    rewrite (wf_handle_errors w Hw h dh Hh) in Hin.
    apply list_elem_of_omap in Hin as (it & Hit & Hf).
    destruct it as [h' l e|]; [|done].
    case_decide; [subst h'|done].
    apply failure_Some in Hf as (c & Hc & ->).
    exists l, e, c. split_and!; [done..|].
    by rewrite (proj1 (Forall_forall _ _) Ht _ Hit).
  - intros err Hin. unfold GetErrors, GoEvent.GetErrors in Hin.
    rewrite (wf_ge_errors w Hw) in Hin.
    apply list_elem_of_omap in Hin as (it & Hit%since_clear_subset & Hf).
    destruct it as [h l e|]; [|done].
    apply failure_Some in Hf as (c & Hc & ->).
    exists h, l, e, c. split_and!; [done..|].
    by rewrite (proj1 (Forall_forall _ _) Ht _ Hit).
Qed.

Lemma X5_error_provenance_witness :
  reachable w_completed ∧ bus_fits w_completed ∧
  boom ∈ handle_GetErrors 0 w_completed ∧
  ∃ l e c, Invoked 0 l e ∈ trace w_completed ∧
           Listener.OnEvent l e = Some c ∧
           boom = {| EventName := Name e;
                     ListenerType := Listener.TypeName l; Err := c |}.
Proof.
  assert (bus_fits w_completed) as Hfit
    by (unfold bus_fits; vm_compute; discriminate).
  assert (boom ∈ handle_GetErrors 0 w_completed) as Hin.
  { apply list_elem_of_In. vm_compute. auto. }
  split_and!; [exact reachable_w_completed | exact Hfit | exact Hin |].
  exact (proj1 (X5_error_provenance w_completed reachable_w_completed Hfit)
           0%nat boom Hin).
Defined.

(** ** Who is called by a dispatch *)

Lemma exec_bus op w w' :
  exec op w = Ok w' →
  GoEvent.bus (ge w') =
  GoEvent.bus (ge w) ++ map subscription_of (registered [op]).
Proof.
  destruct op as [ls|e| |i]; simpl.
  - intros [= <-]. by rewrite RegisterListener_bus, app_nil_r.
  - destruct (Dispatch e w) as [r| |] eqn:E; try done.
    apply Dispatch_inv in E as ->. intros [= <-]. cbn [snd].
    by rewrite dispatched_eq, app_nil_r.
  - intros [= <-]. by rewrite app_nil_r.
  - intros H. by rewrite (go_bus _ _ _ H), app_nil_r.
Qed.

Lemma run_bus ops : ∀ w w',
  run ops w = Ok w' →
  GoEvent.bus (ge w') = GoEvent.bus (ge w) ++ map subscription_of (registered ops).
Proof.
  induction ops as [|op ops IH]; intros w w'; simpl.
  - intros [= <-]. by rewrite app_nil_r.
  - destruct (exec op w) as [w1| |] eqn:E; try done.
    cbn [mbind Outcome_bind]. intros Hrun.
    rewrite (IH w1 w' Hrun), (exec_bus op w w1 E).
    destruct op; simpl; rewrite ?app_nil_r; [|done..].
    by rewrite map_app, app_assoc.
Qed.

Lemma handlers_sync name ls :
  List.filter is_sync (Bus.handlers name (map subscription_of ls)) =
  map subscription_of (List.filter (sync_on name) ls).
Proof.
  unfold Bus.handlers, is_sync, sync_on, Bus.on_topic.
  induction ls as [|l ls IH]; [done |]. simpl.
  case_bool_decide; simpl.
  - rewrite andb_true_r. destruct (isAsync l); simpl; by rewrite IH.
  - by rewrite andb_false_r.
Qed.

Lemma handlers_async name ls :
  List.filter Bus.sub_async (Bus.handlers name (map subscription_of ls)) =
  map subscription_of (List.filter (async_on name) ls).
Proof.
  unfold Bus.handlers, async_on, Bus.on_topic.
  induction ls as [|l ls IH]; [done |]. simpl.
  case_bool_decide; simpl.
  - rewrite andb_true_r. destruct (isAsync l); simpl; by rewrite IH.
  - by rewrite andb_false_r.
Qed.

(** X6. When the call of [Dispatch] for an event [e] has served every
    handler and is about to start the watcher and return, in an
    execution that registered the listeners [registered_by sts]: the
    calling goroutine has run, inline, exactly the synchronous
    listeners registered for the name of [e], once per registration and
    in registration order, each with its call of [OnEvent] followed, if
    the call failed, by its two appends, whether or not earlier ones
    failed; it has started one goroutine per asynchronous listener
    registered for that name, in registration order; the errors of the
    synchronous listeners are, in that order, a subsequence of the
    handle's log (which may also hold errors of asynchronous listeners
    that have run in between); and the next operation starts the
    watcher and returns, leaving the dispatcher and the handles as
    they are. *)
Theorem X6_publish_in_order (sts : list Step) (s : State) (h : nat)
    (e : Event)
    (Hrun : steps sts Start = Ok s) (Hfit : fits s)
    (Em : s_main s = Dispatching h e (DPublish [] None)) :
  inline h (s_hist s) =
    flat_map (inline_script h e)
      (map subscription_of (List.filter (sync_on (Name e)) (registered_by sts))) ∧
  spawned h (s_hist s) = List.filter (async_on (Name e)) (registered_by sts) ∧
  (∀ dh, s_heap s !! h = Some dh →
     sublist (omap (fun l => failure l e)
                (List.filter (sync_on (Name e)) (registered_by sts)))
             (DispatchHandle.GetErrors dh)) ∧
  ∃ s', step StCaller s = Ok s' ∧ s_main s' = Idle ∧
        s_gs s' = s_gs s ++ [GoWatcher h WWait] ∧
        s_ge s' = s_ge s ∧ s_heap s' = s_heap s.
Proof.
  assert (Hr : running s) by (by exists sts).
  pose proof (running_publishing_ok s Hr Hfit _ _ _ Em) as (served & Hh & Hi & Hsp).
  pose proof (running_logs_fine s Hr Hfit) as Hl.
  rewrite app_nil_r in Hh. subst served. simpl in Hi. rewrite app_nil_r in Hi.
  rewrite (steps_bus _ _ _ Hrun) in Hi, Hsp. simpl in Hi, Hsp.
  rewrite handlers_sync in Hi. rewrite handlers_async in Hsp.
  split; [done |]. split.
  { rewrite Hsp, map_map. simpl. apply map_id. }
  split.
  - intros dh Hdh. unfold DispatchHandle.GetErrors.
    rewrite (lf_handle s Hl _ _ Hdh).
    pose proof (omap_filter_sublist (recorded_on h) (by_caller h) (s_hist s))
      as Hsub.
    change (sublist (handle_records h (inline h (s_hist s)))
              (handle_records h (s_hist s))) in Hsub.
    rewrite Hi, records_of_inline in Hsub.
    by rewrite omap_map in Hsub.
  - eexists. split; [simpl; unfold caller_step; by rewrite Em |]. done.
Qed.

Lemma X6_publish_in_order_witness :
  fits s_interleaved ∧
  inline 0 (s_hist s_interleaved) =
    [ACall Caller 0 testErrorListener (testEvent "x");
     ARecordHandle Caller 0 test_error; ARecordGlobal Caller 0 test_error] ∧
  spawned 0 (s_hist s_interleaved) = [testAsyncErrorListener].
Proof.
  destruct (X6_publish_in_order sched_interleaved s_interleaved 0
              (testEvent "x") steps_s_interleaved fits_s_interleaved eq_refl)
    as (Hi & Hsp & _).
  split_and!; [exact fits_s_interleaved | by rewrite Hi | by rewrite Hsp].
Defined.





(** X9. [RegisterListener] subscribes its arguments one by one in
    argument order, after the subscriptions already made and without
    leaving out a listener that is already subscribed; one call with
    the arguments of two calls does what the two calls do in sequence.
    It calls no listener and changes no handle, no pending goroutine,
    no counter and no log. *)
Theorem X9_RegisterListener_order (ls1 ls2 : list Listener.t) (w : World) :
  RegisterListener (ls1 ++ ls2) w = RegisterListener ls2 (RegisterListener ls1 w) ∧
  GoEvent.bus (ge (RegisterListener ls1 w)) =
    GoEvent.bus (ge w) ++ map subscription_of ls1 ∧
  heap (RegisterListener ls1 w) = heap w ∧
  pool (RegisterListener ls1 w) = pool w ∧
  trace (RegisterListener ls1 w) = trace w ∧
  GoEvent.wg (ge (RegisterListener ls1 w)) = GoEvent.wg (ge w) ∧
  GetErrors (RegisterListener ls1 w) = GetErrors w.
Proof.
  split; [apply fold_left_app |].
  split; [apply RegisterListener_bus |].
  apply RegisterListener_frame.
Qed.

(** ** Quiescence *)

Lemma count_if_zero_lookup {A} (p : A -> bool) (l : list A) i x :
  count_if p l = 0%nat → l !! i = Some x → p x = false.
Proof.
  intros Hz Hi. pose proof (count_if_delete p l i x Hi) as H.
  destruct (p x); [lia | done].
Qed.

Lemma drain n : ∀ w,
  wf w → length (pool w) = n →
  ∃ sched w', run (map OpGo sched) w = Ok w' ∧ wf w' ∧ pool w' = [] ∧
              length (heap w') = length (heap w).
Proof.
  induction n as [|n IH]; intros w Hw Hlen.
  - exists [], w. split_and!; [done.. | | done].
    by apply nil_length_inv.
  - assert (∃ i t, pool w !! i = Some t ∧
              (is_call t = true ∨ count_if is_call (pool w) = 0%nat))
      as (i & t & Hi & Hcase).
    { destruct (count_if is_call (pool w)) as [|c] eqn:Hc.
      - destruct (lookup_lt_is_Some_2 (pool w) 0) as [t Ht]; [lia |].
        exists 0%nat, t. auto.
      - destruct (count_if_pos_lookup is_call (pool w)) as (i & t & ? & ?);
          [lia |]. exists i, t. auto. }
    pose proof (go_cases i t w Hw Hi) as Hc.
    assert (length (delete i (pool w)) = n) as Hlen'.
    { rewrite length_delete by (by eexists). lia. }
    destruct t as [l args|h].
    + destruct Hc as (h & e & dh & -> & Hh & _ & _ & Hgo).
      destruct (IH (completed l h e (with_pool (delete i) w)))
        as (sched & w' & Hrun & Hw' & Hp & Hl);
        [by apply wf_completed | done |].
      exists (i :: sched), w'. split_and!; [|done..|].
      * simpl. by rewrite Hgo.
      * rewrite Hl. unfold completed. cbn [heap]. by rewrite length_alter.
    + destruct Hcase as [?|Hz]; [done |].
      destruct Hc as (dh & Hh & _ & [[_ Hgo]|[Hnz _]]).
      * destruct (IH (closed h (with_pool (delete i) w)))
          as (sched & w' & Hrun & Hw' & Hp & Hl);
          [by apply (wf_closed i h w) | done |].
        exists (i :: sched), w'. split_and!; [|done..|].
        -- simpl. by rewrite Hgo.
        -- rewrite Hl. unfold closed. cbn [heap with_handle].
           by rewrite length_alter.
      * pose proof (wf_handle_wg w Hw h dh Hh) as Hwg.
        pose proof (count_if_le (is_call_for h) is_call (pool w)
                      (is_call_for_is_call h)). lia.
Qed.

(** X10. The dispatcher cannot get stuck: from every reachable state
    the scheduler can run the pending goroutines in an order in which
    none blocks or panics, after which none is left, the dispatcher's
    [Wait] returns, and the [Wait] of every handle returns and its
    completion signal has fired. (A listener's [OnEvent] is taken to
    return.) *)
Theorem X10_quiescence (w : World) (Hr : reachable w) (Hfit : bus_fits w) :
  ∃ sched w',
    run (map OpGo sched) w = Ok w' ∧ pool w' = [] ∧
    Wait w' = Ok tt ∧
    ∀ h, (h < length (heap w))%nat →
         handle_Wait h w' = Ok tt ∧ handle_Done h w' = true.
Proof.
  pose proof (reachable_wf w Hr Hfit) as Hw.
  destruct (drain _ w Hw eq_refl) as (sched & w' & Hrun & Hw' & Hp & Hl).
  exists sched, w'. split_and!; [done.. | |].
  - unfold Wait, GoEvent.Wait. apply WaitGroup_Wait_Ok.
    by rewrite (wf_ge_wg w' Hw'), Hp.
  - intros h Hlt. rewrite <- Hl in Hlt.
    destruct (lookup_lt_is_Some_2 _ _ Hlt) as [dh Hh]. split.
    + apply (handle_Wait_Ok h dh w' Hh).
      by rewrite (wf_handle_wg w' Hw' h dh Hh), Hp.
    + unfold handle_Done, DispatchHandle.Done. rewrite Hh. simpl.
      pose proof (wf_done w' Hw' h dh Hh) as Hd. rewrite Hp in Hd.
      simpl in Hd. by destruct (DispatchHandle.done dh).
Qed.

Lemma X10_quiescence_witness :
  reachable w_dispatched ∧ bus_fits w_dispatched ∧
  Wait w_dispatched = Blocked ∧
  ∃ sched w', run (map OpGo sched) w_dispatched = Ok w' ∧ pool w' = [] ∧
              Wait w' = Ok tt.
Proof.
  split_and!; [exact reachable_w_dispatched | exact bus_fits_w_dispatched
              | reflexivity |].
  destruct (X10_quiescence w_dispatched reachable_w_dispatched
              bus_fits_w_dispatched) as (sched & w' & Hrun & Hp & Hwait & _).
  by exists sched, w'.
Defined.

(** ** Logs that share a store *)

(** What [append] does, seen from the slice appended to and from any
    other allocated slice on another array. *)
Lemma append_spec spare s err m :
  slice_ok m s →
  let s' := fst (Slice.append spare s err m) in
  let m' := snd (Slice.append spare s err m) in
  slice_ok m' s' ∧
  Slice.read m' s' = Slice.read m s ++ [Some err] ∧
  (length m <= length m')%nat ∧
  (Slice.ptr s' = Slice.ptr s ∨ (length m <= Slice.ptr s')%nat) ∧
  (∀ t, (Slice.ptr t < length m)%nat → Slice.ptr t ≠ Slice.ptr s →
        Slice.array m' t = Slice.array m t).
Proof.
  intros (Hp & Hlen & Hle). unfold Slice.append, slice_ok.
  case_decide as Hroom; cbn [fst snd Slice.ptr Slice.len Slice.cap].
  - rewrite length_alter.
    assert (Slice.array (alter (λ a, <[Slice.len s:=Some err]> a)
              (Slice.ptr s) m)
              {| Slice.ptr := Slice.ptr s; Slice.len := S (Slice.len s);
                 Slice.cap := Slice.cap s |}
            = <[Slice.len s:=Some err]> (Slice.array m s)) as Ha
      by (by apply (array_alter_eq _ m
            {| Slice.ptr := Slice.ptr s; Slice.len := S (Slice.len s);
               Slice.cap := Slice.cap s |})).
    split_and!; [done | | lia | | lia | by left |].
    + by rewrite Ha, length_insert.
    + unfold Slice.read. rewrite Ha. cbn [Slice.len].
      rewrite (take_S_r _ _ (Some err))
        by (apply list_lookup_insert_eq; lia).
      by rewrite take_insert_ge by lia.
    + intros t _ Hne. by apply array_alter_ne.
  - rewrite length_app. simpl.
    assert (length (Slice.read m s) = Slice.len s) as Hrl
      by (unfold Slice.read; rewrite length_take; lia).
    split_and!; [lia | | lia | | lia | right; lia |].
    + unfold Slice.array. cbn [Slice.ptr].
      rewrite list_lookup_middle by done. simpl.
      rewrite length_app. simpl. rewrite length_replicate. lia.
    + rewrite read_fresh by done. cbn [Slice.len].
      rewrite (cons_middle (Some err)), app_assoc.
      by rewrite take_app_length' by (rewrite length_app; simpl; lia).
    + intros t Ht _. by apply array_app_l.
Qed.

(** Replacing one log's slice, when the arrays of the other logs are
    left alone. *)
Lemma logs_update m m' logs k s s' :
  logs_ok (m, logs) → logs !! k = Some s →
  (length m <= length m')%nat →
  (∀ t, (Slice.ptr t < length m)%nat → Slice.ptr t ≠ Slice.ptr s →
        Slice.array m' t = Slice.array m t) →
  (Slice.ptr s' = Slice.ptr s ∨ (length m <= Slice.ptr s')%nat) →
  slice_ok m' s' →
  logs_ok (m', <[k := s']> logs) ∧
  ∀ j t, j ≠ k → logs !! j = Some t → Slice.read m' t = Slice.read m t.
Proof.
  intros [Hnd Hall] Hk Hgrow Hframe Hptr Hs'. cbn [fst snd] in *.
  assert (∀ j t, j ≠ k → logs !! j = Some t →
            (Slice.ptr t < length m)%nat ∧ Slice.ptr t ≠ Slice.ptr s) as Hother.
  { intros j t Hne Hj.
    pose proof (Forall_lookup_1 _ _ _ _ Hall Hj) as (Ht & _).
    split; [done |]. intros Heq. apply Hne.
    apply (proj1 (NoDup_alt _) Hnd j k (Slice.ptr t));
      rewrite list_lookup_fmap; [by rewrite Hj | by rewrite Hk, Heq]. }
  split; [split; cbn [fst snd] |].
  - apply NoDup_alt. intros i j p.
    rewrite !list_lookup_fmap, !fmap_Some.
    intros (t1 & Hi & ->) (t2 & Hj & Heq).
    apply list_lookup_insert_Some in Hi as [(<- & <- & Hlt)|[Hik Hi]];
      apply list_lookup_insert_Some in Hj as [(<- & <- & Hlt')|[Hjk Hj]];
      try done.
    + destruct (Hother j t2 ltac:(done) Hj) as [Hlt2 Hne2].
      destruct Hptr as [Hp|Hp]; [congruence | lia].
    + destruct (Hother i t1 ltac:(done) Hi) as [Hlt1 Hne1].
      destruct Hptr as [Hp|Hp]; [congruence | lia].
    + apply (proj1 (NoDup_alt _) Hnd i j (Slice.ptr t1));
        rewrite list_lookup_fmap; [by rewrite Hi | by rewrite Hj, Heq].
  - apply Forall_lookup. intros j t Hj.
    apply list_lookup_insert_Some in Hj as [(<- & <- & Hlt)|[Hjk Hj]];
      [done |].
    destruct (Hother j t ltac:(done) Hj) as [Hlt Hne].
    pose proof (Forall_lookup_1 _ _ _ _ Hall Hj) as (_ & Hlen & Hle).
    unfold slice_ok in *. rewrite (Hframe t Hlt Hne). split_and!; [lia | done..].
  - intros j t Hne Hj. destruct (Hother j t Hne Hj) as [Hlt Hne'].
    unfold Slice.read. by rewrite (Hframe t Hlt Hne').
Qed.

Lemma make_spec n m :
  slice_ok (snd (Slice.make n m)) (fst (Slice.make n m)) ∧
  Slice.read (snd (Slice.make n m)) (fst (Slice.make n m)) = replicate n None ∧
  Slice.ptr (fst (Slice.make n m)) = length m.
Proof.
  unfold Slice.make, slice_ok. cbn [fst snd Slice.ptr Slice.len Slice.cap].
  rewrite length_app. simpl.
  assert (Slice.array (m ++ [replicate n None])
            {| Slice.ptr := length m; Slice.len := n; Slice.cap := n |}
          = replicate n None) as Ha
    by (unfold Slice.array; cbn [Slice.ptr]; by rewrite list_lookup_middle).
  split_and!; [lia | by rewrite Ha, length_replicate | done | | done].
  rewrite read_fresh by done. cbn [Slice.len].
  by rewrite take_replicate, Nat.min_id.
Qed.

(** X11. The logs of a program live in one store of arrays, as slices
    that share no array. Every operation on a log keeps it so, and does
    to the contents of the logs what the list-level functions say:
    [recordError] puts the error at the end of its log, whether
    [append] writes in place or moves the log to a new array,
    [ClearErrors] empties its log, [GetErrors] changes none, and in
    each case every other log reads as before. *)
Theorem X11_logs_independent (spare : nat -> nat) (op : ErrorLog.Op)
    (st : Slice.Mem * list Slice.t) (Hok : logs_ok st) :
  logs_ok (ErrorLog.exec spare op st) ∧
  contents (ErrorLog.exec spare op st) = log_exec op (contents st).
Proof.
  destruct st as [m logs]. unfold contents.
  destruct op as [k err|k|k]; unfold ErrorLog.exec, log_exec;
    destruct (logs !! k) as [s|] eqn:Hk; cbn [fst snd].
  - pose proof (Forall_lookup_1 _ _ _ _ (proj2 Hok) Hk) as Hs.
    cbn [fst snd] in Hs.
    destruct (append_spec spare s err m Hs) as (Hs' & Hr & Hg & Hp & Hf).
    unfold ErrorLog.recordError.
    destruct (Slice.append spare s err m) as [s' m'] eqn:Ha.
    cbn [fst snd] in *.
    destruct (logs_update m m' logs k s s' Hok Hk Hg Hf Hp Hs') as [Hok' Hrd].
    split; [done |]. apply list_eq. intros j.
    rewrite list_lookup_fmap, list_lookup_alter, list_lookup_fmap.
    destruct (decide (k = j)) as [<-|Hne].
    + rewrite list_lookup_insert_eq by (by apply lookup_lt_Some in Hk).
      rewrite Hk. simpl. by rewrite Hr.
    + rewrite list_lookup_insert_ne, list_lookup_fmap by done.
      destruct (logs !! j) as [t|] eqn:Hj; [|done]. simpl.
      by rewrite (Hrd j t) by done.
  - split; [done |]. symmetry. apply list_eq. intros j.
    rewrite list_lookup_alter, list_lookup_fmap.
    case_decide; [subst|done]. by rewrite list_lookup_fmap, Hk.
  - destruct (make_spec 0 m) as (Hs' & Hr & Hp).
    unfold ErrorLog.ClearErrors.
    destruct (Slice.make 0 m) as [s' m'] eqn:Hmk. cbn [fst snd] in *.
    assert (m' = m ++ [[]]) as Hm' by (by injection Hmk as _ <-).
    destruct (logs_update m m' logs k s s' Hok Hk) as [Hok' Hrd];
      [rewrite Hm', length_app; simpl; lia
      |intros t Ht _; rewrite Hm'; by apply array_app_l
      |right; lia | done |].
    split; [done |]. apply list_eq. intros j.
    rewrite list_lookup_fmap, list_lookup_alter, list_lookup_fmap.
    destruct (decide (k = j)) as [<-|Hne].
    + rewrite list_lookup_insert_eq by (by apply lookup_lt_Some in Hk).
      rewrite Hk. simpl. by rewrite Hr.
    + rewrite list_lookup_insert_ne, list_lookup_fmap by done.
      destruct (logs !! j) as [t|] eqn:Hj; [|done]. simpl.
      by rewrite (Hrd j t) by done.
  - split; [done |]. symmetry. apply list_eq. intros j.
    rewrite list_lookup_alter, list_lookup_fmap.
    case_decide; [subst|done]. by rewrite list_lookup_fmap, Hk.
  - pose proof (Forall_lookup_1 _ _ _ _ (proj2 Hok) Hk) as (Hs & _).
    cbn [fst snd] in Hs. rewrite GetErrors_eq by done. cbn [fst snd].
    destruct Hok as [Hnd Hall]. cbn [fst snd] in *.
    split; [split; cbn [fst snd]; [done |] |].
    + eapply Forall_impl; [exact Hall |]. intros t (Ht & Hlen & Hle).
      rewrite length_app, array_app_l by done. simpl. split_and!; [lia | done..].
    + apply list_eq. intros j. rewrite !list_lookup_fmap.
      destruct (logs !! j) as [t|] eqn:Hj; [|done]. simpl.
      pose proof (Forall_lookup_1 _ _ _ _ Hall Hj) as (Ht & _).
      by rewrite read_app_l.
  - done.
Qed.

Lemma X11_logs_independent_witness :
  logs_ok (mem_example, logs_example) ∧
  contents (ErrorLog.exec (fun n => n) (ErrorLog.Record 0 boom)
              (mem_example, logs_example)) =
    [[Some boom; Some boom]; [Some boom]] ∧
  contents (ErrorLog.exec (fun n => n) (ErrorLog.Record 1 boom)
              (mem_example, logs_example)) =
    [[Some boom]; [Some boom; Some boom]].
Proof.
  assert (logs_ok (mem_example, logs_example)) as Hok.
  { split; simpl.
    - apply NoDup_cons. split; [|apply NoDup_singleton].
      intros H%list_elem_of_singleton. discriminate.
    - repeat constructor; simpl; lia. }
  split_and!; [exact Hok | |].
  - exact (proj2 (X11_logs_independent (fun n => n) (ErrorLog.Record 0 boom)
                    (mem_example, logs_example) Hok)).
  - exact (proj2 (X11_logs_independent (fun n => n) (ErrorLog.Record 1 boom)
                    (mem_example, logs_example) Hok)).
Defined.

(** ** Asynchronous delivery *)

(** X12. After an execution that registered the listeners [ls], let
    [l] be the [j]-th asynchronous listener of [ls] for the name of
    [e]. The [j]-th goroutine a dispatch of [e] starts is the call of
    [l] with the handle the dispatch returns and the event [e]. When
    the scheduler runs it, right after the dispatch, it neither blocks
    nor panics: it calls [OnEvent] of [l] on [e], puts the failure, if
    any, at the end of that handle's log, and lowers that handle's
    counter by one. *)
Theorem X12_async_delivery (ops : list Op) (w : World) (e : Event)
    (j : nat) (l : Listener.t)
    (Hrun : run ops New = Ok w) (Hfit : bus_fits w)
    (Hj : List.filter (async_on (Name e)) (registered ops) !! j = Some l) :
  let h := length (heap w) in
  let i := (length (pool w) + j)%nat in
  pool (dispatched e w) !! i = Some (AsyncCall l [ArgHandle h; ArgEvent e]) ∧
  ∃ w', go i (dispatched e w) = Ok w' ∧
        trace w' = trace (dispatched e w) ++ [Invoked h l e] ∧
        handle_GetErrors h w' =
          handle_GetErrors h (dispatched e w) ++ option_list (failure l e) ∧
        handle_wg h w' = handle_wg h (dispatched e w) - 1.
Proof.
  intros h i.
  assert (reachable w) as Hr by (by exists ops).
  pose proof (reachable_wf w Hr Hfit) as Hw.
  pose proof (wf_dispatched e w Hw) as Hwd.
  pose proof (run_bus ops New w Hrun) as Hbus. simpl in Hbus.
  assert (pool (dispatched e w) !! i =
          Some (AsyncCall l [ArgHandle h; ArgEvent e])) as Hi.
  { rewrite dispatched_eq. cbn [pool]. rewrite Hbus, handlers_async, map_map.
    rewrite <- app_assoc. unfold i. rewrite lookup_app_r by lia.
    replace (length (pool w) + j - length (pool w))%nat with j by lia.
    apply lookup_app_l_Some. by rewrite list_lookup_fmap, Hj. }
  split; [done |].
  destruct (go_cases i _ _ Hwd Hi)
    as (h0 & e0 & dh & [= <- <-] & Hh & _ & _ & Hgo).
  eexists. split; [exact Hgo |].
  unfold completed, handle_GetErrors, handle_wg.
  cbn [heap trace with_pool]. rewrite list_lookup_alter_eq, Hh. simpl.
  by split_and!.
Qed.

Lemma X12_async_delivery_witness :
  run [OpRegister [testSyncListener; testAsyncErrorListener; testErrorListener]]
      New = Ok w_registered ∧
  bus_fits w_registered ∧
  pool w_dispatched !! 0%nat =
    Some (AsyncCall testAsyncErrorListener [ArgHandle 0; ArgEvent (testEvent "x")]) ∧
  ∃ w', go 0 w_dispatched = Ok w' ∧
        trace w' = trace w_dispatched ++
                   [Invoked 0 testAsyncErrorListener (testEvent "x")].
Proof.
  destruct (X12_async_delivery
    [OpRegister [testSyncListener; testAsyncErrorListener; testErrorListener]]
    w_registered (testEvent "x") 0%nat testAsyncErrorListener
    eq_refl bus_fits_w_registered eq_refl)
    as (Hi & w' & Hgo & Ht & _).
  split_and!; [reflexivity | exact bus_fits_w_registered | exact Hi |].
  by exists w'.
Defined.

(** ** The async-count table and the registrations *)

Lemma count_if_filter_length {A} (p : A -> bool) (l : list A) :
  count_if p l = length (List.filter p l).
Proof. symmetry. apply count_if_length_filter. Qed.

(** X13. After an execution that registered the listeners [ls], the
    entry of the async-count table for a name (zero for a missing
    name) is the number of asynchronous listeners of [ls] with that
    event name, which is also the number of asynchronous handlers the
    bus holds for the name: the count [Dispatch] adds to the counters
    is the number of goroutines publishing starts. *)
Theorem X13_async_count_registered (ops : list Op) (w : World)
    (name : string)
    (Hrun : run ops New = Ok w) (Hfit : bus_fits w) :
  GoEvent.asyncCount name (ge w) =
    Z.of_nat (length (List.filter (async_on name) (registered ops))) ∧
  GoEvent.asyncCount name (ge w) =
    Z.of_nat (length (List.filter Bus.sub_async
                        (Bus.handlers name (GoEvent.bus (ge w))))).
Proof.
  assert (reachable w) as Hr by (by exists ops).
  pose proof (reachable_wf w Hr Hfit) as Hw.
  pose proof (run_bus ops New w Hrun) as Hbus. simpl in Hbus.
  rewrite (wf_counts w Hw name), count_if_filter_length.
  split; [|done]. by rewrite Hbus, handlers_async, length_map.
Qed.

Lemma X13_async_count_registered_witness :
  run [OpRegister [testSyncListener; testAsyncErrorListener; testErrorListener]]
      New = Ok w_registered ∧
  bus_fits w_registered ∧
  GoEvent.asyncCount "test.event" (ge w_registered) = 1 ∧
  GoEvent.asyncCount "user.deleted" (ge w_registered) = 0.
Proof.
  split_and!; [reflexivity | exact bus_fits_w_registered | |].
  - exact (proj1 (X13_async_count_registered
      [OpRegister [testSyncListener; testAsyncErrorListener; testErrorListener]]
      w_registered "test.event" eq_refl bus_fits_w_registered)).
  - exact (proj1 (X13_async_count_registered
      [OpRegister [testSyncListener; testAsyncErrorListener; testErrorListener]]
      w_registered "user.deleted" eq_refl bus_fits_w_registered)).
Defined.

(** ** Under any interleaving *)

Lemma watcher_fresh h gs :
  Forall (fun g => go_handle g ≠ h) gs →
  count_if (is_watcher_of h) gs = 0%nat ∧ count_if (past_wait h) gs = 0%nat.
Proof.
  intros H. split; apply count_if_false; (eapply Forall_impl; [exact H |]);
    intros [l h' e pc|h' pc]; simpl; try done;
    intros Hne; destruct pc; try done; by apply bool_decide_eq_false_2.
Qed.

Lemma op_watchers_ok s s' : swf s → watchers_ok s → op s s' → watchers_ok s'.
Proof.
  intros Hs Hw Hop h' dh' Hl. unfold watchers_ok in Hw.
  pose proof (swf_handle s Hs) as Hh. pose proof (swf_done s Hs) as Hd.
  pose proof (swf_main s Hs) as Hm. unfold main_ok in Hm.
  pose proof (swf_gs s Hs) as Hg.
  destruct Hop; main_rewrite; try heap_lookup;
    rewrite ?count_if_snoc; simpl;
    try (erewrite !count_if_insert_same
           by (done || by destruct (after_call l e)));
    try (by apply Hw).
  - apply lookup_app_Some in Hl as [Hl|[Hlen Hl]].
    + pose proof (lookup_lt_Some _ _ _ Hl).
      rewrite bool_decide_eq_false_2 by lia. split; [done |].
      by apply Hw.
    + apply list_lookup_singleton_Some in Hl as [Hz <-]. simpl.
      replace h' with (length (s_heap s)) by lia.
      destruct (watcher_fresh (length (s_heap s)) (s_gs s)) as [-> ->];
        [by apply go_handle_fresh |].
      split; [lia |]. by intros [?|?].
  - destruct (Hw _ _ E) as [Hw1 Hw2]. specialize (Hd _ _ E).
    rewrite bool_decide_eq_true_2 in * by done.
    pose proof (count_if_le (past_wait h) (is_watcher_of h) (s_gs s)) as Hle.
    assert (Hz : count_if (is_watcher_of h) (s_gs s) = 0%nat).
    { destruct (count_if (is_watcher_of h) (s_gs s)); [done |].
      by specialize (Hw1 ltac:(lia)). }
    split; [intros ?; lia |]. intros [Hp|Hdone].
    + assert (count_if (past_wait h) (s_gs s) <= 0)%nat; [|lia].
      rewrite <- Hz. apply Hle. intros [|? []]; simpl; done.
    + rewrite Hdone in Hd. lia.
  - destruct (Hw _ _ Hl) as [Hw1 Hw2]. rewrite !Nat.add_0_r. done.
  - destruct (Hw _ _ Hl) as [Hw1 Hw2]. rewrite !Nat.add_0_r. done.
  - destruct (Hw _ _ E) as [Hw1 Hw2]. split; [done |]. intros Hp.
    specialize (Hw2 Hp). specialize (Hh _ _ E).
    match goal with H : s_gs _ !! _ = Some _ |- _ =>
      pose proof (count_if_delete (h_live h) _ _ _ H) as Hc
    end. simpl in Hc. rewrite bool_decide_eq_true_2 in Hc by done.
    pose proof (credit_h_nonneg h (s_main s)). lia.
  - destruct (Hw _ _ Hl) as [Hw1 Hw2]. split; [done |].
    destruct (decide (h = h')) as [<-|Hne].
    + intros _. congruence.
    + erewrite count_if_insert_same; [done | done |].
      simpl. by rewrite bool_decide_eq_false_2.
  - destruct (Hw _ _ E) as [Hw1 Hw2]. split; [done |]. intros _.
    apply Hw2. left.
    match goal with H : s_gs _ !! _ = Some _ |- _ =>
      pose proof (count_if_delete (past_wait h) _ _ _ H) as Hc
    end. simpl in Hc. rewrite bool_decide_eq_true_2 in Hc by done. lia.
Qed.

Lemma running_watchers_ok s : running s → fits s → watchers_ok s.
Proof.
  apply (running_invariant watchers_ok).
  - by intros h dh.
  - intros s1 s2 Hs Hw Hop. by apply (op_watchers_ok s1).
Qed.

Lemma omap_None {A B} (f : A → option B) (l : list A) :
  (∀ i x, l !! i = Some x → f x = None) → omap f l = [].
Proof.
  induction l as [|x l IH]; intros H; [done |]. simpl.
  rewrite (H 0%nat x eq_refl). apply IH. intros i y Hi. by apply (H (S i)).
Qed.

Lemma running_s_closed : running s_closed.
Proof. exists sched_closed. vm_compute. reflexivity. Qed.

Lemma fits_s_closed : fits s_closed.
Proof. unfold fits. vm_compute. discriminate. Qed.

Lemma handle_log_calls s h dh :
  running s → fits s → s_heap s !! h = Some dh →
  call_failures h (s_hist s) ≡ₚ DispatchHandle.GetErrors dh ++ pending h s.
Proof.
  intros Hrun Hfit Hdh. pose proof (running_logs_fine s Hrun Hfit) as Hl.
  unfold DispatchHandle.GetErrors.
  apply count_if_Permutation. intros p.
  rewrite (lf_calls s Hl p h), count_if_app.
  by rewrite (lf_handle s Hl h dh Hdh).
Qed.

(** X14. In every state of the program, whatever the interleaving so
    far: no operation panics (no counter of a [WaitGroup] would become
    negative, no channel is closed twice, every handle used is
    allocated); the call of [Dispatch] in progress can make its next
    operation; and a goroutine of an asynchronous adapter that is not
    over can make its next operation. *)
Theorem X14_no_panic_any_interleaving (s : State)
    (Hrun : running s) (Hfit : fits s) :
  (∀ st msg, step st s ≠ Panic msg) ∧
  (∀ h e pc, s_main s = Dispatching h e pc →
     ∃ s', step StCaller s = Ok s') ∧
  (∀ i l h e pc, s_gs s !! i = Some (GoAsync l h e pc) → pc ≠ AExit →
     ∃ s', step (StGo i) s = Ok s') ∧
  (∀ i h, s_gs s !! i = Some (GoWatcher h WMarkDone) →
     ∃ s', step (StGo i) s = Ok s').
Proof.
  pose proof (running_swf s Hrun Hfit) as Hs.
  split_and!.
  - intros st msg. by apply step_no_panic.
  - intros h e pc. by apply caller_progress.
  - intros i l h e pc Eg Hpc.
    destruct (go_progress s i l h e pc Hs Eg Hpc) as (s' & pc' & H & _).
    by exists s'.
  - intros i h Eg. pose proof (step_no_panic (StGo i) s) as Hnp.
    simpl in *. unfold go_step in *. rewrite Eg in *.
    pose proof (proj1 (Forall_lookup _ _) (swf_gs s Hs) i _ Eg) as Hlt.
    simpl in Hlt. apply lookup_lt_is_Some in Hlt as [dh Hdh].
    rewrite Hdh in *. unfold DispatchHandle.markDone in *.
    destruct (DispatchHandle.done dh); [|by eauto].
    by destruct (Hnp "close of closed channel"%string Hs).
Qed.

Lemma X14_no_panic_any_interleaving_witness :
  running s_interleaved ∧ fits s_interleaved ∧
  (∃ s', step StCaller s_interleaved = Ok s') ∧
  (∃ s', step (StGo 0) s_interleaved = Ok s').
Proof.
  split_and!; [exact running_s_interleaved | exact fits_s_interleaved | ..];
    destruct (X14_no_panic_any_interleaving s_interleaved
                running_s_interleaved fits_s_interleaved)
      as (_ & Hc & Hg & _).
  - by apply (Hc 0%nat (testEvent "x") (DPublish [] None)).
  - by apply (Hg 0%nat testAsyncErrorListener 0%nat (testEvent "x") AGeDone).
Defined.

(** X15. In every state of the program, whatever the interleaving so
    far. When [ge.Wait()] would return, every asynchronous call that
    was started has left [handler] and made its [ge.wg.Done()], and the
    call of [Dispatch] in progress has no asynchronous handler
    announced and not started. When [handle.Wait()] would return, every
    asynchronous call started for that handle is over. When the channel
    of [handle.Done()] is closed, [handle.Wait()] returns, the call of
    [Dispatch] that made the handle has returned, no adapter of that
    dispatch holds an error it has not appended, and the handle's log
    holds, each as often as it was produced, the errors of all the
    calls of [OnEvent] made for that dispatch. *)
Theorem X15_waiting_is_sound (s : State)
    (Hrun : running s) (Hfit : fits s) :
  (GoEvent.Wait (s_ge s) = Ok tt →
     credit_ge (s_main s) = 0 ∧
     ∀ i l h e pc, s_gs s !! i = Some (GoAsync l h e pc) →
       pc = AHandleDone ∨ pc = AExit) ∧
  (∀ h dh, s_heap s !! h = Some dh →
     (DispatchHandle.Wait dh = Ok tt →
        ∀ i l e pc, s_gs s !! i = Some (GoAsync l h e pc) → pc = AExit) ∧
     (DispatchHandle.Done dh = true →
        DispatchHandle.Wait dh = Ok tt ∧
        dispatching h (s_main s) = false ∧
        pending h s = [] ∧
        call_failures h (s_hist s) ≡ₚ DispatchHandle.GetErrors dh)).
Proof.
  pose proof (running_swf s Hrun Hfit) as Hs.
  pose proof (running_watchers_ok s Hrun Hfit) as Hw.
  assert (Hwait : ∀ h dh, s_heap s !! h = Some dh →
            DispatchHandle.wg dh = 0 →
            ∀ i l e pc, s_gs s !! i = Some (GoAsync l h e pc) → pc = AExit).
  { intros h dh Hdh Hz i l e pc Eg.
    pose proof (swf_handle s Hs _ _ Hdh) as Hh.
    pose proof (credit_h_nonneg h (s_main s)).
    assert (Hcz : count_if (h_live h) (s_gs s) = 0%nat) by lia.
    pose proof (count_if_zero_lookup (h_live h) _ _ _ Hcz Eg) as Hl.
    simpl in Hl. destruct pc; try done;
      by rewrite bool_decide_eq_true_2 in Hl. }
  split.
  - unfold GoEvent.Wait, WaitGroup.Wait.
    destruct (GoEvent.wg (s_ge s) =? 0) eqn:E0; [|done]. intros _.
    apply Z.eqb_eq in E0. pose proof (swf_ge s Hs) as Hge.
    pose proof (credit_ge_nonneg s Hs). split; [lia |].
    intros i l h e pc Eg.
    assert (Hcz : count_if ge_live (s_gs s) = 0%nat) by lia.
    pose proof (count_if_zero_lookup ge_live _ _ _ Hcz Eg) as Hl.
    simpl in Hl. destruct pc; try done; auto.
  - intros h dh Hdh. split.
    + unfold DispatchHandle.Wait, WaitGroup.Wait.
      destruct (DispatchHandle.wg dh =? 0) eqn:E0; [|done]. intros _.
      apply Z.eqb_eq in E0. by apply (Hwait h dh).
    + unfold DispatchHandle.Done. intros Hdone.
      destruct (Hw _ _ Hdh) as [_ Hz]. specialize (Hz (or_intror Hdone)).
      pose proof (swf_done s Hs _ _ Hdh) as Hd. rewrite Hdone in Hd.
      assert (Hdisp : dispatching h (s_main s) = false)
        by (destruct (dispatching h (s_main s)); [lia | done]).
      assert (Hpend : pending h s = []).
      { unfold pending.
        replace (pending_main h (s_main s)) with (@nil EventError).
        - simpl. apply omap_None. intros i g Hg.
          destruct g as [l h' e pc|]; [|done]. simpl.
          destruct pc as [p| | |]; try done.
          case_decide; [|done]. subst.
          by specialize (Hwait _ _ Hdh Hz _ _ _ _ Hg).
        - unfold pending_main, dispatching in *.
          destruct (s_main s) as [|h' e [| | | |todo [[l p]|]]]; try done.
          apply bool_decide_eq_false in Hdisp. by rewrite decide_False. }
      split_and!; try done.
      * unfold DispatchHandle.Wait, WaitGroup.Wait. by rewrite Hz.
      * pose proof (handle_log_calls s h dh Hrun Hfit Hdh) as Hperm.
        by rewrite Hpend, app_nil_r in Hperm.
Qed.

Lemma X15_waiting_is_sound_witness :
  running s_closed ∧ fits s_closed ∧
  ∀ dh, s_heap s_closed !! 0%nat = Some dh →
    DispatchHandle.Wait dh = Ok tt ∧
    call_failures 0 (s_hist s_closed) ≡ₚ DispatchHandle.GetErrors dh.
Proof.
  split_and!; [exact running_s_closed | exact fits_s_closed |].
  intros dh Hdh.
  destruct (proj2 (proj2 (X15_waiting_is_sound s_closed
                            running_s_closed fits_s_closed) 0%nat dh Hdh))
    as (Hw & _ & _ & Hp); [|done].
  vm_compute in Hdh. by injection Hdh as <-.
Defined.
